(** * Radiology batch pipeline: partitioning, retry, response parsing, aggregation

    A shallow embedding of the TypeScript sources
      - [lib/types.ts]             (records, [DEFAULT_CONFIG])
      - [lib/image-processing.ts]  ([ImageProcessor.createBatches])
      - [lib/api-client.ts]        ([RadiologyAPIClient])
      - [hooks/use-upload.ts]      ([useUpload.startAnalysis], [generateConsolidatedReport])
    together with the properties the design document states about them. *)

From Stdlib Require Import String Ascii List Arith Lia NArith Bool.
From Stdlib Require Import DecimalString.
From Stdlib Require DecimalNat.
From Stdlib Require ZArith PrimFloat SpecFloat FloatOps Uint63.
Import ListNotations.

(* ===================================================================== *)
(** * JavaScript strings *)
(* ===================================================================== *)

(** A JavaScript string is a sequence of UTF-16 code units.  Literals of the
    sources are ASCII and are written with [js]. *)
Module JS.

Definition codeunit := N.
Definition jsstring := list codeunit.

Definition js (s : string) : jsstring := map N_of_ascii (list_ascii_of_string s).

(** Template-literal rendering of a non-negative integer: [`${n}`]. *)
Definition decimal (n : nat) : jsstring := js (NilZero.string_of_uint (Nat.to_uint n)).
Definition decimalN (n : N) : jsstring := js (NilZero.string_of_uint (N.to_uint n)).

Definition eqb (a b : jsstring) : bool :=
  if list_eq_dec N.eq_dec a b then true else false.

(** A string is falsy exactly when it is empty. *)
Definition truthy (s : jsstring) : bool :=
  match s with [] => false | _ :: _ => true end.

(** [a || d] where [a] may be [undefined]. *)
Definition or_else (a : option jsstring) (d : jsstring) : jsstring :=
  match a with
  | Some v => if truthy v then v else d
  | None => d
  end.

(** [s.substring(0, n)] *)
Definition substring0 (n : nat) (s : jsstring) : jsstring := firstn n s.

(** [xs.slice(i, j)] for non-negative indices *)
Definition slice {A} (i j : nat) (xs : list A) : list A := firstn (j - i) (skipn i xs).

(** [xs.join(sep)] *)
Fixpoint join (sep : jsstring) (xs : list jsstring) : jsstring :=
  match xs with
  | [] => []
  | [x] => x
  | x :: rest => x ++ sep ++ join sep rest
  end.

End JS.
Import JS.

(* ===================================================================== *)
(** * lib/types.ts *)
(* ===================================================================== *)

Inductive status := Pending | Processing | Completed | Error.

Definition status_eqb (a b : status) : bool :=
  match a, b with
  | Pending, Pending | Processing, Processing
  | Completed, Completed | Error, Error => true
  | _, _ => false
  end.

(** [UploadedImage]; the [File] handle is opaque to the pipeline. *)
Record UploadedImage := {
  img_id : jsstring;
  img_file : nat;
  img_preview : jsstring;
  img_size : nat;
  img_type : jsstring;
  img_name : jsstring;
  img_status : status;
  img_error : option jsstring
}.

Record DiagnosticResult := {
  batchId : jsstring;
  imageCount : nat;
  findings : jsstring;
  recommendations : jsstring;
  confidence : jsstring;
  technicalNotes : option jsstring;
  processingTime : N
}.

Record ImageBatch := {
  batch_id : jsstring;
  batch_images : list UploadedImage;
  batch_status : status;
  batch_result : option DiagnosticResult;
  batch_error : option jsstring;
  batch_startTime : option N;
  batch_endTime : option N
}.

(** [DEFAULT_CONFIG] *)
Module DEFAULT_CONFIG.
Definition maxImages : nat := 200.
Definition batchSize : nat := 20.
End DEFAULT_CONFIG.

(* ===================================================================== *)
(** * lib/image-processing.ts : createBatches *)
(* ===================================================================== *)

Module ImageProcessor.

Definition is_valid (img : UploadedImage) : bool := negb (status_eqb (img_status img) Error).

(** The batch pushed by one iteration of the loop; [now] is the reading of
    [Date.now()] taken in that iteration. *)
Definition new_batch (now : N) (validImages : list UploadedImage) (batchSize i : nat) : ImageBatch :=
  {| batch_id := js "batch-" ++ decimal (i / batchSize + 1) ++ js "-" ++ decimalN now;
     batch_images := slice i (i + batchSize) validImages;
     batch_status := Pending;
     batch_result := None;
     batch_error := None;
     batch_startTime := None;
     batch_endTime := None |}.

(** [for (let i = 0; i < validImages.length; i += batchSize) { batches.push(..) }].
    The loop does not terminate when [batchSize] is 0 and there is an image;
    the model answers [None] when its fuel is exhausted.  [clock k] is the
    reading of [Date.now()] in the iteration that pushes batch number [k]. *)
Fixpoint createBatches_loop (fuel : nat) (clock : nat -> N)
    (validImages : list UploadedImage) (batchSize i : nat)
    (batches : list ImageBatch) {struct fuel} : option (list ImageBatch) :=
  if i <? length validImages then
    match fuel with
    | 0 => None
    | S fuel' =>
        createBatches_loop fuel' clock validImages batchSize (i + batchSize)
          (batches ++ [new_batch (clock (length batches)) validImages batchSize i])
    end
  else Some batches.

Definition createBatches (clock : nat -> N) (images : list UploadedImage)
    (batchSize : nat) : option (list ImageBatch) :=
  let validImages := filter is_valid images in
  createBatches_loop (length validImages) clock validImages batchSize 0 [].

(** [Math.ceil(m / n)] on non-negative integers *)
Definition ceil_div (m n : nat) : nat := (m + n - 1) / n.

End ImageProcessor.

(* ===================================================================== *)
(** * Regular expressions of lib/api-client.ts *)
(* ===================================================================== *)

(** The fragment of ECMAScript regular expressions the client uses, with the
    backtracking semantics of the language: a matcher takes the rest of the
    input and a continuation, and alternatives are tried in priority order.
    All patterns of the client carry the flags [g] and [i]. *)
Module RegExp.

Definition is_line_terminator (c : codeunit) : bool :=
  ((c =? 10) || (c =? 13) || (c =? 8232) || (c =? 8233))%N.

(** Case folding of the [i] flag.  Pattern characters are ASCII; a code unit
    outside ASCII never canonicalizes to an ASCII one, so only the ASCII
    letters fold. *)
Definition upper (c : codeunit) : codeunit :=
  if ((97 <=? c) && (c <=? 122))%N then (c - 32)%N else c.

Definition ci_eqb (p c : codeunit) : bool := (upper p =? upper c)%N.

(** Consume the literal [w] at the head of [s], ignoring case. *)
Fixpoint strip_ci (w s : jsstring) : option jsstring :=
  match w, s with
  | [], _ => Some s
  | p :: w', c :: s' => if ci_eqb p c then strip_ci w' s' else None
  | _ :: _, [] => None
  end.

Inductive regex : Type :=
| Chars (w : jsstring)      (* a run of literal characters *)
| Dot                       (* .        *)
| Opt (r : regex)           (* r?       *)
| Alt (r1 r2 : regex)       (* r1|r2    *)
| Seq (r1 r2 : regex)       (* r1r2     *)
| LazyAny                   (* [\s\S]*? *)
| Ahead (r : regex)         (* (?=r)    *)
| Eoi                       (* $ , no m flag *)
| Capture (r : regex).      (* (r)      *)

Definition continuation := jsstring -> option jsstring.

(** [[\s\S]*?]: first try to go on without consuming, then consume one more. *)
Fixpoint lazy_any (s : jsstring) (k : continuation) : option jsstring :=
  match k s with
  | Some x => Some x
  | None => match s with
            | [] => None
            | _ :: s' => lazy_any s' k
            end
  end.

Fixpoint run (r : regex) (s : jsstring) (k : continuation) : option jsstring :=
  match r with
  | Chars w => match strip_ci w s with
               | Some s' => k s'
               | None => None
               end
  | Dot => match s with
           | c :: s' => if is_line_terminator c then None else k s'
           | [] => None
           end
  | Opt r1 => match run r1 s k with
              | Some x => Some x
              | None => k s
              end
  | Alt r1 r2 => match run r1 s k with
                 | Some x => Some x
                 | None => run r2 s k
                 end
  | Seq r1 r2 => run r1 s (fun s' => run r2 s' k)
  | LazyAny => lazy_any s k
  | Ahead r1 => match run r1 s (fun s' => Some s') with
                | Some _ => k s
                | None => None
                end
  | Eoi => match s with
           | [] => k s
           | _ :: _ => None
           end
  | Capture r1 => run r1 s k
  end.

(** One match attempt at the head of [s]: the input left after the match. *)
Definition match_here (r : regex) (s : jsstring) : option jsstring :=
  run r s (fun rest => Some rest).

(** [RegExpBuiltinExec] from the current [lastIndex] ([s] is the input from
    there on): the first position where the pattern matches, as the matched
    text and the input after it. *)
Fixpoint exec (r : regex) (s : jsstring) : option (jsstring * jsstring) :=
  match match_here r s with
  | Some rest => Some (firstn (length s - length rest) s, rest)
  | None => match s with
            | [] => None
            | _ :: s' => exec r s'
            end
  end.

(** The loop of [RegExp.prototype[Symbol.match]] for a global pattern: it
    collects the matched texts; after an empty match [lastIndex] advances by
    one. *)
Fixpoint match_all (fuel : nat) (r : regex) (s : jsstring) : list jsstring :=
  match fuel with
  | 0 => []
  | S fuel' =>
      match exec r s with
      | None => []
      | Some (m, rest) =>
          m :: match m, rest with
               | [], [] => []
               | [], _ :: rest' => match_all fuel' r rest'
               | _ :: _, _ => match_all fuel' r rest
               end
      end
  end.

(** [text.match(pattern)] for a pattern with the [g] flag: [null] when there
    is no match, otherwise the array of ALL matched texts (capture groups are
    not part of it). *)
Definition String_match (text : jsstring) (pattern : regex) : option (list jsstring) :=
  match match_all (S (length text)) pattern text with
  | [] => None
  | ms => Some ms
  end.

(** [String.prototype.trim]: WhiteSpace and LineTerminator code units. *)
Definition is_white_space (c : codeunit) : bool :=
  ((9 <=? c) && (c <=? 13) || (c =? 32) || (c =? 160) || (c =? 5760)
   || (8192 <=? c) && (c <=? 8202) || (c =? 8232) || (c =? 8233)
   || (c =? 8239) || (c =? 8287) || (c =? 12288) || (c =? 65279))%N.

Fixpoint trimStart (s : jsstring) : jsstring :=
  match s with
  | c :: s' => if is_white_space c then trimStart s' else s
  | [] => []
  end.

Definition trimEnd (s : jsstring) : jsstring := rev (trimStart (rev s)).

Definition trim (s : jsstring) : jsstring := trimEnd (trimStart s).

(** What a pattern can match, declaratively: [Matches r s s'] says that [r]
    matches a prefix of [s] and leaves [s']. *)
Inductive Matches : regex -> jsstring -> jsstring -> Prop :=
| M_Chars w s s' : strip_ci w s = Some s' -> Matches (Chars w) s s'
| M_Dot c s : is_line_terminator c = false -> Matches Dot (c :: s) s
| M_Opt_some r s s' : Matches r s s' -> Matches (Opt r) s s'
| M_Opt_none r s : Matches (Opt r) s s
| M_Alt_l r1 r2 s s' : Matches r1 s s' -> Matches (Alt r1 r2) s s'
| M_Alt_r r1 r2 s s' : Matches r2 s s' -> Matches (Alt r1 r2) s s'
| M_Seq r1 r2 s s1 s2 : Matches r1 s s1 -> Matches r2 s1 s2 -> Matches (Seq r1 r2) s s2
| M_LazyAny pre s : Matches LazyAny (pre ++ s) s
| M_Ahead r s s' : Matches r s s' -> Matches (Ahead r) s s
| M_Eoi : Matches Eoi [] []
| M_Capture r s s' : Matches r s s' -> Matches (Capture r) s s'.

End RegExp.

(* ===================================================================== *)
(** * lib/api-client.ts : RadiologyAPIClient *)
(* ===================================================================== *)

Module RadiologyAPIClient.
Import RegExp.

Definition REQUEST_TIMEOUT : N := 5 * 60 * 1000.
Definition MAX_RETRIES : nat := 3.

(** ** Response parsing *)

(** The keys of the [patterns] object of [extractSections]. *)
Inductive field := Findings | Recommendations | Confidence | TechnicalNotes.

(** The heading alternation [(?:A|B|C)] of each pattern. *)
Definition heading (f : field) : regex :=
  match f with
  | Findings =>
      Alt (Chars (js "DETAILED FINDINGS"))
        (Alt (Chars (js "FINDINGS")) (Chars (js "OBSERVATIONS")))
  | Recommendations =>
      Alt (Chars (js "RECOMMENDATIONS"))
        (Alt (Chars (js "NEXT STEPS"))
           (Seq (Chars (js "FOLLOW")) (Seq (Opt Dot) (Chars (js "UP")))))
  | Confidence =>
      Alt (Chars (js "CONFIDENCE"))
        (Alt (Chars (js "CERTAINTY")) (Chars (js "DIAGNOSTIC CONFIDENCE")))
  | TechnicalNotes =>
      Alt (Chars (js "TECHNICAL NOTES"))
        (Alt (Chars (js "TECHNICAL COMMENTS")) (Chars (js "IMAGE QUALITY")))
  end.

(** What ends the body of each pattern: a lookahead, or [$] for the last. *)
Definition stop (f : field) : regex :=
  match f with
  | Findings =>
      Ahead (Alt (Chars (js "CLINICAL SIGNIFICANCE"))
               (Alt (Chars (js "RECOMMENDATIONS"))
                  (Alt (Chars (js "TECHNICAL NOTES")) Eoi)))
  | Recommendations =>
      Ahead (Alt (Chars (js "TECHNICAL NOTES"))
               (Alt (Chars (js "CONFIDENCE")) Eoi))
  | Confidence =>
      Ahead (Alt (Chars (js "TECHNICAL NOTES")) Eoi)
  | TechnicalNotes => Eoi
  end.

Definition colon : codeunit := 58%N.

(** [patterns[key]], e.g. for [findings]
    [/(?:DETAILED FINDINGS|FINDINGS|OBSERVATIONS):([\s\S]*?)(?=(?:CLINICAL SIGNIFICANCE|RECOMMENDATIONS|TECHNICAL NOTES|$))/gi] *)
Definition patterns (f : field) : regex :=
  Seq (heading f) (Seq (Chars [colon]) (Seq (Capture LazyAny) (stop f))).

(** The body of the loop of [extractSections] for one key:
    [const match = text.match(pattern);
     if (match && match[1]) sections[key] = match[1].trim();] *)
Definition extractSection (text : jsstring) (f : field) : option jsstring :=
  match String_match text (patterns f) with
  | Some matches =>
      match nth_error matches 1 with
      | Some m1 => if truthy m1 then Some (trim m1) else None
      | None => None
      end
  | None => None
  end.

(** The [sections] object: a key is either set or left undefined. *)
Definition extractSections (text : jsstring) : field -> option jsstring :=
  fun f => extractSection text f.

Definition findings_fallback (analysisText : jsstring) : jsstring :=
  substring0 1000 analysisText ++ js "...".
Definition recommendations_placeholder : jsstring :=
  js "Please refer to detailed findings above.".
Definition confidence_default : jsstring := js "Standard diagnostic confidence".

Definition parseAnalysisResponse (analysisText batchId : jsstring)
    (imageCount : nat) (processingTime : N) : DiagnosticResult :=
  let sections := extractSections analysisText in
  {| batchId := batchId;
     imageCount := imageCount;
     findings := or_else (sections Findings) (findings_fallback analysisText);
     recommendations := or_else (sections Recommendations) recommendations_placeholder;
     confidence := or_else (sections Confidence) confidence_default;
     technicalNotes := sections TechnicalNotes;
     processingTime := processingTime |}.

(** Whether the heading of [f], followed by a colon, matches somewhere in
    the text. *)
Definition heading_colon_occurs (f : field) (text : jsstring) : bool :=
  match exec (Seq (heading f) (Chars [colon])) text with
  | Some _ => true
  | None => false
  end.

(** The value a field of the result takes when its section is not set, and
    the field of the result that belongs to a key. *)
Definition fallback (f : field) (analysisText : jsstring) : option jsstring :=
  match f with
  | Findings => Some (findings_fallback analysisText)
  | Recommendations => Some recommendations_placeholder
  | Confidence => Some confidence_default
  | TechnicalNotes => None
  end.

Definition value_of (f : field) (r : DiagnosticResult) : option jsstring :=
  match f with
  | Findings => Some (findings r)
  | Recommendations => Some (recommendations r)
  | Confidence => Some (confidence r)
  | TechnicalNotes => technicalNotes r
  end.

(** ** Failure classification and retry *)

(** A thrown value, as far as the client inspects it. *)
Record error := { name : jsstring; message : option jsstring }.

(** [s.startsWith(t)] and [s.includes(t)] *)
Fixpoint startsWith (s t : jsstring) : bool :=
  match t, s with
  | [], _ => true
  | a :: t', b :: s' => (a =? b)%N && startsWith s' t'
  | _ :: _, [] => false
  end.

Fixpoint includes (s t : jsstring) : bool :=
  startsWith s t || match s with
                    | [] => false
                    | _ :: s' => includes s' t
                    end.

(** [error.message?.includes(t)] as a condition *)
Definition message_includes (e : error) (t : jsstring) : bool :=
  match message e with
  | Some m => includes m t
  | None => false
  end.

Definition isRetryableError (e : error) : bool :=
  if JS.eqb (name e) (js "AbortError") then false
  else if message_includes e (js "429") then true
  else if message_includes e (js "502") then true
  else if message_includes e (js "503") then true
  else if message_includes e (js "network") then true
  else false.

(** The part of a parsed response body the client reads:
    [response.choices[0]?.message?.content]. *)
Inductive body :=
| NoChoices (typeError : jsstring)   (* [choices] is missing: reading [0] throws *)
| Content (content : option jsstring).

(** What one pass through the [try] block of [makeAPIRequest] can do. *)
Inductive attempt :=
| Aborted (msg : jsstring)           (* the 5-minute timer aborts the request *)
| FetchRejected (msg : jsstring)     (* [fetch] rejects: no response was received *)
| NotOk (status : nat) (statusText errorText : jsstring)   (* [!response.ok] *)
| BadJson (msg : jsstring)           (* [response.json()] rejects *)
| Json (b : body).

Definition api_failure (status : nat) (statusText errorText : jsstring) : jsstring :=
  js "API request failed: " ++ decimal status ++ js " " ++ statusText
     ++ js " - " ++ errorText.

Inductive outcome (A : Type) :=
| Returned (a : A)
| Threw (e : error).
Arguments Returned {A} a.
Arguments Threw {A} e.

(** How the [try] block ends: with the parsed body, or with the value that
    the [catch] block receives. *)
Definition perform (a : attempt) : outcome body :=
  match a with
  | Aborted msg => Threw {| name := js "AbortError"; message := Some msg |}
  | FetchRejected msg => Threw {| name := js "TypeError"; message := Some msg |}
  | NotOk status statusText errorText =>
      Threw {| name := js "Error";
               message := Some (api_failure status statusText errorText) |}
  | BadJson msg => Threw {| name := js "SyntaxError"; message := Some msg |}
  | Json b => Returned b
  end.

Inductive event :=
| Fetch (retryCount : nat)     (* a request is sent *)
| Delay (ms : N).              (* [await this.delay(ms)] *)

(** [makeAPIRequest(payload, retryCount)].  [server k] is what the exchange
    made at retry count [k] does.  The result is the sequence of requests and
    delays, and how the call ends. *)
Fixpoint makeAPIRequest_rec (fuel : nat) (server : nat -> attempt) (retryCount : nat)
    : option (list event * outcome body) :=
  match fuel with
  | 0 => None
  | S fuel' =>
      match perform (server retryCount) with
      | Returned b => Some ([Fetch retryCount], Returned b)
      | Threw e =>
          if (retryCount <? MAX_RETRIES) && isRetryableError e then
            match makeAPIRequest_rec fuel' server (retryCount + 1) with
            | Some (events, r) =>
                Some (Fetch retryCount
                        :: Delay (2 ^ N.of_nat retryCount * 1000) :: events, r)
            | None => None
            end
          else Some ([Fetch retryCount], Threw e)
      end
  end.

Definition makeAPIRequest (server : nat -> attempt) (retryCount : nat)
    : option (list event * outcome body) :=
  makeAPIRequest_rec (S (MAX_RETRIES - retryCount)) server retryCount.

Record APIError := { code : jsstring; err_message : jsstring }.

Record AnalysisResponse := {
  success : bool;
  result : option DiagnosticResult;
  error_ : option APIError
}.

Definition analysis_failed (msg : jsstring) : AnalysisResponse :=
  {| success := false; result := None;
     error_ := Some {| code := js "ANALYSIS_FAILED"; err_message := msg |} |}.

(** [error instanceof Error ? error.message : 'Unknown error occurred'] *)
Definition message_of (e : error) : jsstring :=
  match message e with
  | Some m => m
  | None => js "Unknown error occurred"
  end.

(** [analyzeImageBatch(request)]; [elapsed] is [Date.now() - startTime].
    Only the number of images of the request matters here. *)
Definition analyzeImageBatch (server : nat -> attempt) (images : nat)
    (requestBatchId : jsstring) (elapsed : N)
    : option (list event * AnalysisResponse) :=
  if images =? 0 then
    Some ([], analysis_failed (js "No images provided for analysis"))
  else if 20 <? images then
    Some ([], analysis_failed (js "Batch size exceeds maximum limit of 20 images"))
  else
    match makeAPIRequest server 0 with
    | None => None
    | Some (events, Threw e) => Some (events, analysis_failed (message_of e))
    | Some (events, Returned (NoChoices typeError)) =>
        Some (events, analysis_failed typeError)
    | Some (events, Returned (Content content)) =>
        match content with
        | Some analysisText =>
            if truthy analysisText then
              Some (events,
                    {| success := true;
                       result := Some (parseAnalysisResponse analysisText
                                         requestBatchId images elapsed);
                       error_ := None |})
            else Some (events, analysis_failed (js "No analysis content received from API"))
        | None => Some (events, analysis_failed (js "No analysis content received from API"))
        end
    end.

End RadiologyAPIClient.

(* ===================================================================== *)
(** * hooks/use-upload.ts *)
(* ===================================================================== *)

Module UseUpload.
Import RadiologyAPIClient.

Record ConsolidatedReport := {
  report_id : jsstring;
  report_totalImages : nat;
  report_totalBatches : nat;
  report_completedBatches : nat;
  report_failedBatches : nat;
  report_overallFindings : jsstring;
  report_detailedFindings : list (option DiagnosticResult);
  report_recommendations : list jsstring;
  report_confidence : jsstring;
  report_processingStartTime : N;
  report_processingEndTime : N;
  report_status : status
}.

Record BatchProcessingStatus := {
  totalBatches : nat;
  completedBatches : nat;
  failedBatches : nat;
  currentBatch : option jsstring;
  overallProgress : nat
}.

(** ** generateConsolidatedReport *)

Definition has_status (s : status) (b : ImageBatch) : bool := status_eqb (batch_status b) s.

(** [xs.filter(Boolean)] on strings that may be undefined *)
Definition filter_Boolean (xs : list (option jsstring)) : list jsstring :=
  flat_map (fun x => match x with
                     | Some v => if truthy v then [v] else []
                     | None => []
                     end) xs.

Definition nl : jsstring := [10%N].
Definition batch_separator : jsstring :=
  nl ++ nl ++ js "--- BATCH SEPARATOR ---" ++ nl ++ nl.
Definition no_findings : jsstring := js "No findings available due to processing errors.".
Definition standard_confidence : jsstring := js "Standard diagnostic analysis".
Definition limited_confidence : jsstring := js "Limited due to processing errors".

(** The sentence that opens [overallFindings], for [n] images and [k] batches. *)
Definition summary (n k : nat) : jsstring :=
  js "Analysis of " ++ decimal n ++ js " medical images across " ++ decimal k
     ++ js " batches:" ++ nl ++ nl.

Definition generateConsolidatedReport (now : N) (batches : list ImageBatch)
    (totalImages : nat) (startTime endTime : N) : ConsolidatedReport :=
  let completedBatches := filter (has_status Completed) batches in
  let failedBatches := filter (has_status Error) batches in
  let allFindings :=
    filter_Boolean (map (fun b => option_map findings (batch_result b)) completedBatches) in
  let allRecommendations :=
    filter_Boolean (map (fun b => option_map recommendations (batch_result b)) completedBatches) in
  let overallFindings :=
    if 0 <? length allFindings
    then summary totalImages (length completedBatches) ++ join batch_separator allFindings
    else no_findings in
  {| report_id := js "report-" ++ decimalN now;
     report_totalImages := totalImages;
     report_totalBatches := length batches;
     report_completedBatches := length completedBatches;
     report_failedBatches := length failedBatches;
     report_overallFindings := overallFindings;
     report_detailedFindings := map batch_result completedBatches;
     report_recommendations := allRecommendations;
     report_confidence :=
       if 0 <? length completedBatches then standard_confidence else limited_confidence;
     report_processingStartTime := startTime;
     report_processingEndTime := endTime;
     report_status :=
       if length failedBatches =? length batches then Error else Completed |}.

(** The opening of [overallFindings] as the design document words it: the
    total number of items and the total number of groups, then the findings
    of the completed groups. *)
Definition documented_overallFindings (batches : list ImageBatch) (totalImages : nat)
    : jsstring :=
  match filter (has_status Completed) batches with
  | [] => no_findings
  | completed =>
      summary totalImages (length batches)
        ++ join batch_separator
             (flat_map (fun b => match batch_result b with
                                 | Some r => [findings r]
                                 | None => []
                                 end) completed)
  end.

(** The results that the completed batches of a terminal set carry. *)
Definition completed_results (batches : list ImageBatch) : list DiagnosticResult :=
  flat_map (fun b => match batch_result b with
                     | Some r => [r]
                     | None => []
                     end) (filter (has_status Completed) batches).

(** ** startAnalysis *)

Definition maxConcurrent : nat := 3.

(** [Math.round((totalProcessed / total) * 100)]: the quotient rounded to the
    nearest integer, halves upwards.  [total] is positive whenever a batch
    settles.  The rounding is that of the exact quotient.  The code rounds
    the double-precision product ([Doubles.progress] below), which is the
    same number for up to 39 batches, among them the at most 10 batches that
    200 images make; from 40 batches on the two can differ by one (23 of 40
    batches: 57 in doubles, 58 exactly). *)
Definition progress_of (totalProcessed total : nat) : nat :=
  (200 * totalProcessed + total) / (2 * total).

(** How the body of [processBatch] leaves its [try] block. *)
Inductive ending :=
| Analysed (r : AnalysisResponse)   (* [analyzeImageBatch] returned [r] *)
| Raised (msg : jsstring).          (* an exception reached the [catch] block,
                                       e.g. from [prepareBatchForAPI] *)

(** Where the scheduling loop stands. *)
Inductive control :=
| LoopHead                (* at the inner [while] that starts new batches *)
| Reaping (i : nat)       (* in the [for] loop, [i] promises still to check *)
| Finished.

(** The variables of one call of [startAnalysis].  The batch objects are
    shared by reference between [state.batches], the queue, the promises
    and [processedBatches]: they live in [store] and are referred to by
    position. *)
Record run := {
  store : list ImageBatch;
  images_length : nat;
  startTime : N;
  batchQueue : list nat;
  activeBatches : list nat;
  processedBatches : list nat;
  completedCount : nat;
  failedCount : nat;
  processingStatus : BatchProcessingStatus;
  report : option ConsolidatedReport;
  at_ : control
}.

Fixpoint update (b : nat) (f : ImageBatch -> ImageBatch) (l : list ImageBatch)
    : list ImageBatch :=
  match l, b with
  | [], _ => []
  | x :: l', 0 => f x :: l'
  | x :: l', S b' => x :: update b' f l'
  end.

Definition status_at (st : run) (b : nat) : option status :=
  option_map batch_status (nth_error (store st) b).

(** The promise of [processBatch(batch)] is settled once the batch has its
    final status. *)
Definition settled (st : run) (b : nat) : bool :=
  match status_at st b with
  | Some Completed | Some Error => true
  | _ => false
  end.

(** Number of batches whose [status] is ['processing']. *)
Definition processing (st : run) : nat := length (filter (has_status Processing) (store st)).

Definition start (batches : list ImageBatch) (imagesLength : nat) (now : N) : run :=
  {| store := batches;
     images_length := imagesLength;
     startTime := now;
     batchQueue := seq 0 (length batches);
     activeBatches := [];
     processedBatches := [];
     completedCount := 0;
     failedCount := 0;
     processingStatus :=
       {| totalBatches := length batches; completedBatches := 0; failedBatches := 0;
          currentBatch := None; overallProgress := 0 |};
     report := None;
     at_ := LoopHead |}.

Inductive label :=
| Admit (now : N)                         (* [batchQueue.shift()] and [processBatch] up to its first [await] *)
| Race                                    (* [await Promise.race(activeBatches)] returns *)
| Probe                                   (* one round of the [for] loop over [activeBatches] *)
| Settle (b : nat) (e : ending) (now : N) (* [processBatch] of batch [b] runs to its end *)
| Finish (endTime now : N).               (* the report and the last [setState] *)

Definition begin_processing (now : N) (b : ImageBatch) : ImageBatch :=
  {| batch_id := batch_id b; batch_images := batch_images b;
     batch_status := Processing;
     batch_result := batch_result b; batch_error := batch_error b;
     batch_startTime := Some now; batch_endTime := batch_endTime b |}.

Definition complete (r : DiagnosticResult) (now : N) (b : ImageBatch) : ImageBatch :=
  {| batch_id := batch_id b; batch_images := batch_images b;
     batch_status := Completed;
     batch_result := Some r; batch_error := batch_error b;
     batch_startTime := batch_startTime b; batch_endTime := Some now |}.

Definition fail (msg : jsstring) (now : N) (b : ImageBatch) : ImageBatch :=
  {| batch_id := batch_id b; batch_images := batch_images b;
     batch_status := Error;
     batch_result := batch_result b; batch_error := Some msg;
     batch_startTime := batch_startTime b; batch_endTime := Some now |}.

(** [xs.splice(i, 1)] *)
Definition splice1 {A} (i : nat) (xs : list A) : list A := firstn i xs ++ skipn (S i) xs.

(** The [setState] at the end of the [try] block of [processBatch]. *)
Definition publish (completedCount failedCount progress : nat) (p : BatchProcessingStatus)
    : BatchProcessingStatus :=
  {| totalBatches := totalBatches p;
     completedBatches := completedCount;
     failedBatches := failedCount;
     currentBatch := currentBatch p;
     overallProgress := progress |}.

Definition admit_step (now : N) (st : run) : option run :=
  match at_ st, batchQueue st with
  | LoopHead, b :: queue =>
      if length (activeBatches st) <? maxConcurrent then
        match nth_error (store st) b with
        | Some batch =>
            Some {| store := update b (begin_processing now) (store st);
                    images_length := images_length st;
                    startTime := startTime st;
                    batchQueue := queue;
                    activeBatches := activeBatches st ++ [b];
                    processedBatches := processedBatches st;
                    completedCount := completedCount st;
                    failedCount := failedCount st;
                    processingStatus :=
                      {| totalBatches := totalBatches (processingStatus st);
                         completedBatches := completedBatches (processingStatus st);
                         failedBatches := failedBatches (processingStatus st);
                         currentBatch := Some (batch_id batch);
                         overallProgress := overallProgress (processingStatus st) |};
                    report := report st;
                    at_ := LoopHead |}
        | None => None
        end
      else None
  | _, _ => None
  end.

(** The inner [while] has nothing more to start, and a promise has settled. *)
Definition race_step (st : run) : option run :=
  match at_ st with
  | LoopHead =>
      if negb (match batchQueue st with [] => false | _ :: _ => true end
               && (length (activeBatches st) <? maxConcurrent))
         && existsb (settled st) (activeBatches st)
      then Some {| store := store st; images_length := images_length st;
                   startTime := startTime st; batchQueue := batchQueue st;
                   activeBatches := activeBatches st;
                   processedBatches := processedBatches st;
                   completedCount := completedCount st; failedCount := failedCount st;
                   processingStatus := processingStatus st; report := report st;
                   at_ := Reaping (length (activeBatches st)) |}
      else None
  | _ => None
  end.

(** [for (let i = activeBatches.length - 1; i >= 0; i--)]: a settled promise
    is spliced out, a pending one stays. *)
Definition check_step (st : run) : option run :=
  match at_ st with
  | Reaping (S i) =>
      match nth_error (activeBatches st) i with
      | Some b =>
          Some {| store := store st; images_length := images_length st;
                  startTime := startTime st; batchQueue := batchQueue st;
                  activeBatches :=
                    if settled st b then splice1 i (activeBatches st)
                    else activeBatches st;
                  processedBatches := processedBatches st;
                  completedCount := completedCount st; failedCount := failedCount st;
                  processingStatus := processingStatus st; report := report st;
                  at_ := match i with 0 => LoopHead | S _ => Reaping i end |}
      | None => None
      end
  | _ => None
  end.

Definition settle_step (b : nat) (e : ending) (now : N) (st : run) : option run :=
  match status_at st b with
  | Some Processing =>
      let total := length (store st) in
      match e with
      | Analysed r =>
          let ok := match result r with
                    | Some res => if success r then Some res else None
                    | None => None
                    end in
          let store' :=
            match ok with
            | Some res => update b (complete res now) (store st)
            | None =>
                update b (fail (or_else (option_map err_message (error_ r))
                                  (js "Analysis failed")) now) (store st)
            end in
          let completedCount' :=
            match ok with Some _ => S (completedCount st) | None => completedCount st end in
          let failedCount' :=
            match ok with Some _ => failedCount st | None => S (failedCount st) end in
          Some {| store := store'; images_length := images_length st;
                  startTime := startTime st; batchQueue := batchQueue st;
                  activeBatches := activeBatches st;
                  processedBatches := processedBatches st ++ [b];
                  completedCount := completedCount';
                  failedCount := failedCount';
                  processingStatus :=
                    publish completedCount' failedCount'
                      (progress_of (completedCount' + failedCount') total)
                      (processingStatus st);
                  report := report st; at_ := at_ st |}
      | Raised msg =>
          Some {| store := update b (fail msg now) (store st);
                  images_length := images_length st;
                  startTime := startTime st; batchQueue := batchQueue st;
                  activeBatches := activeBatches st;
                  processedBatches := processedBatches st ++ [b];
                  completedCount := completedCount st;
                  failedCount := S (failedCount st);
                  processingStatus := processingStatus st;
                  report := report st; at_ := at_ st |}
      end
  | _ => None
  end.

(** [processedBatches] as the array of batch objects it is. *)
Definition deref (st : run) (bs : list nat) : list ImageBatch :=
  flat_map (fun b => match nth_error (store st) b with
                     | Some batch => [batch]
                     | None => []
                     end) bs.

(** After the loop, [activeBatches] is empty, so the [Promise.all] that
    follows it has nothing to wait for; the report is made from
    [processedBatches]. *)
Definition finish_step (endTime now : N) (st : run) : option run :=
  match at_ st, batchQueue st, activeBatches st with
  | LoopHead, [], [] =>
      Some {| store := store st; images_length := images_length st;
              startTime := startTime st; batchQueue := []; activeBatches := [];
              processedBatches := processedBatches st;
              completedCount := completedCount st; failedCount := failedCount st;
              processingStatus :=
                {| totalBatches := totalBatches (processingStatus st);
                   completedBatches := completedBatches (processingStatus st);
                   failedBatches := failedBatches (processingStatus st);
                   currentBatch := None;
                   overallProgress := 100 |};
              report :=
                Some (generateConsolidatedReport now
                        (deref st (processedBatches st))
                        (images_length st) (startTime st) endTime);
              at_ := Finished |}
  | _, _, _ => None
  end.

(** One uninterrupted stretch of the run; [None] when it cannot happen in
    the state. *)
Definition step (l : label) (st : run) : option run :=
  match l with
  | Admit now => admit_step now st
  | Race => race_step st
  | Probe => check_step st
  | Settle b e now => settle_step b e now st
  | Finish endTime now => finish_step endTime now st
  end.

Fixpoint steps (ls : list label) (st : run) : option run :=
  match ls with
  | [] => Some st
  | l :: ls' => match step l st with
                | Some st' => steps ls' st'
                | None => None
                end
  end.

(** How many batches a run has started. *)
Definition admitted (ls : list label) : nat :=
  length (filter (fun l => match l with Admit _ => true | _ => false end) ls).

(** A run in which no exception reaches the [catch] block of [processBatch]. *)
Definition no_exception (ls : list label) : bool :=
  forallb (fun l => match l with
                    | Settle _ (Raised _) _ => false
                    | _ => true
                    end) ls.

(** The published figures agree with the counters of the run: what the
    [setState] at the end of the [try] block establishes. *)
Record published (total : nat) (st : run) : Prop := {
  pub_total : length (store st) = total;
  pub_bound :
    completedCount st + failedCount st + processing st + length (batchQueue st) <= total;
  pub_figures :
    at_ st <> Finished ->
    completedBatches (processingStatus st) = completedCount st
    /\ failedBatches (processingStatus st) = failedCount st
    /\ overallProgress (processingStatus st)
       = (if completedCount st + failedCount st =? 0 then 0
          else progress_of (completedCount st + failedCount st) total)
}.

(** The published progress never runs ahead of the counters. *)
Record progress_bounded (total : nat) (st : run) : Prop := {
  bnd_total : length (store st) = total;
  bnd_count :
    completedCount st + failedCount st + processing st + length (batchQueue st) <= total;
  bnd_progress :
    at_ st <> Finished ->
    overallProgress (processingStatus st)
    <= (if completedCount st + failedCount st =? 0 then 0
        else progress_of (completedCount st + failedCount st) total)
}.

(** What holds of the variables of a run at every moment. *)
Record consistent (st : run) : Prop := {
  inv_active : length (activeBatches st) <= maxConcurrent;
  inv_processing :
    forall b, status_at st b = Some Processing -> In b (activeBatches st);
  inv_started :
    forall b, In b (activeBatches st) ->
              status_at st b = Some Processing \/ settled st b = true;
  inv_range : forall b, In b (batchQueue st) -> b < length (store st);
  inv_reaping :
    forall i, at_ st = Reaping i -> 0 < i <= length (activeBatches st);
  inv_accounted :
    forall b, b < length (store st) ->
              In b (batchQueue st) \/ In b (activeBatches st) \/ settled st b = true;
  inv_finished : at_ st = Finished -> batchQueue st = [] /\ activeBatches st = []
}.

(** A quantity that every step of a run makes smaller. *)
Definition control_weight (st : run) : nat :=
  match at_ st with
  | LoopHead => 4
  | Reaping i =>
      i + (if existsb (settled st) (firstn i (activeBatches st)) then 0 else 5)
  | Finished => 0
  end.

Definition variant (st : run) : nat :=
  8 * length (batchQueue st) + processing st + 6 * length (activeBatches st)
  + control_weight st.

End UseUpload.

(* ===================================================================== *)
(** * Sample inputs *)
(* ===================================================================== *)

Module Samples.
Import RadiologyAPIClient UseUpload.

(** A valid uploaded image. *)
Definition image (k : nat) : UploadedImage :=
  {| img_id := js "img-" ++ decimal k; img_file := k; img_preview := js "blob:preview";
     img_size := 1024; img_type := js "image/png"; img_name := js "scan.png";
     img_status := Pending; img_error := None |}.

(** A report with each of the four headings once. *)
Definition report_text : jsstring :=
  js "FINDINGS: Normal chest. RECOMMENDATIONS: Routine review. CONFIDENCE: High. TECHNICAL NOTES: Good quality.".

(** A text that repeats the findings heading after another section. *)
Definition repeated_text : jsstring :=
  js "FINDINGS: first RECOMMENDATIONS: rest FINDINGS: second".

(** A text that names the findings without a colon. *)
Definition prose_text : jsstring := js "The FINDINGS are unremarkable".

(** A batch that completed with the given findings and recommendations,
    and a batch that failed. *)
Definition completed_batch (k : nat) (f r : jsstring) : ImageBatch :=
  {| batch_id := js "batch-" ++ decimal k; batch_images := [];
     batch_status := Completed;
     batch_result :=
       Some {| batchId := js "batch-" ++ decimal k; imageCount := 20;
               findings := f; recommendations := r;
               confidence := confidence_default; technicalNotes := None;
               processingTime := 1500 |};
     batch_error := None; batch_startTime := Some 10%N; batch_endTime := Some 1510%N |}.

Definition failed_batch (k : nat) : ImageBatch :=
  {| batch_id := js "batch-" ++ decimal k; batch_images := [];
     batch_status := Error; batch_result := None;
     batch_error := Some (js "Analysis failed");
     batch_startTime := Some 10%N; batch_endTime := Some 1510%N |}.

(** Three terminal batches: two completed, with findings "A" and "B", and
    one failed. *)
Definition two_of_three : list ImageBatch :=
  [completed_batch 1 (js "A") (js "Repeat in 6 months.");
   completed_batch 2 (js "B") (js "No follow-up.");
   failed_batch 3].

(** Two pending batches, as [createBatches] makes them. *)
Definition pending_batch (k : nat) : ImageBatch :=
  {| batch_id := js "batch-" ++ decimal k; batch_images := [image k];
     batch_status := Pending; batch_result := None; batch_error := None;
     batch_startTime := None; batch_endTime := None |}.

Definition two_pending : list ImageBatch := [pending_batch 1; pending_batch 2].

(** Both batches are started; the images of the first cannot be read, so
    [prepareBatchForAPI] throws. *)
Definition preparation_fails : list label :=
  [Admit 1; Admit 2;
   Settle 0 (Raised (js "Failed to prepare image scan.png for analysis")) 5].

(** Both batches are started and analysed, the promises are reaped and the
    report is made. *)
Definition full_run : list label :=
  [Admit 1; Admit 2;
   Settle 1 (Analysed (analysis_failed (js "API request failed: 400 Bad Request - "))) 5;
   Race; Probe; Probe;
   Settle 0 (Analysed {| success := true;
                         result := Some (parseAnalysisResponse (js "Clear lungs.")
                                           (js "batch-1") 1 7);
                         error_ := None |}) 9;
   Race; Probe; Finish 11 12].

(** A service that answers every request with status 503. *)
Definition always_unavailable : nat -> attempt :=
  fun _ => NotOk 503 (js "Service Unavailable") (js "overloaded").

End Samples.

(* ===================================================================== *)
(** * lib/image-processing.ts : validation and preparation *)
(* ===================================================================== *)

Module ImageFiles.
Import ImageProcessor.

(** A [File], as far as the pipeline reads it. *)
Record File := {
  file_handle : nat;
  file_name : jsstring;
  file_size : N;
  file_type : jsstring
}.

(** [DEFAULT_CONFIG.allowedTypes] and [DEFAULT_CONFIG.maxFileSize] *)
Definition allowedTypes : list jsstring :=
  [js "image/jpeg"; js "image/png"; js "image/tiff"; js "image/bmp";
   js "application/dicom"; js "image/dicom"].
Definition maxFileSize : N := 50 * 1024 * 1024.

(** [xs.includes(x)] on an array of strings *)
Definition array_includes (xs : list jsstring) (x : jsstring) : bool :=
  existsb (JS.eqb x) xs.

Record Validation := { valid : bool; validation_error : option jsstring }.

(** [validateImage(file)].  [limit] is the text of
    [this.formatFileSize(DEFAULT_CONFIG.maxFileSize)], which is computed with
    floating-point logarithms. *)
Definition validateImage (limit : jsstring) (file : File) : Validation :=
  if negb (array_includes allowedTypes (file_type file)) then
    {| valid := false;
       validation_error :=
         Some (js "Unsupported file type: " ++ file_type file
                 ++ js ". Allowed types: " ++ join (js ", ") allowedTypes) |}
  else if (maxFileSize <? file_size file)%N then
    {| valid := false;
       validation_error :=
         Some (js "File size exceeds limit. Maximum size: " ++ limit) |}
  else if (file_size file =? 0)%N then
    {| valid := false; validation_error := Some (js "File appears to be empty") |}
  else {| valid := true; validation_error := None |}.

(** [file.name.replace(/[^a-zA-Z0-9.-]/g, '_')] *)
Definition is_safe (c : codeunit) : bool :=
  ((97 <=? c) && (c <=? 122) || (65 <=? c) && (c <=? 90)
   || (48 <=? c) && (c <=? 57) || (c =? 46) || (c =? 45))%N.

Definition safeName (name : jsstring) : jsstring :=
  map (fun c => if is_safe c then c else 95%N) name.

(** The digits of a number in a template literal. *)
Definition is_digit (c : codeunit) : bool := ((48 <=? c) && (c <=? 57))%N.

(** [generateImageId(file)] with the readings of [Date.now()] and of
    [Math.random().toString(36).substr(2, 9)]. *)
Definition generateImageId (timestamp : N) (random : jsstring) (file : File) : jsstring :=
  decimalN timestamp ++ js "-" ++ random ++ js "-" ++ safeName (file_name file).

(** One round of the loop of [processUploadedFiles].  [preview] is
    [URL.createObjectURL], [None] when it throws: the [catch] block then
    pushes an image in error. *)
Definition processFile (limit : jsstring) (preview : File -> option jsstring)
    (timestamp : N) (random : jsstring) (file : File) : UploadedImage :=
  let validation := validateImage limit file in
  match preview file with
  | Some url =>
      {| img_id := generateImageId timestamp random file;
         img_file := file_handle file;
         img_preview := url;
         img_size := N.to_nat (file_size file);
         img_type := file_type file;
         img_name := file_name file;
         img_status := if valid validation then Pending else Error;
         img_error := validation_error validation |}
  | None =>
      {| img_id := generateImageId timestamp random file;
         img_file := file_handle file;
         img_preview := [];
         img_size := N.to_nat (file_size file);
         img_type := file_type file;
         img_name := file_name file;
         img_status := Error;
         img_error := Some (js "Failed to process file") |}
  end.

(** [processUploadedFiles(files)]; [entropy k] is the timestamp and the
    random text of the identifier of file number [k]. *)
Fixpoint processUploadedFiles_from (k : nat) (limit : jsstring)
    (preview : File -> option jsstring) (entropy : nat -> N * jsstring)
    (files : list File) : list UploadedImage :=
  match files with
  | [] => []
  | file :: rest =>
      processFile limit preview (fst (entropy k)) (snd (entropy k)) file
        :: processUploadedFiles_from (S k) limit preview entropy rest
  end.

Definition processUploadedFiles := processUploadedFiles_from 0.

(** [validateBatchForAPI(batch)] *)
Definition validateBatchForAPI (batch : ImageBatch) : Validation :=
  if length (batch_images batch) =? 0 then
    {| valid := false; validation_error := Some (js "Batch contains no images") |}
  else if DEFAULT_CONFIG.batchSize <? length (batch_images batch) then
    {| valid := false;
       validation_error :=
         Some (js "Batch exceeds maximum size of " ++ decimal DEFAULT_CONFIG.batchSize
                 ++ js " images") |}
  else
    let invalidImages :=
      filter (fun img => status_eqb (img_status img) Error) (batch_images batch) in
    if 0 <? length invalidImages then
      {| valid := false;
         validation_error :=
           Some (js "Batch contains " ++ decimal (length invalidImages)
                   ++ js " invalid images") |}
    else {| valid := true; validation_error := None |}.

(** [estimateProcessingTime(totalImages)], in seconds *)
Definition estimateProcessingTime (totalImages : nat) : nat :=
  let batchCount := ceil_div totalImages DEFAULT_CONFIG.batchSize in
  let averageTimePerBatch := 30 in
  batchCount * averageTimePerBatch.

Record ApiImage := { api_name : jsstring; api_data : jsstring; api_type : jsstring }.

(** [prepareBatchForAPI(batch)].  [fileToBase64] reads the file of an image;
    it answers [None] when the reader fails.  The result is the array for
    the request, or the message of the error that is thrown. *)
Fixpoint prepareImages (fileToBase64 : nat -> option jsstring)
    (images : list UploadedImage) (apiImages : list ApiImage)
    : list ApiImage + jsstring :=
  match images with
  | [] => inl apiImages
  | image :: rest =>
      match fileToBase64 (img_file image) with
      | Some base64Data =>
          prepareImages fileToBase64 rest
            (apiImages ++ [{| api_name := img_name image; api_data := base64Data;
                              api_type := img_type image |}])
      | None =>
          inr (js "Failed to prepare image " ++ img_name image ++ js " for analysis")
      end
  end.

Definition prepareBatchForAPI (fileToBase64 : nat -> option jsstring)
    (batch : ImageBatch) : list ApiImage + jsstring :=
  prepareImages fileToBase64 (batch_images batch) [].

End ImageFiles.

(* ===================================================================== *)
(** * lib/api-client.ts : validateImageData, and the shape of a request *)
(* ===================================================================== *)

Module ImageData.
Import RadiologyAPIClient.

(** [imageData.replace(/\s/g, '')] *)
Definition strip_white_space (s : jsstring) : jsstring :=
  filter (fun c => negb (RegExp.is_white_space c)) s.

(** The class [[A-Za-z0-9+/]] *)
Definition is_base64_char (c : codeunit) : bool :=
  ((65 <=? c) && (c <=? 90) || (97 <=? c) && (c <=? 122)
   || (48 <=? c) && (c <=? 57) || (c =? 43) || (c =? 47))%N.

(** [={0,2}$] *)
Definition padding_then_end (s : jsstring) : bool :=
  match s with
  | [] => true
  | [a] => (a =? 61)%N
  | [a; b] => (a =? 61)%N && (b =? 61)%N
  | _ => false
  end.

(** [/^[A-Za-z0-9+/]*={0,2}$/.test(s)].  The star is greedy and [=] is not
    in its class, so giving back a character of the star never helps: the
    test is decided after the longest run of the class. *)
Fixpoint base64Pattern_test (s : jsstring) : bool :=
  match s with
  | c :: s' => if is_base64_char c then base64Pattern_test s' else padding_then_end s
  | [] => padding_then_end []
  end.

Definition allowedTypes : list jsstring :=
  [js "image/jpeg"; js "image/png"; js "image/tiff"; js "image/bmp"].

(** [validateImageData(imageData, type)]; the estimated size
    [(imageData.length * 3) / 4] is compared with 50MB without rounding. *)
Definition validateImageData (imageData type : jsstring) : bool :=
  if negb (base64Pattern_test (strip_white_space imageData)) then false
  else if negb (ImageFiles.array_includes allowedTypes type) then false
  else if (4 * (50 * 1024 * 1024) <? N.of_nat (length imageData) * 3)%N then false
  else true.

(** The requests and delays of a call that needs [n] retries, from
    [retryCount] on. *)
Fixpoint schedule (retryCount n : nat) : list event :=
  match n with
  | 0 => [Fetch retryCount]
  | S n' =>
      Fetch retryCount :: Delay (2 ^ N.of_nat retryCount * 1000)
        :: schedule (S retryCount) n'
  end.

Definition requests (events : list event) : nat :=
  length (filter (fun ev => match ev with Fetch _ => true | Delay _ => false end) events).

Fixpoint waiting (events : list event) : N :=
  match events with
  | [] => 0
  | Delay ms :: rest => ms + waiting rest
  | Fetch _ :: rest => waiting rest
  end.

End ImageData.

(* ===================================================================== *)
(** * The books of a run *)
(* ===================================================================== *)

Module Ledger.
Import UseUpload.

(** How many of the batches in [processedBatches] have the status [s]. *)
Definition count_status (s : status) (st : run) : nat :=
  length (filter (has_status s) (deref st (processedBatches st))).

(** What the report of a finished run says about the run. *)
Definition report_agrees (st : run) (r : ConsolidatedReport) : Prop :=
  report_totalBatches r = length (store st)
  /\ report_totalImages r = images_length st
  /\ report_completedBatches r = completedCount st
  /\ report_failedBatches r = failedCount st
  /\ report_completedBatches r + report_failedBatches r = length (store st)
  /\ report_processingStartTime r = startTime st.

(** How [processedBatches] and the counters follow the batches. *)
Record ledger (st : run) : Prop := {
  led_nodup : NoDup (processedBatches st ++ batchQueue st);
  led_settled : forall b, In b (processedBatches st) -> settled st b = true;
  led_waiting : forall b, In b (batchQueue st) -> status_at st b <> Some Processing;
  led_all :
    forall b, b < length (store st) ->
              In b (batchQueue st) \/ status_at st b = Some Processing
              \/ In b (processedBatches st);
  led_range : forall b, In b (processedBatches st) -> b < length (store st);
  led_completed : completedCount st = count_status Completed st;
  led_failed : failedCount st = count_status Error st;
  led_report :
    at_ st = Finished ->
    overallProgress (processingStatus st) = 100
    /\ exists r, report st = Some r /\ report_agrees st r
}.

(** What a step does to the batches, the queue, the processed batches and
    the counters. *)
Inductive effect (st st' : run) : Prop :=
| Started b q x now :
    batchQueue st = b :: q -> batchQueue st' = q ->
    nth_error (store st) b = Some x ->
    store st' = update b (begin_processing now) (store st) ->
    processedBatches st' = processedBatches st ->
    completedCount st' = completedCount st -> failedCount st' = failedCount st ->
    at_ st' <> Finished ->
    effect st st'
| Ended b x g :
    status_at st b = Some Processing ->
    nth_error (store st) b = Some x ->
    store st' = update b g (store st) ->
    batchQueue st' = batchQueue st ->
    processedBatches st' = processedBatches st ++ [b] ->
    (batch_status (g x) = Completed /\ completedCount st' = S (completedCount st)
     /\ failedCount st' = failedCount st
     \/ batch_status (g x) = Error /\ completedCount st' = completedCount st
        /\ failedCount st' = S (failedCount st)) ->
    at_ st' = at_ st -> report st' = report st ->
    processingStatus st' = processingStatus st
    \/ overallProgress (processingStatus st')
       = progress_of (completedCount st' + failedCount st') (length (store st)) ->
    effect st st'
| Looped :
    store st' = store st -> batchQueue st' = batchQueue st ->
    processedBatches st' = processedBatches st ->
    completedCount st' = completedCount st -> failedCount st' = failedCount st ->
    at_ st' <> Finished ->
    effect st st'
| Reported endTime now :
    at_ st = LoopHead -> batchQueue st = [] -> activeBatches st = [] ->
    store st' = store st -> batchQueue st' = batchQueue st ->
    processedBatches st' = processedBatches st ->
    completedCount st' = completedCount st -> failedCount st' = failedCount st ->
    at_ st' = Finished ->
    overallProgress (processingStatus st') = 100 ->
    report st' = Some (generateConsolidatedReport now (deref st (processedBatches st))
                         (images_length st) (startTime st) endTime) ->
    images_length st' = images_length st -> startTime st' = startTime st ->
    effect st st'.

End Ledger.

(* ===================================================================== *)
(** * hooks/use-upload.ts : the state of the hook and its updates *)
(* ===================================================================== *)

Module UploadState.
Import ImageProcessor UseUpload.

Record UseUploadState := {
  images : list UploadedImage;
  batches : list ImageBatch;
  isProcessing : bool;
  processingStatus : BatchProcessingStatus;
  report : option ConsolidatedReport;
  error : option jsstring
}.

(** The argument of [useState]. *)
Definition initial : UseUploadState :=
  {| images := []; batches := []; isProcessing := false;
     processingStatus :=
       {| totalBatches := 0; completedBatches := 0; failedBatches := 0;
          currentBatch := None; overallProgress := 0 |};
     report := None; error := None |}.

(** [{ ...prev.processingStatus, totalBatches: n }] *)
Definition with_totalBatches (n : nat) (p : BatchProcessingStatus) : BatchProcessingStatus :=
  {| totalBatches := n; completedBatches := completedBatches p;
     failedBatches := failedBatches p; currentBatch := currentBatch p;
     overallProgress := overallProgress p |}.

(** The first [setState] of [uploadImages]. *)
Definition uploadImages_begins (prev : UseUploadState) : UseUploadState :=
  {| images := images prev; batches := batches prev; isProcessing := isProcessing prev;
     processingStatus := processingStatus prev; report := report prev; error := None |}.

(** The second [setState] of [uploadImages]; [newImages] is what
    [processUploadedFiles] returned, and [clock] gives the readings of
    [Date.now()] in [createBatches]. *)
Definition uploadImages_adds (clock : nat -> N) (newImages : list UploadedImage)
    (prev : UseUploadState) : option UseUploadState :=
  let totalImages := length (images prev) + length newImages in
  if 200 <? totalImages then
    Some {| images := images prev; batches := batches prev;
            isProcessing := isProcessing prev;
            processingStatus := processingStatus prev; report := report prev;
            error := Some (js "Cannot upload more than 200 images. Current: "
                             ++ decimal (length (images prev))
                             ++ js ", Attempting to add: "
                             ++ decimal (length newImages)) |}
  else
    let allImages := images prev ++ newImages in
    match createBatches clock allImages DEFAULT_CONFIG.batchSize with
    | Some newBatches =>
        Some {| images := allImages; batches := newBatches;
                isProcessing := isProcessing prev;
                processingStatus :=
                  with_totalBatches (length newBatches) (processingStatus prev);
                report := report prev; error := error prev |}
    | None => None
    end.

(** The [setState] of the [catch] block of [uploadImages]. *)
Definition uploadImages_fails (msg : jsstring) (prev : UseUploadState) : UseUploadState :=
  {| images := images prev; batches := batches prev; isProcessing := isProcessing prev;
     processingStatus := processingStatus prev; report := report prev;
     error := Some msg |}.

(** [removeImage(imageId)], as far as the state goes. *)
Definition removeImage (clock : nat -> N) (imageId : jsstring) (prev : UseUploadState)
    : option UseUploadState :=
  let remainingImages := filter (fun img => negb (JS.eqb (img_id img) imageId)) (images prev) in
  match createBatches clock remainingImages DEFAULT_CONFIG.batchSize with
  | Some newBatches =>
      Some {| images := remainingImages; batches := newBatches;
              isProcessing := isProcessing prev;
              processingStatus :=
                with_totalBatches (length newBatches) (processingStatus prev);
              report := report prev; error := None |}
  | None => None
  end.

(** [clearAllImages()], as far as the state goes. *)
Definition clearAllImages (prev : UseUploadState) : UseUploadState :=
  {| images := []; batches := []; isProcessing := false;
     processingStatus :=
       {| totalBatches := 0; completedBatches := 0; failedBatches := 0;
          currentBatch := None; overallProgress := 0 |};
     report := None; error := None |}.

(** [resetAnalysis()] *)
Definition reset_batch (batch : ImageBatch) : ImageBatch :=
  {| batch_id := batch_id batch; batch_images := batch_images batch;
     batch_status := Pending; batch_result := None; batch_error := None;
     batch_startTime := None; batch_endTime := None |}.

Definition resetAnalysis (prev : UseUploadState) : UseUploadState :=
  {| images := images prev;
     batches := map reset_batch (batches prev);
     isProcessing := isProcessing prev;
     processingStatus :=
       {| totalBatches := length (batches prev); completedBatches := 0;
          failedBatches := 0; currentBatch := None; overallProgress := 0 |};
     report := None; error := None |}.

(** The state updates of the hook outside [startAnalysis], in the order in
    which React applies them. *)
Inductive action :=
| UploadBegins
| UploadAdds (clock : nat -> N) (newImages : list UploadedImage)
| UploadFails (msg : jsstring)
| RemoveImage (clock : nat -> N) (imageId : jsstring)
| ClearAllImages
| ResetAnalysis.

Definition setState (a : action) (prev : UseUploadState) : option UseUploadState :=
  match a with
  | UploadBegins => Some (uploadImages_begins prev)
  | UploadAdds clock newImages => uploadImages_adds clock newImages prev
  | UploadFails msg => Some (uploadImages_fails msg prev)
  | RemoveImage clock imageId => removeImage clock imageId prev
  | ClearAllImages => Some (clearAllImages prev)
  | ResetAnalysis => Some (resetAnalysis prev)
  end.

Fixpoint setStates (actions : list action) (st : UseUploadState) : option UseUploadState :=
  match actions with
  | [] => Some st
  | a :: rest =>
      match setState a st with
      | Some st' => setStates rest st'
      | None => None
      end
  end.

(** The batch of the state is fresh. *)
Definition fresh (b : ImageBatch) : Prop :=
  0 < length (batch_images b) <= 20
  /\ batch_status b = Pending /\ batch_result b = None /\ batch_error b = None
  /\ batch_startTime b = None /\ batch_endTime b = None.

(** How the batches of the state follow its images. *)
Record tidy (st : UseUploadState) : Prop := {
  tidy_limit : length (images st) <= 200;
  tidy_images : concat (map batch_images (batches st)) = filter is_valid (images st);
  tidy_count : length (batches st) = ceil_div (length (filter is_valid (images st))) 20;
  tidy_total : totalBatches (processingStatus st) = length (batches st);
  tidy_fresh : Forall fresh (batches st)
}.

End UploadState.

(* ===================================================================== *)
(** * Patterns that read no more than they match *)
(* ===================================================================== *)

Module Framing.
Import RegExp.

(** The patterns made of literals, [.], [?], [|] and sequence, such as the
    heading alternations: whether they match depends on the matched text
    only, not on what follows it. *)
Fixpoint plain (r : regex) : bool :=
  match r with
  | Chars _ | Dot => true
  | Opt r1 | Capture r1 => plain r1
  | Alt r1 r2 | Seq r1 r2 => plain r1 && plain r2
  | LazyAny | Ahead _ | Eoi => false
  end.

End Framing.

(* ===================================================================== *)
(** * The progress in double precision *)
(* ===================================================================== *)

Module Doubles.
Import BinInt.

(** A non-negative integer as a Number; exact below 2^53, and the length of
    an array is below 2^32. *)
Definition Number (n : nat) : PrimFloat.float :=
  PrimFloat.of_uint63 (Uint63.of_Z (Z.of_nat n)).

(** [Math.round(x)] for a finite [x]: the integer floor(x + 1/2), taken
    exactly from the binary expansion m * 2^e of [x].  NaN and the
    infinities are not integers. *)
Definition Math_round (x : PrimFloat.float) : option Z :=
  match FloatOps.Prim2SF x with
  | SpecFloat.S754_zero _ => Some 0%Z
  | SpecFloat.S754_finite s m e =>
      let n := if s then Z.neg m else Z.pos m in
      Some (match e with
            | Z.neg p => (2 * n + Z.pow_pos 2 p) / (2 * Z.pow_pos 2 p)
            | _ => n * 2 ^ e
            end)%Z
  | SpecFloat.S754_infinity _ | SpecFloat.S754_nan => None
  end.

(** [Math.round((totalProcessed / state.batches.length) * 100)] as
    [processBatch] computes it: a division and a product of doubles, each
    rounded to the nearest double, then [Math.round]. *)
Definition progress (totalProcessed total : nat) : option Z :=
  Math_round
    (PrimFloat.mul (PrimFloat.div (Number totalProcessed) (Number total)) (Number 100)).

(** Whether the exact rounding gives the number of the code for every count
    of ended batches out of [total]. *)
Definition exact_for (total : nat) : bool :=
  forallb (fun k => match progress k total with
                    | Some z => (z =? Z.of_nat (UseUpload.progress_of k total))%Z
                    | None => false
                    end) (seq 0 (S total)).

End Doubles.

(* ===================================================================== *)
(** * More sample inputs *)
(* ===================================================================== *)

Module MoreSamples.

(** A DICOM file of 1 KB. *)
Definition dicom_file : ImageFiles.File :=
  {| ImageFiles.file_handle := 7; ImageFiles.file_name := js "head.dcm";
     ImageFiles.file_size := 1024; ImageFiles.file_type := js "application/dicom" |}.

(** Two valid images are uploaded, then the only batch is analysed. *)
Definition two_uploads : list UploadState.action :=
  [UploadState.UploadBegins;
   UploadState.UploadAdds (fun _ => 0%N) [Samples.image 1; Samples.image 2]].

Definition one_batch_run : list UseUpload.label :=
  [UseUpload.Admit 1;
   UseUpload.Settle 0 (UseUpload.Analysed
     {| RadiologyAPIClient.success := true;
        RadiologyAPIClient.result :=
          Some (RadiologyAPIClient.parseAnalysisResponse (js "Clear lungs.")
                  (js "batch-1-0") 2 7);
        RadiologyAPIClient.error_ := None |}) 9;
   UseUpload.Race; UseUpload.Probe; UseUpload.Finish 11 12].

(** A service that cannot be reached: every [fetch] rejects. *)
Definition unreachable : nat -> RadiologyAPIClient.attempt :=
  fun _ => RadiologyAPIClient.FetchRejected (js "Failed to fetch").

(** A response of 1140 characters that names the findings in prose, without
    a heading followed by a colon. *)
Definition long_text : jsstring := concat (repeat (js "No acute findings. ") 60).

(** The first steps of a run over two batches: both are started, then the
    second is analysed without success. *)
Definition both_started : list UseUpload.label := [UseUpload.Admit 1; UseUpload.Admit 2].

Definition second_analysed : list UseUpload.label :=
  [UseUpload.Settle 1
     (UseUpload.Analysed
        (RadiologyAPIClient.analysis_failed (js "API request failed: 400 Bad Request - ")))
     5].

(** The run over two batches after the second is analysed. *)
Definition one_of_two : UseUpload.run :=
  let begun := UseUpload.start Samples.two_pending 2 0 in
  match UseUpload.steps (both_started ++ second_analysed) begun with
  | Some st => st
  | None => begun
  end.

(** Four pending batches.  Three are started and the fourth waits; then the
    second is analysed, while the first and the third are still in flight. *)
Definition four_pending : list ImageBatch :=
  [Samples.pending_batch 1; Samples.pending_batch 2;
   Samples.pending_batch 3; Samples.pending_batch 4].

Definition three_started_second_ended : list UseUpload.label :=
  [UseUpload.Admit 1; UseUpload.Admit 2; UseUpload.Admit 3;
   UseUpload.Settle 1
     (UseUpload.Analysed
        {| RadiologyAPIClient.success := true;
           RadiologyAPIClient.result :=
             Some (RadiologyAPIClient.parseAnalysisResponse (js "Clear lungs.")
                     (js "batch-2") 1 4);
           RadiologyAPIClient.error_ := None |}) 5].

Definition place_freed : UseUpload.run :=
  let begun := UseUpload.start four_pending 4 0 in
  match UseUpload.steps three_started_second_ended begun with
  | Some st => st
  | None => begun
  end.

(** The state after the uploads, and the run at its end. *)
Definition after_uploads : UploadState.UseUploadState :=
  match UploadState.setStates two_uploads UploadState.initial with
  | Some st => st
  | None => UploadState.initial
  end.

Definition after_run : UseUpload.run :=
  let begun :=
    UseUpload.start (UploadState.batches after_uploads)
      (length (UploadState.images after_uploads)) 0 in
  match UseUpload.steps one_batch_run begun with
  | Some st => st
  | None => begun
  end.

End MoreSamples.

(* ##################################################################### *)
(** * Properties *)
(* ##################################################################### *)

(* ===================================================================== *)
(** ** Partitioning *)
(* ===================================================================== *)

Section Partition.
Import ImageProcessor.

Lemma status_eqb_eq a b : status_eqb a b = true <-> a = b.
Proof. destruct a, b; simpl; split; congruence. Qed.

Lemma filter_all_valid (images : list UploadedImage) :
  Forall (fun img => img_status img <> Error) images ->
  filter is_valid images = images.
Proof.
  induction 1 as [|img l Himg _ IH]; simpl; [reflexivity|].
  unfold is_valid at 1.
  destruct (status_eqb (img_status img) Error) eqn:E; simpl.
  - apply status_eqb_eq in E. contradiction.
  - now rewrite IH.
Qed.

Lemma ceil_div_0 n : 0 < n -> ceil_div 0 n = 0.
Proof. intros Hn. unfold ceil_div. apply Nat.div_small. lia. Qed.

Lemma ceil_div_step m n : 0 < n -> 0 < m -> ceil_div m n = S (ceil_div (m - n) n).
Proof.
  intros Hn Hm. unfold ceil_div.
  destruct (le_lt_dec m n) as [Hle|Hgt].
  - replace (m - n) with 0 by lia. simpl.
    rewrite (Nat.div_small (n - 1) n) by lia.
    assert (H : m + n - 1 = (m - 1) + 1 * n) by lia.
    rewrite H, Nat.div_add by lia. rewrite Nat.div_small; lia.
  - assert (H : m + n - 1 = (m - n + n - 1) + 1 * n) by lia.
    rewrite H at 1. rewrite Nat.div_add by lia. lia.
Qed.

(** What the loop delivers from index [i] on, for a positive batch size. *)
Lemma createBatches_loop_spec clock v n : 0 < n ->
  forall fuel i acc, length v - i <= fuel ->
  exists bs,
    createBatches_loop fuel clock v n i acc = Some (acc ++ bs)
    /\ concat (map batch_images bs) = skipn i v
    /\ length bs = ceil_div (length v - i) n
    /\ Forall (fun b => length (batch_images b) <= n) bs
    /\ Forall (fun b => length (batch_images b) = n) (removelast bs)
    /\ Forall (fun b => batch_status b = Pending) bs.
Proof.
  intros Hn. induction fuel as [|fuel IH]; intros i acc Hfuel.
  - exists []. simpl.
    destruct (Nat.ltb_spec i (length v)); [lia|].
    rewrite app_nil_r, skipn_all2 by lia.
    replace (length v - i) with 0 by lia. rewrite ceil_div_0 by lia.
    repeat split; auto.
  - simpl. destruct (Nat.ltb_spec i (length v)) as [Hlt|Hge].
    + destruct (IH (i + n) (acc ++ [new_batch (clock (length acc)) v n i]))
        as (bs & Hrun & Hcat & Hlen & Hle & Hfull & Hpend); [lia|].
      assert (Hb : batch_images (new_batch (clock (length acc)) v n i)
                   = firstn n (skipn i v)).
      { unfold new_batch, slice. simpl. f_equal. lia. }
      remember (new_batch (clock (length acc)) v n i) as b eqn:Eb.
      assert (Hst : batch_status b = Pending) by (subst b; reflexivity).
      clear Eb.
      exists (b :: bs). rewrite Hrun, <- app_assoc. simpl.
      split; [reflexivity|]. split.
      { rewrite Hcat, Hb.
        etransitivity; [|apply (firstn_skipn n)].
        f_equal. rewrite skipn_skipn. f_equal. lia. }
      split.
      { rewrite Hlen, (ceil_div_step (length v - i)) by lia.
        do 2 f_equal. lia. }
      split.
      { constructor; [|assumption]. rewrite Hb, length_firstn. lia. }
      split; [|constructor; assumption].
      destruct bs as [|b' bs']; [constructor|].
      constructor; [|assumption].
      rewrite Hb, length_firstn, length_skipn.
      simpl in Hlen.
      destruct (le_lt_dec (length v - (i + n)) 0) as [H0|H0]; [|lia].
      replace (length v - (i + n)) with 0 in Hlen by lia.
      rewrite ceil_div_0 in Hlen by lia. discriminate.
    + exists []. rewrite app_nil_r, skipn_all2 by lia.
      replace (length v - i) with 0 by lia. rewrite ceil_div_0 by lia.
      repeat split; auto.
Qed.

(** C1. For an ordered list of M valid images and the configured capacity
    N = 20, [createBatches] returns ceil(M/N) batches; every batch holds at
    most N images, every batch but the last holds exactly N, the batches'
    image lists concatenated in order give back the input, and the empty
    input gives no batch. *)
Theorem createBatches_partition (clock : nat -> N) (images : list UploadedImage) :
  Forall (fun img => img_status img <> Error) images ->
  exists batches,
    createBatches clock images DEFAULT_CONFIG.batchSize = Some batches
    /\ length batches = ceil_div (length images) 20
    /\ Forall (fun b => length (batch_images b) <= 20) batches
    /\ Forall (fun b => length (batch_images b) = 20) (removelast batches)
    /\ concat (map batch_images batches) = images
    /\ (images = [] -> batches = []).
Proof.
  intros Hvalid. unfold createBatches.
  rewrite (filter_all_valid _ Hvalid).
  destruct (createBatches_loop_spec clock images 20 ltac:(lia) (length images) 0 [])
    as (bs & Hrun & Hcat & Hlen & Hle & Hfull & _); [lia|].
  exists bs. unfold DEFAULT_CONFIG.batchSize. rewrite Hrun. simpl.
  rewrite Nat.sub_0_r in Hlen.
  repeat split; auto.
  intros ->. simpl in Hlen. destruct bs; [reflexivity|discriminate].
Qed.

(** The partition of 45 valid images. *)
Lemma createBatches_partition_witness :
  exists batches,
    createBatches (fun _ => 0%N) (map Samples.image (seq 0 45)) DEFAULT_CONFIG.batchSize
    = Some batches
    /\ length batches = ceil_div (length (map Samples.image (seq 0 45))) 20
    /\ Forall (fun b => length (batch_images b) <= 20) batches
    /\ Forall (fun b => length (batch_images b) = 20) (removelast batches)
    /\ concat (map batch_images batches) = map Samples.image (seq 0 45)
    /\ (map Samples.image (seq 0 45) = [] -> batches = []).
Proof.
  apply (createBatches_partition (fun _ => 0%N) (map Samples.image (seq 0 45))).
  apply Forall_forall. intros img Hin. apply in_map_iff in Hin as (k & <- & _).
  discriminate.
Defined.

(** 45 images give three batches of 20, 20 and 5 images; images that failed
    validation are left out. *)
Example createBatches_45 :
  option_map (map (fun b => length (batch_images b)))
    (createBatches (fun _ => 0%N) (map Samples.image (seq 0 45)) DEFAULT_CONFIG.batchSize)
  = Some [20; 20; 5].
Proof. vm_compute. reflexivity. Qed.

End Partition.

(* ===================================================================== *)
(** ** Retry and failure classification *)
(* ===================================================================== *)

Section Retry.
Import RadiologyAPIClient.

(** The recursion of [makeAPIRequest] always comes to an end: the model never
    runs out of fuel. *)
Lemma makeAPIRequest_rec_total server :
  forall fuel retryCount, MAX_RETRIES - retryCount < fuel ->
  exists r, makeAPIRequest_rec fuel server retryCount = Some r.
Proof.
  induction fuel as [|fuel IH]; intros rc Hfuel; [lia|].
  simpl. destruct (perform (server rc)) as [b|e]; [eauto|].
  destruct (Nat.ltb_spec rc MAX_RETRIES) as [Hlt|Hge]; simpl; [|eauto].
  destruct (isRetryableError e); [|eauto].
  destruct (IH (rc + 1)) as ([events r] & ->); [lia|]. eauto.
Qed.

Lemma makeAPIRequest_total server retryCount :
  exists r, makeAPIRequest server retryCount = Some r.
Proof. apply makeAPIRequest_rec_total. lia. Qed.

Lemma analyzeImageBatch_total server images requestBatchId elapsed :
  exists r, analyzeImageBatch server images requestBatchId elapsed = Some r.
Proof.
  unfold analyzeImageBatch.
  destruct (images =? 0); [eauto|]. destruct (20 <? images); [eauto|].
  destruct (makeAPIRequest_total server 0) as ([events [[typeError|[text|]]|e]] & ->);
    eauto.
  destruct (truthy text); eauto.
Qed.

Lemma startsWith_app t b : startsWith (t ++ b) t = true.
Proof.
  induction t as [|c t IH]; simpl; [now destruct b|]. now rewrite N.eqb_refl.
Qed.

Lemma includes_app_l a s t : includes s t = true -> includes (a ++ s) t = true.
Proof.
  intros H. induction a as [|c a IH]; simpl; [assumption|].
  rewrite IH. apply orb_true_r.
Qed.

Lemma includes_middle a t b : includes (a ++ t ++ b) t = true.
Proof.
  apply includes_app_l. destruct t; simpl.
  - destruct b; reflexivity.
  - rewrite N.eqb_refl, startsWith_app. reflexivity.
Qed.

(** A timeout is never retried, whatever message the abort carries. *)
Lemma timeout_not_retryable msg :
  forall e, perform (Aborted msg) = Threw e -> isRetryableError e = false.
Proof. intros e [= <-]. reflexivity. Qed.

(** X17. A response with status 429, 502 or 503 makes an error that
    [isRetryableError] accepts, whatever the status text and the body of the
    response are. *)
Lemma status_retryable status statusText errorText :
  status = 429 \/ status = 502 \/ status = 503 ->
  forall e, perform (NotOk status statusText errorText) = Threw e ->
  isRetryableError e = true.
Proof.
  intros Hst e [= <-]. unfold isRetryableError, message_includes.
  cbn [name message].
  change (JS.eqb (js "Error") (js "AbortError")) with false. cbv iota.
  assert (Hin : includes (api_failure status statusText errorText) (decimal status) = true)
    by apply includes_middle.
  destruct Hst as [-> | [-> | ->]].
  - change (decimal 429) with (js "429") in Hin. now rewrite Hin.
  - change (decimal 502) with (js "502") in Hin. rewrite Hin.
    now destruct (includes _ (js "429")).
  - change (decimal 503) with (js "503") in Hin. rewrite Hin.
    destruct (includes _ (js "429")); [reflexivity|].
    now destruct (includes _ (js "502")).
Qed.

(** The answer 503 of an overloaded service. *)
Lemma status_retryable_witness :
  isRetryableError
    {| name := js "Error";
       message := Some (api_failure 503 (js "Service Unavailable") (js "overloaded")) |}
  = true.
Proof.
  apply (status_retryable 503 (js "Service Unavailable") (js "overloaded")).
  - right. right. reflexivity.
  - reflexivity.
Defined.

(** One more request after a retryable failure below the retry limit. *)
Lemma makeAPIRequest_rec_retry fuel server retryCount e :
  perform (server retryCount) = Threw e ->
  isRetryableError e = true ->
  retryCount < MAX_RETRIES ->
  makeAPIRequest_rec (S fuel) server retryCount =
    match makeAPIRequest_rec fuel server (retryCount + 1) with
    | Some (events, r) =>
        Some (Fetch retryCount :: Delay (2 ^ N.of_nat retryCount * 1000) :: events, r)
    | None => None
    end.
Proof.
  intros Hp Hr Hlt. simpl. rewrite Hp, Hr.
  destruct (Nat.ltb_spec retryCount MAX_RETRIES); [reflexivity|lia].
Qed.

(** The retry budget for the errors that [isRetryableError] accepts: when
    every attempt fails with one of them, the client sends exactly
    MAX_RETRIES + 1 = 4 requests, waits 1000, 2000 and 4000 ms between them
    (2^retryCount seconds before each retry), and then gives up with the
    error of the last attempt, which [analyzeImageBatch] reports as a failed
    analysis. *)
Theorem retry_budget_exhausted (server : nat -> attempt) :
  (forall k, exists e, perform (server k) = Threw e /\ isRetryableError e = true) ->
  exists e,
    perform (server 3) = Threw e
    /\ makeAPIRequest server 0 =
         Some ([Fetch 0; Delay 1000; Fetch 1; Delay 2000; Fetch 2; Delay 4000; Fetch 3],
               Threw e)
    /\ forall images requestBatchId elapsed, 0 < images <= 20 ->
         analyzeImageBatch server images requestBatchId elapsed =
           Some ([Fetch 0; Delay 1000; Fetch 1; Delay 2000; Fetch 2; Delay 4000; Fetch 3],
                 analysis_failed (message_of e)).
Proof.
  intros Hall.
  destruct (Hall 0) as (e0 & Hp0 & Hr0), (Hall 1) as (e1 & Hp1 & Hr1),
           (Hall 2) as (e2 & Hp2 & Hr2), (Hall 3) as (e3 & Hp3 & Hr3).
  assert (Hrun : makeAPIRequest server 0 =
    Some ([Fetch 0; Delay 1000; Fetch 1; Delay 2000; Fetch 2; Delay 4000; Fetch 3],
          Threw e3)).
  { unfold makeAPIRequest. change (S (MAX_RETRIES - 0)) with 4.
    rewrite (makeAPIRequest_rec_retry _ _ _ _ Hp0 Hr0) by (unfold MAX_RETRIES; lia).
    rewrite (makeAPIRequest_rec_retry _ _ _ _ Hp1 Hr1) by (unfold MAX_RETRIES; lia).
    rewrite (makeAPIRequest_rec_retry _ _ _ _ Hp2 Hr2) by (unfold MAX_RETRIES; lia).
    simpl. rewrite Hp3. reflexivity. }
  exists e3. split; [assumption|]. split; [assumption|].
  intros images id elapsed [Hpos Hle]. unfold analyzeImageBatch.
  destruct (Nat.eqb_spec images 0); [lia|].
  destruct (Nat.ltb_spec 20 images); [lia|].
  rewrite Hrun. reflexivity.
Qed.

(** A service that always answers 503 exhausts the retries. *)
Lemma retry_budget_exhausted_witness :
  exists e,
    perform (Samples.always_unavailable 3) = Threw e
    /\ makeAPIRequest Samples.always_unavailable 0 =
         Some ([Fetch 0; Delay 1000; Fetch 1; Delay 2000; Fetch 2; Delay 4000; Fetch 3],
               Threw e)
    /\ forall images requestBatchId elapsed, 0 < images <= 20 ->
         analyzeImageBatch Samples.always_unavailable images requestBatchId elapsed =
           Some ([Fetch 0; Delay 1000; Fetch 1; Delay 2000; Fetch 2; Delay 4000; Fetch 3],
                 analysis_failed (message_of e)).
Proof.
  apply (retry_budget_exhausted Samples.always_unavailable).
  intros k. eexists. split; [reflexivity|]. vm_compute. reflexivity.
Defined.

(** C2, on the code.  The claim counts a transport-level failure among the
    retryable errors, and so do the comments of the code ("Retry logic for
    network errors", "Network errors").  But a rejection of [fetch] is retried
    only when its message contains the lowercase word "network" or one of the
    three numbers.  When every attempt fails at the transport level with a
    message that contains none of them, such as "Failed to fetch", the client
    sends one request, waits for nothing and gives up with that error, which
    [analyzeImageBatch] reports as a failed analysis: one attempt, where the
    claim says four with delays of 1, 2 and 4 seconds. *)
Theorem transport_failure_one_attempt (server : nat -> attempt) (msg : jsstring) :
  (forall k, server k = FetchRejected msg) ->
  includes msg (js "429") = false -> includes msg (js "502") = false ->
  includes msg (js "503") = false -> includes msg (js "network") = false ->
  makeAPIRequest server 0
  = Some ([Fetch 0], Threw {| name := js "TypeError"; message := Some msg |})
  /\ forall images requestBatchId elapsed, 0 < images <= 20 ->
       analyzeImageBatch server images requestBatchId elapsed
       = Some ([Fetch 0],
               {| success := false; result := None;
                  error_ := Some {| code := js "ANALYSIS_FAILED";
                                    err_message := msg |} |}).
Proof.
  intros Hall H429 H502 H503 Hnet.
  assert (Hr : isRetryableError {| name := js "TypeError"; message := Some msg |} = false).
  { unfold isRetryableError, message_includes. cbn [name message].
    change (JS.eqb (js "TypeError") (js "AbortError")) with false. cbv iota.
    now rewrite H429, H502, H503, Hnet. }
  assert (Hrun : makeAPIRequest server 0
                 = Some ([Fetch 0],
                         Threw {| name := js "TypeError"; message := Some msg |})).
  { unfold makeAPIRequest. change (S (MAX_RETRIES - 0)) with 4.
    cbn [makeAPIRequest_rec]. rewrite (Hall 0). cbn [perform].
    rewrite Hr, andb_false_r. reflexivity. }
  split; [exact Hrun|].
  intros images id elapsed [Hpos Hle]. unfold analyzeImageBatch.
  destruct (Nat.eqb_spec images 0); [lia|].
  destruct (Nat.ltb_spec 20 images); [lia|].
  rewrite Hrun. reflexivity.
Qed.

(** The service cannot be reached: every [fetch] rejects with the message of
    Chromium browsers. *)
Lemma transport_failure_one_attempt_witness :
  makeAPIRequest MoreSamples.unreachable 0
  = Some ([Fetch 0],
          Threw {| name := js "TypeError"; message := Some (js "Failed to fetch") |})
  /\ forall images requestBatchId elapsed, 0 < images <= 20 ->
       analyzeImageBatch MoreSamples.unreachable images requestBatchId elapsed
       = Some ([Fetch 0],
               {| success := false; result := None;
                  error_ := Some {| code := js "ANALYSIS_FAILED";
                                    err_message := js "Failed to fetch" |} |}).
Proof.
  apply (transport_failure_one_attempt MoreSamples.unreachable (js "Failed to fetch")).
  - intros k. reflexivity.
  - reflexivity.
  - reflexivity.
  - reflexivity.
  - reflexivity.
Defined.

(** C3, on the code.  [isRetryableError] decides by looking for the texts
    "429", "502", "503" and "network" in the error message.  A request that
    fails at the transport level with the message of the browser ("Failed to
    fetch") is therefore not retried: the submission ends after one request.
    And a response with another status is retried when its body happens to
    contain one of the texts: status 400 with "4290" in the body costs four
    requests. *)
Theorem classification_by_message_text :
  isRetryableError {| name := js "TypeError"; message := Some (js "Failed to fetch") |} = false
  /\ makeAPIRequest (fun _ => FetchRejected (js "Failed to fetch")) 0
     = Some ([Fetch 0],
             Threw {| name := js "TypeError"; message := Some (js "Failed to fetch") |})
  /\ exists e,
       makeAPIRequest
         (fun _ => NotOk 400 (js "Bad Request") (js "max_tokens 4290 is too large")) 0
       = Some ([Fetch 0; Delay 1000; Fetch 1; Delay 2000; Fetch 2; Delay 4000; Fetch 3],
               Threw e).
Proof.
  split; [vm_compute; reflexivity|].
  split; [vm_compute; reflexivity|].
  eexists. vm_compute. reflexivity.
Qed.

End Retry.

(* ===================================================================== *)
(** ** The matcher *)
(* ===================================================================== *)

Section Matcher.
Import RegExp.

Lemma strip_ci_suffix w : forall s s', strip_ci w s = Some s' -> exists pre, s = pre ++ s' /\ length pre = length w.
Proof.
  induction w as [|p w IH]; intros s s' H; simpl in H.
  - injection H as <-. now exists [].
  - destruct s as [|c s]; [discriminate|].
    destruct (ci_eqb p c); [|discriminate].
    destruct (IH _ _ H) as (pre & -> & Hlen). exists (c :: pre). simpl. auto.
Qed.

Lemma Matches_suffix r s s' : Matches r s s' -> exists pre, s = pre ++ s'.
Proof.
  induction 1;
    try match goal with H : strip_ci _ _ = Some _ |- _ =>
          destruct (strip_ci_suffix _ _ _ H) as (pre & -> & _) end;
    eauto; try (now exists []).
  - now exists [c].
  - destruct IHMatches1 as (p1 & ->), IHMatches2 as (p2 & ->).
    exists (p1 ++ p2). now rewrite app_assoc.
Qed.

Lemma lazy_any_sound s : forall k x,
  lazy_any s k = Some x -> exists pre s', s = pre ++ s' /\ k s' = Some x.
Proof.
  induction s as [|c s IH]; intros k x H; simpl in H.
  - destruct (k []) eqn:E; [|discriminate]. injection H as <-. now exists [], [].
  - destruct (k (c :: s)) eqn:E.
    + injection H as <-. now exists [], (c :: s).
    + destruct (IH _ _ H) as (pre & s' & -> & Hk). now exists (c :: pre), s'.
Qed.

Lemma lazy_any_none s : forall k,
  lazy_any s k = None -> forall pre s', s = pre ++ s' -> k s' = None.
Proof.
  induction s as [|c s IH]; intros k H pre s' E; simpl in H.
  - destruct (k []) eqn:Ek; [discriminate|].
    symmetry in E. apply app_eq_nil in E as [_ ->]. assumption.
  - destruct (k (c :: s)) eqn:Ek; [discriminate|].
    destruct pre as [|c' pre]; simpl in E.
    + now subst s'.
    + injection E as _ E. eapply IH; eauto.
Qed.

(** Every successful run is a match the declarative reading allows. *)
Lemma run_sound r : forall s k x,
  run r s k = Some x -> exists s', Matches r s s' /\ k s' = Some x.
Proof.
  induction r as [w | | r IH | r1 IH1 r2 IH2 | r1 IH1 r2 IH2 | | r IH | | r IH];
    intros s k x H; simpl in H.
  - destruct (strip_ci w s) as [s'|] eqn:E; [|discriminate].
    exists s'. split; [now constructor|assumption].
  - destruct s as [|c s]; [discriminate|].
    destruct (is_line_terminator c) eqn:E; [discriminate|].
    exists s. split; [now constructor|assumption].
  - destruct (run r s k) eqn:E.
    + injection H as <-. destruct (IH _ _ _ E) as (s' & Hm & Hk).
      exists s'. split; [now apply M_Opt_some|assumption].
    + exists s. split; [apply M_Opt_none|assumption].
  - destruct (run r1 s k) eqn:E.
    + injection H as <-. destruct (IH1 _ _ _ E) as (s' & Hm & Hk).
      exists s'. split; [now apply M_Alt_l|assumption].
    + destruct (IH2 _ _ _ H) as (s' & Hm & Hk).
      exists s'. split; [now apply M_Alt_r|assumption].
  - destruct (IH1 _ _ _ H) as (s1 & Hm1 & Hk1).
    destruct (IH2 _ _ _ Hk1) as (s2 & Hm2 & Hk2).
    exists s2. split; [now apply M_Seq with s1|assumption].
  - destruct (lazy_any_sound _ _ _ H) as (pre & s' & -> & Hk).
    exists s'. split; [apply M_LazyAny|assumption].
  - destruct (run r s (fun s' => Some s')) as [y|] eqn:E; [|discriminate].
    destruct (IH _ _ _ E) as (s' & Hm & _).
    exists s. split; [now apply M_Ahead with s'|assumption].
  - destruct s; [|discriminate]. exists []. split; [constructor|assumption].
  - destruct (IH _ _ _ H) as (s' & Hm & Hk).
    exists s'. split; [now apply M_Capture|assumption].
Qed.

(** A failed run leaves no match that the continuation would accept. *)
Lemma run_none r : forall s k,
  run r s k = None -> forall s', Matches r s s' -> k s' = None.
Proof.
  induction r as [w | | r IH | r1 IH1 r2 IH2 | r1 IH1 r2 IH2 | | r IH | | r IH];
    intros s k H s' Hm; simpl in H; inversion Hm; subst.
  - match goal with E : strip_ci _ _ = Some _ |- _ => rewrite E in H end. assumption.
  - match goal with E : is_line_terminator _ = false |- _ => rewrite E in H end.
    assumption.
  - destruct (run r s k) eqn:E; [discriminate|]. eapply IH; eauto.
  - destruct (run r s' k) eqn:E; [discriminate|]. assumption.
  - destruct (run r1 s k) eqn:E; [discriminate|]. eapply IH1; eauto.
  - destruct (run r1 s k) eqn:E; [discriminate|]. eapply IH2; eauto.
  - eapply IH2; [|eassumption]. eapply (IH1 _ _ H). eassumption.
  - eapply lazy_any_none; eauto.
  - destruct (run r s' (fun s0 => Some s0)) eqn:E; [assumption|].
    match goal with Hr : Matches r s' _ |- _ => pose proof (IH _ _ E _ Hr) end.
    discriminate.
  - assumption.
  - eapply IH; eauto.
Qed.

(** [match_here] succeeds exactly when the pattern matches at the head. *)
Lemma match_here_Some r s rest : match_here r s = Some rest -> Matches r s rest.
Proof.
  intros H. destruct (run_sound _ _ _ _ H) as (s' & Hm & [= <-]). assumption.
Qed.

Lemma match_here_None r s : match_here r s = None <-> forall s', ~ Matches r s s'.
Proof.
  split.
  - intros H s' Hm. pose proof (run_none _ _ _ H _ Hm) as Hk. discriminate.
  - intros H. destruct (match_here r s) as [rest|] eqn:E; [|reflexivity].
    exfalso. eapply H, match_here_Some, E.
Qed.

Lemma match_here_split r s rest :
  match_here r s = Some rest ->
  exists m, firstn (length s - length rest) s = m /\ s = m ++ rest.
Proof.
  intros E. apply match_here_Some in E.
  destruct (Matches_suffix _ _ _ E) as (pre & ->). exists pre. split; [|reflexivity].
  rewrite length_app, Nat.add_sub, firstn_app, Nat.sub_diag, firstn_all.
  simpl. now rewrite app_nil_r.
Qed.

Lemma exec_unfold r s :
  exec r s = match match_here r s with
             | Some rest => Some (firstn (length s - length rest) s, rest)
             | None => match s with
                       | [] => None
                       | _ :: s' => exec r s'
                       end
             end.
Proof. destruct s; reflexivity. Qed.

(** [exec] reports a match of the pattern at some position of its input. *)
Lemma exec_Some r : forall s m rest,
  exec r s = Some (m, rest) ->
  exists pre, s = pre ++ m ++ rest /\ Matches r (m ++ rest) rest.
Proof.
  induction s as [|c s IH]; intros m rest H; rewrite exec_unfold in H;
    destruct (match_here r _) as [rest'|] eqn:E; try discriminate.
  - destruct (match_here_split _ _ _ E) as (m' & Hm' & Hs).
    rewrite Hm' in H. injection H as <- <-.
    exists []. simpl. split; [assumption|].
    rewrite <- Hs. now apply match_here_Some.
  - destruct (match_here_split _ _ _ E) as (m' & Hm' & Hs).
    rewrite Hm' in H. injection H as <- <-.
    exists []. simpl. split; [assumption|].
    rewrite <- Hs. now apply match_here_Some.
  - destruct (IH _ _ H) as (pre & -> & Hm). exists (c :: pre). auto.
Qed.

Lemma exec_None r : forall s,
  exec r s = None <-> forall pre s1, s = pre ++ s1 -> match_here r s1 = None.
Proof.
  induction s as [|c s IH]; rewrite exec_unfold;
    destruct (match_here r _) as [rest|] eqn:E.
  - split; [discriminate|]. intros H. specialize (H [] [] eq_refl). congruence.
  - split; [|reflexivity]. intros _ pre s1 Hs.
    symmetry in Hs. apply app_eq_nil in Hs as [_ ->]. assumption.
  - split; [discriminate|]. intros H. specialize (H [] (c :: s) eq_refl). congruence.
  - destruct IH as [IH1 IH2]. split.
    + intros H pre s1 Hs. destruct pre as [|c' pre]; simpl in Hs.
      * now subst s1.
      * injection Hs as _ Hs. exact (IH1 H pre s1 Hs).
    + intros H. apply IH2. intros pre s1 ->. apply (H (c :: pre)). reflexivity.
Qed.

Lemma exec_length r s m rest :
  exec r s = Some (m, rest) -> length m + length rest <= length s.
Proof.
  intros H. destruct (exec_Some _ _ _ _ H) as (pre & -> & _).
  rewrite !length_app. lia.
Qed.

(** The fuel that [String_match] gives the loop is enough: more fuel finds
    the same matches. *)
Lemma match_all_fuel r : forall f1 f2 s,
  length s < f1 -> length s < f2 -> match_all f1 r s = match_all f2 r s.
Proof.
  induction f1 as [|f1 IH]; intros f2 s H1 H2; [lia|].
  destruct f2 as [|f2]; [lia|]. simpl.
  destruct (exec r s) as [[m rest]|] eqn:E; [|reflexivity].
  apply exec_length in E. f_equal.
  destruct m as [|c m].
  - destruct rest as [|c rest]; [reflexivity|]. simpl in E. apply IH; lia.
  - simpl in E. apply IH; lia.
Qed.

End Matcher.

(* ===================================================================== *)
(** ** Response parsing *)
(* ===================================================================== *)

Section Parser.
Import RegExp RadiologyAPIClient.

Lemma ci_colon c : ci_eqb colon c = true -> c = colon.
Proof.
  unfold ci_eqb. change (upper colon) with 58%N. unfold upper, colon.
  destruct (N.leb_spec 97 c) as [Ha|Ha], (N.leb_spec c 122) as [Hb|Hb]; cbn [andb];
    intros Hc; apply N.eqb_eq in Hc; lia.
Qed.

Lemma Matches_colon s s' : Matches (Chars [colon]) s s' <-> s = colon :: s'.
Proof.
  split.
  - inversion 1 as [w s0 s0' Hs| | | | | | | | | |]; subst. simpl in Hs.
    destruct s as [|c s]; [discriminate|].
    destruct (ci_eqb colon c) eqn:E; [|discriminate].
    injection Hs as <-. now rewrite (ci_colon _ E).
  - intros ->. constructor. reflexivity.
Qed.

(** What [heading_colon_occurs] decides: somewhere in the text a heading of
    the field matches and the next character is a colon. *)
Lemma heading_colon_occurs_true f text :
  heading_colon_occurs f text = true <->
  exists pre s1 s2, text = pre ++ s1 /\ Matches (heading f) s1 (colon :: s2).
Proof.
  unfold heading_colon_occurs. split.
  - destruct (exec _ text) as [[m rest]|] eqn:E; [intros _|discriminate].
    destruct (exec_Some _ _ _ _ E) as (pre & -> & Hm).
    inversion Hm as [| | | | | |r1 r2 s0 s1 s2 H1 H2| | | |]; subst.
    apply Matches_colon in H2. subst s1. eauto.
  - intros (pre & s1 & s2 & -> & Hm).
    destruct (exec _ (pre ++ s1)) eqn:E; [reflexivity|].
    pose proof (proj1 (exec_None _ _) E pre s1 eq_refl) as Hn.
    apply match_here_None with (s' := s2) in Hn. exfalso. apply Hn.
    apply M_Seq with (colon :: s2); [assumption|]. now apply Matches_colon.
Qed.

Lemma heading_colon_occurs_false f text :
  heading_colon_occurs f text = false <->
  forall pre s1 s2, text = pre ++ s1 -> Matches (heading f) s1 s2 ->
                    hd_error s2 <> Some colon.
Proof.
  split.
  - intros H pre s1 s2 Hs Hm Hhd.
    destruct s2 as [|c s2]; [discriminate|]. injection Hhd as ->.
    assert (Ht : heading_colon_occurs f text = true)
      by (apply heading_colon_occurs_true; eauto).
    congruence.
  - intros H. destruct (heading_colon_occurs f text) eqn:E; [|reflexivity].
    apply heading_colon_occurs_true in E as (pre & s1 & s2 & Hs & Hm).
    exfalso. now apply (H pre s1 (colon :: s2) Hs Hm).
Qed.

(** A literal is consumed exactly by a text of its length that equals it up
    to the case of ASCII letters. *)
Lemma strip_ci_spec w : forall s s',
  strip_ci w s = Some s' <-> exists u, s = u ++ s' /\ map upper u = map upper w.
Proof.
  induction w as [|p w IH]; intros s s'; simpl.
  - split.
    + intros [= <-]. now exists [].
    + intros (u & -> & Hu). destruct u; [reflexivity|discriminate].
  - destruct s as [|c s].
    + split; [discriminate|]. intros ([|c u] & Hs & Hu); discriminate.
    + unfold ci_eqb. destruct (N.eqb_spec (upper p) (upper c)) as [Hpc|Hpc].
      * rewrite IH. split.
        -- intros (u & -> & Hu). exists (c :: u). simpl. now rewrite Hu, Hpc.
        -- intros ([|c' u] & Hs & Hu); [discriminate|].
           injection Hs as <- ->. injection Hu as _ Hu. eauto.
      * split; [discriminate|].
        intros ([|c' u] & Hs & Hu); [discriminate|].
        injection Hs as <- ->. injection Hu as Hu _. congruence.
Qed.

(** The headings of the findings section are the three keywords of the
    pattern, in any case. *)
Lemma findings_heading_keywords s s' :
  Matches (heading Findings) s s' <->
  exists kw, In kw [js "DETAILED FINDINGS"; js "FINDINGS"; js "OBSERVATIONS"]
             /\ strip_ci kw s = Some s'.
Proof.
  split.
  - intros H. cbn [heading] in H.
    inversion H as [| | | |r1 r2 s0 s0' H1|r1 r2 s0 s0' H1| | | | |]; subst.
    + inversion H1; subst. eexists. split; [left; reflexivity|assumption].
    + inversion H1 as [| | | |r1 r2 s0 s0' H2|r1 r2 s0 s0' H2| | | | |]; subst;
        inversion H2; subst; eexists; (split; [|eassumption]); simpl; auto.
  - intros (kw & [<-|[<-|[<-|[]]]] & Hk); cbn [heading].
    + apply M_Alt_l. now constructor.
    + apply M_Alt_r, M_Alt_l. now constructor.
    + apply M_Alt_r, M_Alt_r. now constructor.
Qed.

(** Headings are found in any case; ["FOLLOW.?UP"] accepts one character,
    or none, between the two words. *)
Example headings_ignore_case :
  String_match (js "Findings: clear lungs") (patterns Findings)
  = Some [js "Findings: clear lungs"]
  /\ String_match (js "Follow up: in a year") (patterns Recommendations)
     = Some [js "Follow up: in a year"]
  /\ String_match (js "followup: none") (patterns Recommendations)
     = Some [js "followup: none"]
  /\ String_match (js "Findings are clear") (patterns Findings) = None.
Proof. vm_compute. repeat split. Qed.

(** A pattern of [extractSections] matches only where its heading does,
    with a colon behind it. *)
Lemma pattern_match_heading f s rest :
  Matches (patterns f) s rest -> exists s2, Matches (heading f) s (colon :: s2).
Proof.
  unfold patterns. intros Hm.
  inversion Hm as [| | | | | |r1 r2 s0 s1 s2 H1 H2| | | |]; subst.
  inversion H2 as [| | | | | |r1 r2 s0 s3 s4 H3 H4| | | |]; subst.
  apply Matches_colon in H3. subst s1. eauto.
Qed.

Lemma no_heading_no_match f text :
  heading_colon_occurs f text = false -> exec (patterns f) text = None.
Proof.
  intros H. destruct (exec (patterns f) text) as [[m rest]|] eqn:E; [|reflexivity].
  destruct (exec_Some _ _ _ _ E) as (pre & -> & Hm).
  destruct (pattern_match_heading _ _ _ Hm) as (s2 & Hh).
  assert (Ht : heading_colon_occurs f (pre ++ m ++ rest) = true)
    by (apply heading_colon_occurs_true; eauto).
  congruence.
Qed.

Lemma no_match_no_section f text :
  exec (patterns f) text = None -> extractSections text f = None.
Proof.
  intros H. unfold extractSections, extractSection, String_match. simpl.
  now rewrite H.
Qed.

Lemma or_else_truthy o d : truthy d = true -> or_else o d <> [].
Proof.
  intros Hd. unfold or_else. destruct o as [v|].
  - destruct v; simpl; [|discriminate]. now destruct d.
  - now destruct d.
Qed.

(** The last pattern ends with [$]: its first match runs to the end of the
    text, so the array of matches never has a second entry. *)
Lemma technicalNotes_never_extracted text : extractSections text TechnicalNotes = None.
Proof.
  unfold extractSections, extractSection, String_match. simpl match_all.
  destruct (exec (patterns TechnicalNotes) text) as [[m rest]|] eqn:E; [|reflexivity].
  destruct (exec_Some _ _ _ _ E) as (pre & _ & Hm).
  assert (Hrest : rest = []).
  { unfold patterns in Hm.
    inversion Hm as [| | | | | |r1 r2 s0 s1 s2 H1 H2| | | |]; subst.
    inversion H2 as [| | | | | |r1 r2 s0 s3 s4 H3 H4| | | |]; subst.
    inversion H4 as [| | | | | |r1 r2 s0 s5 s6 H5 H6| | | |]; subst.
    simpl in H6. now inversion H6. }
  subst rest. destruct m as [|c m]; [reflexivity|].
  destruct (length text); reflexivity.
Qed.

(** C4, on the code.  The patterns carry the [g] flag, so [text.match]
    returns the array of all matched texts and [match[1]] is the second one,
    not the captured body of the first.  A report with each heading once
    therefore sets no section at all, and the result is made of fallbacks;
    when a heading occurs a second time, the field is that second match,
    its heading included. *)
Theorem second_match_not_first_body :
  (forall f, extractSections Samples.report_text f = None)
  /\ findings (parseAnalysisResponse Samples.report_text (js "batch-1") 3 0)
     = Samples.report_text ++ js "..."
  /\ extractSections Samples.repeated_text Findings = Some (js "FINDINGS: second").
Proof.
  split; [intros []; vm_compute; reflexivity|].
  split; vm_compute; reflexivity.
Qed.

(** C5. [parseAnalysisResponse] is defined on every string, the empty one
    included, and its findings are never empty.  When no findings heading is
    recognised the findings are the first 1000 characters of the text
    followed by "..."; without a recommendations heading the placeholder is
    used, without a confidence heading the default label, and without a
    technical-notes heading that field stays undefined. *)
Theorem parseAnalysisResponse_fallbacks (text batchId : jsstring) (imageCount : nat)
    (processingTime : N) :
  findings (parseAnalysisResponse text batchId imageCount processingTime) <> []
  /\ (heading_colon_occurs Findings text = false ->
      findings (parseAnalysisResponse text batchId imageCount processingTime)
      = firstn 1000 text ++ js "..."
      /\ length (findings (parseAnalysisResponse text batchId imageCount processingTime))
         = Nat.min 1000 (length text) + 3)
  /\ (heading_colon_occurs Recommendations text = false ->
      recommendations (parseAnalysisResponse text batchId imageCount processingTime)
      = js "Please refer to detailed findings above.")
  /\ (heading_colon_occurs Confidence text = false ->
      confidence (parseAnalysisResponse text batchId imageCount processingTime)
      = js "Standard diagnostic confidence")
  /\ (heading_colon_occurs TechnicalNotes text = false ->
      technicalNotes (parseAnalysisResponse text batchId imageCount processingTime) = None).
Proof.
  unfold parseAnalysisResponse. cbn [findings recommendations confidence technicalNotes].
  split.
  { apply or_else_truthy. unfold findings_fallback.
    now destruct (substring0 1000 text). }
  split.
  { intros H. rewrite (no_match_no_section _ _ (no_heading_no_match _ _ H)).
    cbn [or_else]. unfold findings_fallback, substring0.
    split; [reflexivity|]. now rewrite length_app, length_firstn. }
  repeat split; intros H;
    rewrite (no_match_no_section _ _ (no_heading_no_match _ _ H)); reflexivity.
Qed.

(** A text of 1140 characters that names the findings without a colon: the
    findings of the result are its first 1000 characters, 52 sentences and
    12 characters of the next, followed by "...". *)
Lemma parseAnalysisResponse_fallbacks_witness :
  length MoreSamples.long_text = 1140
  /\ findings (parseAnalysisResponse MoreSamples.long_text (js "batch-1") 1 0)
     = concat (repeat (js "No acute findings. ") 52) ++ js "No acute fin" ++ js "..."
  /\ length (findings (parseAnalysisResponse MoreSamples.long_text (js "batch-1") 1 0))
     = 1003
  /\ recommendations (parseAnalysisResponse MoreSamples.long_text (js "batch-1") 1 0)
     = js "Please refer to detailed findings above."
  /\ confidence (parseAnalysisResponse MoreSamples.long_text (js "batch-1") 1 0)
     = js "Standard diagnostic confidence"
  /\ technicalNotes (parseAnalysisResponse MoreSamples.long_text (js "batch-1") 1 0) = None.
Proof.
  destruct (parseAnalysisResponse_fallbacks MoreSamples.long_text (js "batch-1") 1 0)
    as (_ & Hf & Hr & Hc & Ht).
  assert (H : forall f, heading_colon_occurs f MoreSamples.long_text = false)
    by (intros []; vm_compute; reflexivity).
  destruct (Hf (H Findings)) as [Hf1 Hf2].
  split; [reflexivity|].
  split; [etransitivity; [exact Hf1|vm_compute; reflexivity]|].
  split; [etransitivity; [exact Hf2|reflexivity]|].
  split; [exact (Hr (H Recommendations))|].
  split; [exact (Hc (H Confidence))|exact (Ht (H TechnicalNotes))].
Defined.

(** C10. A heading starts a section only with a colon right behind it: a
    section that is set comes with a place in the text where a heading of
    its field matches and a colon follows, and in a text where no match of a
    heading is followed by a colon the section is not set and the result
    carries the fallback of the field. *)
Theorem heading_needs_colon (text : jsstring) (f : field) :
  (forall v, extractSections text f = Some v ->
     exists pre s1 s2, text = pre ++ s1 /\ Matches (heading f) s1 (colon :: s2))
  /\ ((forall pre s1 s2, text = pre ++ s1 -> Matches (heading f) s1 s2 ->
                         hd_error s2 <> Some colon) ->
      extractSections text f = None
      /\ forall batchId imageCount processingTime,
           value_of f (parseAnalysisResponse text batchId imageCount processingTime)
           = fallback f text).
Proof.
  split.
  - intros v Hv. apply heading_colon_occurs_true.
    destruct (heading_colon_occurs f text) eqn:E; [reflexivity|].
    rewrite (no_match_no_section _ _ (no_heading_no_match _ _ E)) in Hv. discriminate.
  - intros H. apply heading_colon_occurs_false in H.
    pose proof (no_match_no_section _ _ (no_heading_no_match _ _ H)) as Hn.
    split; [assumption|]. intros batchId imageCount processingTime.
    unfold parseAnalysisResponse.
    destruct f; cbn [value_of fallback findings recommendations confidence technicalNotes];
      rewrite Hn; reflexivity.
Qed.

(** A text that names the findings without a colon. *)
Lemma heading_needs_colon_witness :
  extractSections Samples.prose_text Findings = None
  /\ forall batchId imageCount processingTime,
       value_of Findings
         (parseAnalysisResponse Samples.prose_text batchId imageCount processingTime)
       = fallback Findings Samples.prose_text.
Proof.
  apply (heading_needs_colon Samples.prose_text Findings).
  apply heading_colon_occurs_false. vm_compute. reflexivity.
Defined.

End Parser.

(* ===================================================================== *)
(** ** The consolidated report *)
(* ===================================================================== *)

Section Report.
Import RadiologyAPIClient UseUpload.

Lemma has_status_true s b : has_status s b = true <-> batch_status b = s.
Proof. apply status_eqb_eq. Qed.

(** On batches that carry a result with a non-empty text, [filter(Boolean)]
    drops nothing. *)
Lemma filter_Boolean_results (field : DiagnosticResult -> jsstring) (bs : list ImageBatch) :
  Forall (fun b => exists r, batch_result b = Some r /\ field r <> []) bs ->
  filter_Boolean (map (fun b => option_map field (batch_result b)) bs)
  = map field (flat_map (fun b => match batch_result b with
                                  | Some r => [r]
                                  | None => []
                                  end) bs)
  /\ length (filter_Boolean (map (fun b => option_map field (batch_result b)) bs))
     = length bs.
Proof.
  unfold filter_Boolean.
  induction 1 as [|b bs (r & Hr & Hne) _ [IH1 IH2]]; [split; reflexivity|].
  cbn [map flat_map]. rewrite Hr. cbn [option_map].
  destruct (field r) as [|c v] eqn:E; [contradiction|].
  cbn [truthy]. split.
  - rewrite IH1, map_app. cbn [map app]. now rewrite E.
  - rewrite length_app, IH2. reflexivity.
Qed.

Lemma Forall_completed (P : ImageBatch -> Prop) (batches : list ImageBatch) :
  Forall (fun b => batch_status b = Completed -> P b) batches ->
  Forall P (filter (has_status Completed) batches).
Proof.
  induction 1 as [|b bs Hb _ IH]; simpl; [constructor|].
  destruct (has_status Completed b) eqn:E; [|assumption].
  constructor; [|assumption]. apply Hb. now apply has_status_true.
Qed.

(** What [parseAnalysisResponse] delivers always has non-empty findings and
    recommendations, so completed batches of a run carry them. *)
Lemma parsed_result_texts text batchId imageCount processingTime :
  findings (parseAnalysisResponse text batchId imageCount processingTime) <> []
  /\ recommendations (parseAnalysisResponse text batchId imageCount processingTime) <> [].
Proof.
  unfold parseAnalysisResponse. cbn [findings recommendations]. split.
  - apply or_else_truthy. unfold findings_fallback. now destruct (substring0 1000 text).
  - apply or_else_truthy. reflexivity.
Qed.

(** C6, as the design document words it, fails on the code: with two
    completed batches and one failed batch the opening sentence of
    [overallFindings] counts 2 batches, the completed ones, and not the 3
    batches of the run. *)
Lemma summary_counts_completed_batches :
  report_overallFindings (generateConsolidatedReport 0 Samples.two_of_three 45 0 9000)
  <> documented_overallFindings Samples.two_of_three 45.
Proof. vm_compute. discriminate. Qed.

(** C6, amended.  For a terminal set whose completed batches carry a result
    with non-empty findings and recommendations, [overallFindings] is the
    sentence giving the number of images and the number of COMPLETED batches,
    followed by the findings of the completed batches in the order of the
    set, joined by the separator line, or the fixed message when no batch
    completed; [recommendations] has one entry for each completed batch, its
    recommendations, in the order of the set. *)
Theorem consolidated_findings (now : N) (batches : list ImageBatch) (totalImages : nat)
    (startTime endTime : N) :
  Forall (fun b => batch_status b = Completed ->
                   exists r, batch_result b = Some r
                             /\ findings r <> [] /\ recommendations r <> []) batches ->
  report_overallFindings (generateConsolidatedReport now batches totalImages startTime endTime)
  = (if length (filter (has_status Completed) batches) =? 0 then no_findings
     else summary totalImages (length (filter (has_status Completed) batches))
            ++ join batch_separator (map findings (completed_results batches)))
  /\ report_recommendations
       (generateConsolidatedReport now batches totalImages startTime endTime)
     = map recommendations (completed_results batches)
  /\ length (report_recommendations
               (generateConsolidatedReport now batches totalImages startTime endTime))
     = length (filter (has_status Completed) batches).
Proof.
  intros Hwf. apply Forall_completed in Hwf.
  unfold generateConsolidatedReport, completed_results.
  cbn [report_overallFindings report_recommendations].
  set (completed := filter (has_status Completed) batches) in *.
  destruct (filter_Boolean_results findings completed) as [Hf Hfl].
  { eapply Forall_impl; [|exact Hwf]. intros b (r & Hr & H1 & _). eauto. }
  destruct (filter_Boolean_results recommendations completed) as [Hr Hrl].
  { eapply Forall_impl; [|exact Hwf]. intros b (r & Hr & _ & H2). eauto. }
  rewrite Hfl, Hf, Hr. repeat split.
  - destruct (length completed); reflexivity.
  - rewrite <- Hr. exact Hrl.
Qed.

(** The report of two completed batches and a failed one. *)
Lemma consolidated_findings_witness :
  report_overallFindings (generateConsolidatedReport 0 Samples.two_of_three 45 0 9000)
  = (if length (filter (has_status Completed) Samples.two_of_three) =? 0 then no_findings
     else summary 45 (length (filter (has_status Completed) Samples.two_of_three))
            ++ join batch_separator (map findings (completed_results Samples.two_of_three)))
  /\ report_recommendations (generateConsolidatedReport 0 Samples.two_of_three 45 0 9000)
     = map recommendations (completed_results Samples.two_of_three)
  /\ length (report_recommendations
               (generateConsolidatedReport 0 Samples.two_of_three 45 0 9000))
     = length (filter (has_status Completed) Samples.two_of_three).
Proof.
  apply (consolidated_findings 0 Samples.two_of_three 45 0 9000).
  repeat constructor; intros H; try discriminate H;
    eexists; (split; [reflexivity|split; discriminate]).
Defined.

(** The example of the design document: two batches completed with findings
    "A" and "B", one failed. *)
Example two_completed_one_failed :
  report_overallFindings (generateConsolidatedReport 0 Samples.two_of_three 45 0 9000)
  = summary 45 2 ++ js "A" ++ batch_separator ++ js "B"
  /\ length (report_recommendations
               (generateConsolidatedReport 0 Samples.two_of_three 45 0 9000)) = 2
  /\ report_status (generateConsolidatedReport 0 Samples.two_of_three 45 0 9000) = Completed
  /\ report_failedBatches (generateConsolidatedReport 0 Samples.two_of_three 45 0 9000) = 1.
Proof. vm_compute. repeat split. Qed.

Lemma filter_length_all {A} (p : A -> bool) (l : list A) :
  length (filter p l) = length l <-> Forall (fun x => p x = true) l.
Proof.
  induction l as [|x l IH]; simpl; [split; auto|].
  pose proof (filter_length_le p l) as Hle.
  destruct (p x) eqn:E; simpl.
  - split.
    + intros H. constructor; [assumption|]. apply IH. lia.
    + intros H. inversion H; subst. f_equal. now apply IH.
  - split; [lia|]. intros H. inversion H; congruence.
Qed.

Lemma filter_nonempty {A} (p : A -> bool) (l : list A) :
  0 < length (filter p l) <-> Exists (fun x => p x = true) l.
Proof.
  induction l as [|x l IH]; simpl.
  - split; [lia|]. inversion 1.
  - destruct (p x) eqn:E; simpl.
    + split; [intros _; now constructor|lia].
    + rewrite IH. split; [now constructor 2|].
      inversion 1; subst; [congruence|assumption].
Qed.

(** C7. The status of the consolidated report is ERROR exactly when every
    batch of the set is ERROR, and COMPLETED otherwise, so also when only
    some batches completed; its confidence is the "standard" label when at
    least one batch completed and the "limited" label otherwise. *)
Theorem report_status_confidence (now : N) (batches : list ImageBatch) (totalImages : nat)
    (startTime endTime : N) :
  (report_status (generateConsolidatedReport now batches totalImages startTime endTime)
   = Error <-> Forall (fun b => batch_status b = Error) batches)
  /\ (report_status (generateConsolidatedReport now batches totalImages startTime endTime)
      = Completed <-> ~ Forall (fun b => batch_status b = Error) batches)
  /\ (report_confidence (generateConsolidatedReport now batches totalImages startTime endTime)
      = js "Standard diagnostic analysis"
      <-> Exists (fun b => batch_status b = Completed) batches)
  /\ (report_confidence (generateConsolidatedReport now batches totalImages startTime endTime)
      = js "Limited due to processing errors"
      <-> ~ Exists (fun b => batch_status b = Completed) batches).
Proof.
  unfold generateConsolidatedReport. cbn [report_status report_confidence].
  assert (HE : length (filter (has_status Error) batches) = length batches
               <-> Forall (fun b => batch_status b = Error) batches).
  { rewrite filter_length_all. split; apply Forall_impl; intros b; apply has_status_true. }
  assert (HC : 0 < length (filter (has_status Completed) batches)
               <-> Exists (fun b => batch_status b = Completed) batches).
  { rewrite filter_nonempty. split; apply Exists_impl; intros b; apply has_status_true. }
  assert (HC' : ~ 0 < length (filter (has_status Completed) batches)
                <-> ~ Exists (fun b => batch_status b = Completed) batches) by tauto.
  destruct (Nat.eqb_spec (length (filter (has_status Error) batches)) (length batches))
    as [He|He]; [apply HE in He|rewrite HE in He];
    (destruct (Nat.ltb_spec 0 (length (filter (has_status Completed) batches)))
       as [Hc|Hc]; [apply HC in Hc|apply Nat.le_ngt, HC' in Hc]).
  all: repeat split; intros H;
    first [ reflexivity | assumption | contradiction
          | exfalso; vm_compute in H; discriminate H ].
Qed.

End Report.

(* ===================================================================== *)
(** ** The run of startAnalysis *)
(* ===================================================================== *)

Section Run.
Import RadiologyAPIClient UseUpload.

Lemma length_update b f l : length (update b f l) = length l.
Proof.
  revert b. induction l as [|x l IH]; intros [|b]; simpl; auto.
Qed.

Lemma nth_error_update_eq b f l :
  nth_error (update b f l) b = option_map f (nth_error l b).
Proof.
  revert b. induction l as [|x l IH]; intros [|b]; simpl; auto.
Qed.

Lemma nth_error_update_ne b b' f l :
  b <> b' -> nth_error (update b f l) b' = nth_error l b'.
Proof.
  revert b b'. induction l as [|x l IH]; intros [|b] [|b'] H; simpl; auto;
    try contradiction.
Qed.

(** Changing one batch changes the number of processing batches by what
    that batch contributes. *)
Lemma processing_update b f l x :
  nth_error l b = Some x ->
  length (filter (has_status Processing) (update b f l))
    + (if has_status Processing x then 1 else 0)
  = length (filter (has_status Processing) l)
    + (if has_status Processing (f x) then 1 else 0).
Proof.
  revert b. induction l as [|y l IH]; intros [|b] H; simpl in *; try discriminate.
  - injection H as ->.
    destruct (has_status Processing x), (has_status Processing (f x)); simpl; lia.
  - specialize (IH _ H). destruct (has_status Processing y); simpl; lia.
Qed.

(** The batches that are processing are counted by the places they hold
    among the promises. *)
Lemma filter_threshold_le k (act : list nat) :
  length (filter (fun a => S k <=? a) act) <= length (filter (fun a => k <=? a) act).
Proof.
  induction act as [|a act IH]; cbn [filter]; [lia|].
  destruct (Nat.leb_spec (S k) a), (Nat.leb_spec k a); cbn [length]; lia.
Qed.

Lemma filter_threshold k (act : list nat) :
  In k act ->
  length (filter (fun a => S k <=? a) act) < length (filter (fun a => k <=? a) act).
Proof.
  induction act as [|a act IH]; [contradiction|].
  intros Hin. cbn [filter].
  destruct (Nat.leb_spec (S k) a), (Nat.leb_spec k a); cbn [length]; try lia.
  - assert (Hk : In k act) by (destruct Hin; [lia|assumption]).
    specialize (IH Hk). lia.
  - pose proof (filter_threshold_le k act). lia.
  - assert (Hk : In k act) by (destruct Hin; [lia|assumption]). auto.
Qed.

Lemma count_by_index (P : ImageBatch -> bool) (act : list nat) :
  forall l k,
  (forall i x, nth_error l i = Some x -> P x = true -> In (k + i) act) ->
  length (filter P l) <= length (filter (fun a => k <=? a) act).
Proof.
  induction l as [|x l IH]; intros k H; cbn [filter]; [cbn [length]; lia|].
  assert (Hrec : length (filter P l) <= length (filter (fun a => S k <=? a) act)).
  { apply IH. intros i y Hi Hy. replace (S k + i) with (k + S i) by lia.
    now apply (H (S i) y). }
  destruct (P x) eqn:E; cbn [length].
  - assert (Hin : In k act).
    { replace k with (k + 0) by lia. now apply (H 0 x). }
    pose proof (filter_threshold k act Hin). lia.
  - pose proof (filter_threshold_le k act). lia.
Qed.

Lemma processing_le_active st :
  (forall b, status_at st b = Some Processing -> In b (activeBatches st)) ->
  processing st <= length (activeBatches st).
Proof.
  intros H. unfold processing.
  etransitivity; [apply (count_by_index _ (activeBatches st) _ 0)|apply filter_length_le].
  intros i x Hi Hx. simpl. apply H. unfold status_at. rewrite Hi. simpl.
  f_equal. now apply has_status_true.
Qed.

Lemma status_at_update_ne st st0 b b' f :
  store st = update b f (store st0) -> b <> b' ->
  status_at st b' = status_at st0 b' /\ settled st b' = settled st0 b'.
Proof.
  intros Hs Hne. unfold settled, status_at.
  rewrite Hs, nth_error_update_ne by assumption. split; reflexivity.
Qed.

Lemma status_at_update_eq st st0 b f x :
  store st = update b f (store st0) -> nth_error (store st0) b = Some x ->
  status_at st b = Some (batch_status (f x)).
Proof.
  intros Hs Hx. unfold status_at. now rewrite Hs, nth_error_update_eq, Hx.
Qed.

Lemma status_at_same st st0 b :
  store st = store st0 ->
  status_at st b = status_at st0 b /\ settled st b = settled st0 b.
Proof. intros Hs. unfold settled, status_at. now rewrite Hs. Qed.

Lemma settled_not_processing st b :
  settled st b = true -> status_at st b <> Some Processing.
Proof. unfold settled. intros H E. rewrite E in H. discriminate. Qed.

Lemma splice1_split {A} (l1 l2 : list A) a :
  splice1 (length l1) (l1 ++ a :: l2) = l1 ++ l2
  /\ firstn (length l1) (l1 ++ a :: l2) = l1
  /\ firstn (S (length l1)) (l1 ++ a :: l2) = l1 ++ [a].
Proof.
  unfold splice1.
  assert (H1 : firstn (length l1) (l1 ++ a :: l2) = l1).
  { rewrite firstn_app, Nat.sub_diag, firstn_all. simpl. apply app_nil_r. }
  assert (H2 : skipn (S (length l1)) (l1 ++ a :: l2) = l2).
  { rewrite skipn_app, skipn_all2 by lia.
    replace (S (length l1) - length l1) with 1 by lia. reflexivity. }
  rewrite H1, H2. repeat split.
  rewrite firstn_app, firstn_all2 by lia.
  replace (S (length l1) - length l1) with 1 by lia. reflexivity.
Qed.

(** *** What each step changes *)

Lemma admit_step_inv now st st' :
  admit_step now st = Some st' ->
  exists b q x,
    at_ st = LoopHead /\ batchQueue st = b :: q
    /\ length (activeBatches st) < maxConcurrent
    /\ nth_error (store st) b = Some x
    /\ store st' = update b (begin_processing now) (store st)
    /\ batchQueue st' = q /\ activeBatches st' = activeBatches st ++ [b]
    /\ at_ st' = LoopHead
    /\ completedCount st' = completedCount st /\ failedCount st' = failedCount st
    /\ overallProgress (processingStatus st') = overallProgress (processingStatus st).
Proof.
  unfold admit_step.
  destruct (at_ st) eqn:Ea; try discriminate.
  destruct (batchQueue st) as [|b q] eqn:Eq; try discriminate.
  destruct (Nat.ltb_spec (length (activeBatches st)) maxConcurrent); try discriminate.
  destruct (nth_error (store st) b) as [x|] eqn:Ex; try discriminate.
  intros [= <-]. exists b, q, x. cbn. repeat split; auto.
Qed.

Lemma race_step_inv st st' :
  race_step st = Some st' ->
  at_ st = LoopHead /\ existsb (settled st) (activeBatches st) = true
  /\ store st' = store st /\ batchQueue st' = batchQueue st
  /\ activeBatches st' = activeBatches st
  /\ at_ st' = Reaping (length (activeBatches st))
  /\ completedCount st' = completedCount st /\ failedCount st' = failedCount st
  /\ overallProgress (processingStatus st') = overallProgress (processingStatus st).
Proof.
  unfold race_step.
  destruct (at_ st) eqn:Ea; try discriminate.
  destruct (negb _ && existsb (settled st) (activeBatches st)) eqn:E; try discriminate.
  apply andb_true_iff in E as [_ E].
  intros [= <-]. cbn. repeat split; auto.
Qed.

Lemma check_step_inv st st' :
  check_step st = Some st' ->
  exists i b,
    at_ st = Reaping (S i) /\ nth_error (activeBatches st) i = Some b
    /\ store st' = store st /\ batchQueue st' = batchQueue st
    /\ activeBatches st' =
         (if settled st b then splice1 i (activeBatches st) else activeBatches st)
    /\ at_ st' = match i with 0 => LoopHead | S _ => Reaping i end
    /\ completedCount st' = completedCount st /\ failedCount st' = failedCount st
    /\ overallProgress (processingStatus st') = overallProgress (processingStatus st).
Proof.
  unfold check_step.
  destruct (at_ st) as [|[|i]|] eqn:Ea; try discriminate.
  destruct (nth_error (activeBatches st) i) as [b|] eqn:Eb; try discriminate.
  intros [= <-]. exists i, b. cbn. repeat split; auto.
Qed.

Lemma settle_step_inv b e now st st' :
  settle_step b e now st = Some st' ->
  exists x g,
    status_at st b = Some Processing /\ nth_error (store st) b = Some x
    /\ store st' = update b g (store st)
    /\ (batch_status (g x) = Completed \/ batch_status (g x) = Error)
    /\ batchQueue st' = batchQueue st /\ activeBatches st' = activeBatches st
    /\ at_ st' = at_ st
    /\ completedCount st' + failedCount st' = S (completedCount st + failedCount st).
Proof.
  unfold settle_step.
  destruct (status_at st b) as [[]|] eqn:Es; try discriminate.
  assert (Hx : exists x, nth_error (store st) b = Some x).
  { unfold status_at in Es. destruct (nth_error (store st) b) as [x|]; [eauto|discriminate]. }
  destruct Hx as (x & Hx). destruct e as [r|msg].
  - destruct (result r) as [res|]; [destruct (success r)|]; intros [= <-]; cbn.
    + exists x, (complete res now). repeat split; auto; lia.
    + exists x, (fail (or_else (option_map err_message (error_ r)) (js "Analysis failed")) now).
      repeat split; auto; lia.
    + exists x, (fail (or_else (option_map err_message (error_ r)) (js "Analysis failed")) now).
      repeat split; auto; lia.
  - intros [= <-]. cbn. exists x, (fail msg now). repeat split; auto; lia.
Qed.

Lemma finish_step_inv endTime now st st' :
  finish_step endTime now st = Some st' ->
  at_ st = LoopHead /\ batchQueue st = [] /\ activeBatches st = []
  /\ store st' = store st /\ batchQueue st' = [] /\ activeBatches st' = []
  /\ at_ st' = Finished
  /\ completedCount st' = completedCount st /\ failedCount st' = failedCount st
  /\ overallProgress (processingStatus st') = 100.
Proof.
  unfold finish_step.
  destruct (at_ st) eqn:Ea; try discriminate.
  destruct (batchQueue st) eqn:Eq; try discriminate.
  destruct (activeBatches st) eqn:Eb; try discriminate.
  intros [= <-]. cbn. repeat split; auto.
Qed.

(** *** Every step keeps the run consistent and lowers the variant *)

Lemma same_store st st' :
  store st' = store st ->
  (forall b, status_at st' b = status_at st b)
  /\ (forall b, settled st' b = settled st b)
  /\ processing st' = processing st
  /\ (forall l, existsb (settled st') l = existsb (settled st) l).
Proof.
  intros Hs.
  assert (H1 : forall b, status_at st' b = status_at st b)
    by (intros b; unfold status_at; now rewrite Hs).
  assert (H2 : forall b, settled st' b = settled st b)
    by (intros b; unfold settled; now rewrite H1).
  repeat split; auto.
  - unfold processing. now rewrite Hs.
  - induction l as [|a l IH]; simpl; [reflexivity|]. now rewrite H2, IH.
Qed.

Lemma existsb_mono {A} (f g : A -> bool) l :
  (forall a, f a = true -> g a = true) -> existsb f l = true -> existsb g l = true.
Proof.
  intros H. rewrite !existsb_exists. intros (a & Hin & Ha). eauto.
Qed.

Lemma admit_preserves now st st' :
  consistent st -> admit_step now st = Some st' ->
  consistent st' /\ variant st' < variant st.
Proof.
  intros [I1 I2 I3 I4 I5 I6 I7] H.
  destruct (admit_step_inv _ _ _ H)
    as (b & q & x & Ha & Hq & Hlt & Hx & Hs & Hq' & Hact & Ha' & _).
  assert (Hlen : length (store st') = length (store st))
    by (rewrite Hs; apply length_update).
  split.
  - constructor.
    + rewrite Hact, length_app. simpl. lia.
    + intros b' Hb'. rewrite Hact. apply in_app_iff.
      destruct (Nat.eq_dec b b') as [<-|Hne]; [right; now left|].
      left. apply I2.
      destruct (status_at_update_ne st' st b b' _ Hs Hne) as [E _]. now rewrite <- E.
    + intros b' Hb'. rewrite Hact in Hb'.
      destruct (Nat.eq_dec b b') as [<-|Hne].
      * left. now rewrite (status_at_update_eq st' st b _ x Hs Hx).
      * apply in_app_iff in Hb' as [Hb'|[Hb'|[]]]; [|contradiction].
        destruct (status_at_update_ne st' st b b' _ Hs Hne) as [E1 E2].
        rewrite E1, E2. now apply I3.
    + intros b' Hb'. rewrite Hlen. apply I4. rewrite Hq. right. now rewrite <- Hq'.
    + intros i Hi. congruence.
    + intros b' Hb'. rewrite Hlen in Hb'. rewrite Hq', Hact.
      destruct (Nat.eq_dec b b') as [<-|Hne];
        [right; left; apply in_app_iff; right; now left|].
      destruct (status_at_update_ne st' st b b' _ Hs Hne) as [_ E2]. rewrite E2.
      destruct (I6 b' Hb') as [Hin|[Hin|Hset]].
      * rewrite Hq in Hin. destruct Hin as [->|Hin]; [contradiction|now left].
      * right; left. apply in_app_iff. now left.
      * now right; right.
    + congruence.
  - unfold variant, control_weight, processing.
    rewrite Hq, Hq', Hact, Ha, Ha', length_app, Hs.
    pose proof (processing_update b (begin_processing now) (store st) x Hx) as Hp.
    change (has_status Processing (begin_processing now x)) with true in Hp.
    cbn [length].
    destruct (has_status Processing x); lia.
Qed.

Lemma race_preserves st st' :
  consistent st -> race_step st = Some st' ->
  consistent st' /\ variant st' < variant st.
Proof.
  intros [I1 I2 I3 I4 I5 I6 I7] H.
  destruct (race_step_inv _ _ H) as (Ha & Hex & Hs & Hq & Hact & Ha' & _).
  destruct (same_store _ _ Hs) as (S1 & S2 & S3 & S4).
  split.
  - constructor.
    + now rewrite Hact.
    + intros b. rewrite S1, Hact. apply I2.
    + intros b. rewrite S1, S2, Hact. apply I3.
    + intros b. rewrite Hq, Hs. apply I4.
    + intros i Hi. rewrite Ha' in Hi. injection Hi as <-. rewrite Hact.
      split; [|lia]. destruct (activeBatches st); [discriminate|simpl; lia].
    + intros b. rewrite Hs, Hq, Hact, S2. apply I6.
    + congruence.
  - unfold variant, control_weight. rewrite Hq, Hact, Ha, Ha', S3, S4, firstn_all, Hex.
    unfold maxConcurrent in I1. lia.
Qed.

Lemma check_preserves st st' :
  consistent st -> check_step st = Some st' ->
  consistent st' /\ variant st' < variant st.
Proof.
  intros [I1 I2 I3 I4 I5 I6 I7] H.
  destruct (check_step_inv _ _ H) as (i & b & Ha & Hb & Hs & Hq & Hact & Ha' & _).
  destruct (same_store _ _ Hs) as (S1 & S2 & S3 & S4).
  destruct (nth_error_split _ _ Hb) as (l1 & l2 & Hl & Hi). subst i.
  destruct (splice1_split l1 l2 b) as (Sp1 & Sp2 & Sp3).
  rewrite Hl in Hact. rewrite Sp1 in Hact.
  assert (Hsub : forall c, In c (activeBatches st') -> In c (activeBatches st)).
  { intros c. rewrite Hact, Hl. destruct (settled st b); [|auto].
    rewrite !in_app_iff. intros [?|?]; [now left|right; now right]. }
  assert (Hkeep : forall c, In c (activeBatches st) -> settled st c = false ->
                            In c (activeBatches st')).
  { intros c. rewrite Hact, Hl.
    destruct (settled st b) eqn:Eb; [|auto].
    rewrite !in_app_iff. intros [?|[->|?]] Hc; [now left|congruence|now right]. }
  split.
  - constructor.
    + rewrite Hact. rewrite Hl in I1.
      destruct (settled st b); [|assumption].
      rewrite length_app in *. simpl in I1. lia.
    + intros c Hc. rewrite S1 in Hc. apply Hkeep; [now apply I2|].
      unfold settled. now rewrite Hc.
    + intros c Hc. rewrite S1, S2. apply I3, Hsub, Hc.
    + intros c. rewrite Hq, Hs. apply I4.
    + intros j Hj. rewrite Ha' in Hj. destruct (length l1) as [|n] eqn:En; [discriminate|].
      injection Hj as <-. split; [lia|].
      rewrite Hact. destruct (settled st b); rewrite length_app; simpl; lia.
    + intros c Hc. rewrite Hs in Hc. rewrite Hq, S2.
      destruct (I6 c Hc) as [Hin|[Hin|Hset]]; [now left| |now right; right].
      destruct (settled st c) eqn:Ec; [now right; right|].
      right; left. now apply Hkeep.
    + rewrite Ha'. destruct (length l1); discriminate.
  - unfold variant, control_weight. rewrite Hq, Ha, Ha', S3, Hact, Hl, Sp3.
    rewrite existsb_app. cbn [existsb]. rewrite orb_false_r.
    destruct (settled st b) eqn:Eb.
    + rewrite orb_true_r, !length_app. cbn [length].
      destruct (length l1) as [|n] eqn:En; [lia|].
      destruct (existsb (settled st') (firstn (S n) (l1 ++ l2))); lia.
    + rewrite orb_false_r.
      destruct (length l1) as [|n] eqn:En.
      * destruct l1; [|discriminate]. cbn. lia.
      * rewrite S4, Sp2.
        destruct (existsb (settled st) l1); lia.
Qed.

Lemma settle_preserves b e now st st' :
  consistent st -> settle_step b e now st = Some st' ->
  consistent st' /\ variant st' < variant st.
Proof.
  intros [I1 I2 I3 I4 I5 I6 I7] H.
  destruct (settle_step_inv _ _ _ _ _ H)
    as (x & g & Hp & Hx & Hs & Hg & Hq & Hact & Ha & _).
  assert (Hlen : length (store st') = length (store st))
    by (rewrite Hs; apply length_update).
  assert (Hb : settled st' b = true).
  { unfold settled. rewrite (status_at_update_eq st' st b g x Hs Hx).
    destruct Hg as [-> | ->]; reflexivity. }
  assert (Hmono : forall c, settled st c = true -> settled st' c = true).
  { intros c Hc. destruct (Nat.eq_dec b c) as [<-|Hne]; [assumption|].
    destruct (status_at_update_ne st' st b c g Hs Hne) as [_ E]. now rewrite E. }
  split.
  - constructor.
    + now rewrite Hact.
    + intros c Hc. rewrite Hact. apply I2.
      destruct (Nat.eq_dec b c) as [<-|Hne].
      * now apply settled_not_processing in Hb.
      * destruct (status_at_update_ne st' st b c g Hs Hne) as [E _]. now rewrite <- E.
    + intros c Hc. rewrite Hact in Hc.
      destruct (Nat.eq_dec b c) as [<-|Hne]; [now right|].
      destruct (status_at_update_ne st' st b c g Hs Hne) as [E1 E2].
      rewrite E1, E2. now apply I3.
    + intros c. rewrite Hq, Hlen. apply I4.
    + intros i Hi. rewrite Hact. apply I5. congruence.
    + intros c Hc. rewrite Hlen in Hc. rewrite Hq, Hact.
      destruct (I6 c Hc) as [Hin|[Hin|Hset]]; auto.
    + intros Hf. rewrite Hq, Hact. apply I7. congruence.
  - unfold variant, control_weight, processing. rewrite Hq, Hact, Ha, Hs.
    pose proof (processing_update b g (store st) x Hx) as Hc.
    assert (Hpx : has_status Processing x = true).
    { apply has_status_true. unfold status_at in Hp. rewrite Hx in Hp. now injection Hp. }
    assert (Hgx : has_status Processing (g x) = false).
    { unfold has_status. destruct Hg as [-> | ->]; reflexivity. }
    rewrite Hpx, Hgx in Hc.
    destruct (at_ st) as [|i|]; try lia.
    destruct (existsb (settled st) (firstn i (activeBatches st))) eqn:E.
    + rewrite (existsb_mono _ _ _ Hmono E). lia.
    + destruct (existsb (settled st') (firstn i (activeBatches st))); lia.
Qed.

Lemma finish_preserves endTime now st st' :
  consistent st -> finish_step endTime now st = Some st' ->
  consistent st' /\ variant st' < variant st.
Proof.
  intros [I1 I2 I3 I4 I5 I6 I7] H.
  destruct (finish_step_inv _ _ _ _ H) as (Ha & Hq & Hact & Hs & Hq' & Hact' & Ha' & _).
  destruct (same_store _ _ Hs) as (S1 & S2 & S3 & S4).
  split.
  - constructor.
    + rewrite Hact'. simpl. lia.
    + intros b Hb. rewrite S1 in Hb. apply I2 in Hb. rewrite Hact in Hb. contradiction.
    + intros b. rewrite Hact'. contradiction.
    + intros b. rewrite Hq'. contradiction.
    + congruence.
    + intros b Hb. rewrite Hs in Hb. rewrite S2.
      destruct (I6 b Hb) as [Hin|[Hin|Hset]]; [| |now right; right].
      * rewrite Hq in Hin. contradiction.
      * rewrite Hact in Hin. contradiction.
    + auto.
  - unfold variant, control_weight. rewrite Hq, Hq', Hact, Hact', Ha, Ha', S3.
    simpl. lia.
Qed.

Lemma step_preserves l st st' :
  consistent st -> step l st = Some st' ->
  consistent st' /\ variant st' < variant st.
Proof.
  destruct l; simpl.
  - apply admit_preserves.
  - apply race_preserves.
  - apply check_preserves.
  - apply settle_preserves.
  - apply finish_preserves.
Qed.

Lemma steps_preserve ls : forall st st',
  consistent st -> steps ls st = Some st' ->
  consistent st' /\ variant st' + length ls <= variant st.
Proof.
  induction ls as [|l ls IH]; intros st st' Hc H; simpl in H.
  - injection H as <-. split; [assumption|simpl; lia].
  - destruct (step l st) as [st1|] eqn:E; [|discriminate].
    destruct (step_preserves _ _ _ Hc E) as [Hc1 Hv1].
    destruct (IH _ _ Hc1 H) as [Hc' Hv']. split; [assumption|simpl; lia].
Qed.

(** *** The start of a run *)

Lemma step_store_length l st st' :
  step l st = Some st' -> length (store st') = length (store st).
Proof.
  destruct l; simpl; intros H.
  - destruct (admit_step_inv _ _ _ H) as (b & q & x & _ & _ & _ & _ & Hs & _).
    rewrite Hs. apply length_update.
  - destruct (race_step_inv _ _ H) as (_ & _ & Hs & _). now rewrite Hs.
  - destruct (check_step_inv _ _ H) as (i & b & _ & _ & Hs & _). now rewrite Hs.
  - destruct (settle_step_inv _ _ _ _ _ H) as (x & g & _ & _ & Hs & _).
    rewrite Hs. apply length_update.
  - destruct (finish_step_inv _ _ _ _ H) as (_ & _ & _ & Hs & _). now rewrite Hs.
Qed.

Lemma steps_store_length ls : forall st st',
  steps ls st = Some st' -> length (store st') = length (store st).
Proof.
  induction ls as [|l ls IH]; intros st st' H; simpl in H.
  - now injection H as <-.
  - destruct (step l st) as [st1|] eqn:E; [|discriminate].
    rewrite (IH _ _ H). eapply step_store_length, E.
Qed.

Lemma no_processing_filter batches :
  Forall (fun b => batch_status b <> Processing) batches ->
  filter (has_status Processing) batches = [].
Proof.
  induction 1 as [|b bs Hb _ IH]; simpl; [reflexivity|].
  destruct (has_status Processing b) eqn:E; [|assumption].
  apply has_status_true in E. contradiction.
Qed.

Lemma start_consistent batches imagesLength now :
  Forall (fun b => batch_status b <> Processing) batches ->
  consistent (start batches imagesLength now)
  /\ variant (start batches imagesLength now) = 8 * length batches + 4.
Proof.
  intros Hno. split.
  - constructor; cbn [start activeBatches batchQueue store at_];
      try contradiction; try discriminate.
    + simpl. unfold maxConcurrent. lia.
    + intros b Hb. unfold status_at in Hb. cbn [start store] in Hb.
      destruct (nth_error batches b) as [x|] eqn:Ex; [|discriminate].
      apply nth_error_In in Ex. rewrite Forall_forall in Hno.
      injection Hb as Hb. now apply Hno in Ex.
    + intros b Hb. apply in_seq in Hb. lia.
    + intros b Hb. left. apply in_seq. lia.
  - unfold variant, control_weight, processing.
    cbn [start activeBatches batchQueue store at_].
    rewrite (no_processing_filter _ Hno), length_seq. simpl. lia.
Qed.

(** *** Progress of the run *)

(** Until the report is made some step can always be taken: the loop can
    go on, or it waits for a batch in flight, which can settle. *)
Lemma step_enabled st :
  consistent st -> at_ st <> Finished -> exists l st', step l st = Some st'.
Proof.
  intros [I1 I2 I3 I4 I5 I6 I7] Hnf.
  destruct (at_ st) as [|i|] eqn:Ea; [| |contradiction].
  - destruct (batchQueue st) as [|b q] eqn:Eq.
    + destruct (activeBatches st) as [|a act] eqn:Eact.
      * exists (Finish 0 0). simpl. unfold finish_step. rewrite Ea, Eq, Eact. eauto.
      * destruct (existsb (settled st) (a :: act)) eqn:Eex.
        -- exists Race. simpl. unfold race_step. rewrite Ea, Eq, Eact, Eex.
           simpl. eauto.
        -- assert (Hp : status_at st a = Some Processing).
           { destruct (I3 a) as [Hp|Hs]; [now left|assumption|].
             simpl in Eex. rewrite Hs in Eex. discriminate. }
           exists (Settle a (Raised []) 0). simpl. unfold settle_step. rewrite Hp. eauto.
    + destruct (Nat.ltb_spec (length (activeBatches st)) maxConcurrent) as [Hlt|Hge].
      * assert (Hb : b < length (store st)) by (apply I4; now left).
        apply nth_error_Some in Hb.
        destruct (nth_error (store st) b) as [x|] eqn:Ex; [|contradiction].
        exists (Admit 0). simpl. unfold admit_step. rewrite Ea, Eq, Ex.
        destruct (Nat.ltb_spec (length (activeBatches st)) maxConcurrent); [eauto|lia].
      * destruct (activeBatches st) as [|a act] eqn:Eact;
          [simpl in Hge; unfold maxConcurrent in Hge; lia|].
        destruct (existsb (settled st) (a :: act)) eqn:Eex.
        -- exists Race. simpl. unfold race_step. rewrite Ea, Eq, Eact, Eex.
           destruct (Nat.ltb_spec (length (a :: act)) maxConcurrent); [lia|]. simpl. eauto.
        -- assert (Hp : status_at st a = Some Processing).
           { destruct (I3 a) as [Hp|Hs]; [now left|assumption|].
             simpl in Eex. rewrite Hs in Eex. discriminate. }
           exists (Settle a (Raised []) 0). simpl. unfold settle_step. rewrite Hp. eauto.
  - destruct (I5 i eq_refl) as [Hpos Hle]. destruct i as [|j]; [lia|].
    assert (Hj : j < length (activeBatches st)) by lia.
    apply nth_error_Some in Hj.
    destruct (nth_error (activeBatches st) j) as [b|] eqn:Eb; [|contradiction].
    exists Probe. simpl. unfold check_step. rewrite Ea, Eb. eauto.
Qed.

(** With a free place and a batch waiting, the loop starts the batch at the
    head of the queue, and nothing else. *)
Lemma free_slot_admits st b q now :
  consistent st -> at_ st = LoopHead -> batchQueue st = b :: q ->
  length (activeBatches st) < maxConcurrent ->
  race_step st = None /\ check_step st = None
  /\ exists st', step (Admit now) st = Some st'
                 /\ status_at st' b = Some Processing
                 /\ batchQueue st' = q
                 /\ In b (activeBatches st').
Proof.
  intros [I1 I2 I3 I4 I5 I6 I7] Ea Eq Hlt.
  split; [|split].
  - unfold race_step. rewrite Ea, Eq.
    destruct (Nat.ltb_spec (length (activeBatches st)) maxConcurrent); [reflexivity|lia].
  - unfold check_step. now rewrite Ea.
  - assert (Hb : b < length (store st)) by (apply I4; rewrite Eq; now left).
    apply nth_error_Some in Hb.
    destruct (nth_error (store st) b) as [x|] eqn:Ex; [|contradiction].
    destruct (admit_step now st) as [st'|] eqn:E.
    + exists st'. split; [exact E|].
      destruct (admit_step_inv _ _ _ E)
        as (b0 & q0 & x0 & _ & Hq0 & _ & Hx0 & Hs & Hq' & Hact & _).
      rewrite Eq in Hq0. injection Hq0 as <- <-.
      split; [now rewrite (status_at_update_eq st' st b _ x0 Hs Hx0)|].
      split; [assumption|]. rewrite Hact. apply in_app_iff. right. now left.
    + unfold admit_step in E. rewrite Ea, Eq, Ex in E.
      destruct (Nat.ltb_spec (length (activeBatches st)) maxConcurrent);
        [discriminate|lia].
Qed.

(** *** A settled promise wakes the loop *)

Lemma filter_shorter {A} (f : A -> bool) c l :
  In c l -> f c = false -> length (filter f l) < length l.
Proof.
  induction l as [|a l IH]; intros Hin Hc; [contradiction|].
  pose proof (filter_length_le f l) as Hle. simpl.
  destruct Hin as [->|Hin].
  - rewrite Hc. lia.
  - specialize (IH Hin Hc). destruct (f a); simpl; lia.
Qed.

(** The [for] loop looks at the promises it has still to look at, from the
    last to the first, and leaves the pending ones of them. *)
Lemma probes_reap l1 : forall st l2,
  activeBatches st = l1 ++ l2 ->
  at_ st = match length l1 with 0 => LoopHead | S _ => Reaping (length l1) end ->
  exists st',
    steps (repeat Probe (length l1)) st = Some st'
    /\ at_ st' = LoopHead /\ store st' = store st /\ batchQueue st' = batchQueue st
    /\ activeBatches st' = filter (fun b => negb (settled st b)) l1 ++ l2.
Proof.
  induction l1 as [|b l IH] using rev_ind; intros st l2 Hact Ha.
  - exists st. simpl in *. auto.
  - rewrite length_app in *. cbn [length] in *. rewrite Nat.add_1_r in *.
    rewrite <- app_assoc in Hact. cbn [app] in Hact.
    assert (Hb : nth_error (activeBatches st) (length l) = Some b).
    { rewrite Hact, nth_error_app2, Nat.sub_diag by lia. reflexivity. }
    destruct (splice1_split l l2 b) as (Hsp & _).
    destruct (check_step st) as [st1|] eqn:E;
      [|unfold check_step in E; rewrite Ha, Hb in E; discriminate].
    destruct (check_step_inv _ _ E)
      as (i & b' & Ha' & Hb' & Hs & Hq & Hact1 & Hat1 & _).
    rewrite Ha in Ha'. injection Ha' as <-.
    rewrite Hb in Hb'. injection Hb' as <-.
    rewrite Hact, Hsp in Hact1.
    destruct (same_store st st1 Hs) as (_ & Hset & _).
    destruct (IH st1 (if settled st b then l2 else b :: l2)) as (st' & Hrun & R1 & R2 & R3 & R4).
    { rewrite Hact1. now destruct (settled st b). }
    { exact Hat1. }
    exists st'. cbn [repeat steps step]. rewrite E.
    split; [exact Hrun|]. split; [exact R1|].
    split; [congruence|]. split; [congruence|].
    rewrite R4, filter_app, <- app_assoc. cbn [filter].
    rewrite (filter_ext _ (fun b0 => negb (settled st b0)))
      by (intros a; now rewrite Hset).
    now destruct (settled st b).
Qed.

(** When a promise in flight has settled while a batch waits, the loop, by
    itself and without any other batch ending, comes to its head with a free
    place. *)
Lemma settled_promise_frees_slot st b q c :
  consistent st -> batchQueue st = b :: q ->
  In c (activeBatches st) -> settled st c = true ->
  exists ls' st',
    Forall (fun l => l = Race \/ l = Probe) ls'
    /\ steps ls' st = Some st'
    /\ at_ st' = LoopHead /\ store st' = store st /\ batchQueue st' = b :: q
    /\ length (activeBatches st') < maxConcurrent.
Proof.
  intros C Eq Hin Hc.
  assert (Hwake : forall st0, consistent st0 -> at_ st0 = LoopHead ->
            batchQueue st0 = b :: q -> In c (activeBatches st0) ->
            settled st0 c = true ->
            exists ls' st',
              Forall (fun l => l = Race \/ l = Probe) ls'
              /\ steps ls' st0 = Some st'
              /\ at_ st' = LoopHead /\ store st' = store st0
              /\ batchQueue st' = b :: q
              /\ length (activeBatches st') < maxConcurrent).
  { intros st0 C0 Ea0 Eq0 Hin0 Hc0.
    destruct (Nat.ltb_spec (length (activeBatches st0)) maxConcurrent) as [Hlt|Hge].
    { exists [], st0. repeat split; auto. }
    assert (Hex : existsb (settled st0) (activeBatches st0) = true)
      by (apply existsb_exists; eauto).
    destruct (race_step st0) as [st1|] eqn:E.
    2:{ unfold race_step in E. rewrite Ea0, Eq0, Hex in E.
        destruct (Nat.ltb_spec (length (activeBatches st0)) maxConcurrent);
          [lia|discriminate]. }
    destruct (race_step_inv _ _ E) as (_ & _ & Hs & Hq & Hact & Hat & _).
    destruct (same_store st0 st1 Hs) as (_ & Hset & _).
    destruct (probes_reap (activeBatches st0) st1 [])
      as (st' & Hrun & R1 & R2 & R3 & R4).
    { now rewrite app_nil_r. }
    { rewrite Hat. destruct (length (activeBatches st0)) eqn:El; [|reflexivity].
      unfold maxConcurrent in Hge. lia. }
    exists (Race :: repeat Probe (length (activeBatches st0))), st'.
    split.
    { constructor; [now left|]. apply Forall_forall. intros l Hl.
      apply repeat_spec in Hl. now right. }
    cbn [steps step]. rewrite E.
    split; [exact Hrun|]. split; [exact R1|]. split; [congruence|].
    split; [congruence|].
    rewrite R4, app_nil_r.
    pose proof (inv_active _ C0) as Hmax.
    assert (Hsh : length (filter (fun b0 => negb (settled st1 b0)) (activeBatches st0))
                  < length (activeBatches st0)).
    { apply filter_shorter with c; [assumption|]. now rewrite Hset, Hc0. }
    lia. }
  destruct (at_ st) as [|i|] eqn:Ea.
  - now apply Hwake.
  - destruct (inv_reaping _ C i Ea) as [Hpos Hle].
    destruct (probes_reap (firstn i (activeBatches st)) st (skipn i (activeBatches st)))
      as (st1 & Hrun & R1 & R2 & R3 & R4).
    { now rewrite firstn_skipn. }
    { rewrite length_firstn, Nat.min_l by lia. rewrite Ea.
      destruct i; [lia|reflexivity]. }
    rewrite length_firstn, Nat.min_l in Hrun by lia.
    destruct (steps_preserve _ _ _ C Hrun) as [C1 _].
    assert (Hprobes : Forall (fun l => l = Race \/ l = Probe) (repeat Probe i)).
    { apply Forall_forall. intros l Hl. apply repeat_spec in Hl. now right. }
    rewrite <- (firstn_skipn i (activeBatches st)) in Hin.
    apply in_app_iff in Hin as [Hin|Hin].
    + exists (repeat Probe i), st1.
      split; [exact Hprobes|]. split; [exact Hrun|]. split; [exact R1|].
      split; [exact R2|]. split; [congruence|].
      rewrite R4, length_app.
      assert (Hsh : length (filter (fun b0 => negb (settled st b0))
                              (firstn i (activeBatches st)))
                    < length (firstn i (activeBatches st))).
      { apply filter_shorter with c; [assumption|]. now rewrite Hc. }
      pose proof (inv_active _ C) as Hmax.
      rewrite <- (firstn_skipn i (activeBatches st)), length_app in Hmax. lia.
    + destruct (same_store st st1 R2) as (_ & Hset & _).
      destruct (Hwake st1 C1 R1) as (ls2 & st' & F2 & Hrun2 & W1 & W2 & W3 & W4).
      { congruence. }
      { rewrite R4. apply in_app_iff. now right. }
      { now rewrite Hset. }
      exists (repeat Probe i ++ ls2), st'.
      split; [now apply Forall_app|].
      split.
      { clear -Hrun Hrun2. revert st Hrun.
        induction (repeat Probe i) as [|l ls IH]; intros st Hrun; simpl in *.
        - now injection Hrun as ->.
        - destruct (step l st); [now apply IH|discriminate]. }
      split; [exact W1|]. split; [congruence|]. split; [exact W3|exact W4].
  - destruct (inv_finished _ C Ea) as [Hq _]. congruence.
Qed.

(** Batches leave the queue from its head, one with each admission: they
    are started in the order of the partition. *)
Lemma admissions ls : forall st st',
  steps ls st = Some st' ->
  batchQueue st' = skipn (admitted ls) (batchQueue st)
  /\ admitted ls + length (batchQueue st') = length (batchQueue st).
Proof.
  induction ls as [|l ls IH]; intros st st' H; simpl in H.
  - injection H as <-. split; reflexivity.
  - destruct (step l st) as [st1|] eqn:E; [|discriminate].
    destruct (IH _ _ H) as [IH1 IH2].
    destruct l as [now| | |b e now|endTime now]; simpl in E;
      unfold admitted in *; cbn [filter length].
    + destruct (admit_step_inv _ _ _ E) as (b & q & x & _ & Hq & _ & _ & _ & Hq' & _).
      rewrite Hq. rewrite Hq' in IH1, IH2. cbn [skipn length]. split; [assumption|lia].
    + destruct (race_step_inv _ _ E) as (_ & _ & _ & Hq & _).
      rewrite Hq in IH1, IH2. now split.
    + destruct (check_step_inv _ _ E) as (i & b & _ & _ & _ & Hq & _).
      rewrite Hq in IH1, IH2. now split.
    + destruct (settle_step_inv _ _ _ _ _ E) as (x & g & _ & _ & _ & _ & Hq & _).
      rewrite Hq in IH1, IH2. now split.
    + destruct (finish_step_inv _ _ _ _ E) as (_ & Hq & _ & _ & Hq' & _).
      rewrite Hq' in IH1, IH2. rewrite Hq. now split.
Qed.

(** *** The progress figure *)

Lemma progress_of_mono k k' total : k <= k' -> progress_of k total <= progress_of k' total.
Proof.
  intros H. unfold progress_of.
  destruct total as [|t]; [reflexivity|]. apply Nat.Div0.div_le_mono. lia.
Qed.

Lemma progress_of_100 k total :
  0 < total < 200 -> k <= total -> (progress_of k total = 100 <-> k = total).
Proof.
  intros Ht Hk. unfold progress_of. split.
  - intros H. destruct (Nat.eq_dec k total) as [|Hne]; [assumption|].
    assert (Hlt : (200 * k + total) / (2 * total) < 100).
    { apply Nat.Div0.div_lt_upper_bound. nia. }
    lia.
  - intros ->. symmetry. apply Nat.div_unique with (r := total); lia.
Qed.

(** After a batch that was analysed, the published progress is the rounded
    share of the batches that have ended. *)
Lemma settle_analysed_publishes b r now st st' :
  settle_step b (Analysed r) now st = Some st' ->
  overallProgress (processingStatus st')
  = progress_of (completedCount st' + failedCount st') (length (store st))
  /\ completedBatches (processingStatus st') = completedCount st'
  /\ failedBatches (processingStatus st') = failedCount st'.
Proof.
  unfold settle_step. destruct (status_at st b) as [[]|]; try discriminate.
  destruct (result r); [destruct (success r)|]; intros [= <-]; cbn; auto.
Qed.

(** After a batch whose processing threw, nothing is published. *)
Lemma settle_raised_keeps b msg now st st' :
  settle_step b (Raised msg) now st = Some st' ->
  processingStatus st' = processingStatus st
  /\ failedCount st' = S (failedCount st)
  /\ status_at st' b = Some Error.
Proof.
  intros H. destruct (settle_step_inv _ _ _ _ _ H) as (x & g & Hp & Hx & _).
  unfold settle_step in H. rewrite Hp in H. injection H as <-. cbn.
  repeat split. unfold status_at. cbn. now rewrite nth_error_update_eq, Hx.
Qed.

(** In a run without exceptions the published figures follow the counters. *)
Lemma step_published total l st st' :
  published total st -> no_exception [l] = true -> step l st = Some st' ->
  published total st'.
Proof.
  intros [P1 P2 P3] Hl H. destruct l as [now| | |b e now|endTime now]; simpl in H.
  - destruct (admit_step_inv _ _ _ H)
      as (b & q & x & Ha & Hq & _ & Hx & Hs & Hq' & _ & Ha' & Hc & Hf & Hp).
    assert (Hfig : completedBatches (processingStatus st')
                   = completedBatches (processingStatus st)
                   /\ failedBatches (processingStatus st')
                      = failedBatches (processingStatus st)).
    { unfold admit_step in H. rewrite Ha, Hq, Hx in H.
      destruct (length (activeBatches st) <? maxConcurrent); [|discriminate].
      injection H as <-. cbn. auto. }
    constructor.
    + rewrite Hs, length_update. exact P1.
    + rewrite Hc, Hf, Hq'. rewrite Hq in P2. cbn [length] in P2.
      unfold processing in *. rewrite Hs.
      pose proof (processing_update b (begin_processing now) (store st) x Hx) as Hu.
      change (has_status Processing (begin_processing now x)) with true in Hu.
      destruct (has_status Processing x); lia.
    + intros _. rewrite Hc, Hf, Hp. destruct Hfig as [-> ->].
      apply P3. congruence.
  - destruct (race_step_inv _ _ H) as (Ha & _ & Hs & Hq & _ & _ & Hc & Hf & Hp).
    destruct (same_store _ _ Hs) as (_ & _ & S3 & _).
    assert (Hfig : processingStatus st' = processingStatus st).
    { unfold race_step in H. rewrite Ha in H.
      destruct (negb _ && _); [|discriminate]. now injection H as <-. }
    constructor.
    + now rewrite Hs.
    + now rewrite Hc, Hf, Hq, S3.
    + intros _. rewrite Hc, Hf, Hfig. apply P3. congruence.
  - destruct (check_step_inv _ _ H) as (i & b & Ha & Hb & Hs & Hq & _ & _ & Hc & Hf & Hp).
    destruct (same_store _ _ Hs) as (_ & _ & S3 & _).
    assert (Hfig : processingStatus st' = processingStatus st).
    { unfold check_step in H. rewrite Ha, Hb in H. now injection H as <-. }
    constructor.
    + now rewrite Hs.
    + now rewrite Hc, Hf, Hq, S3.
    + intros _. rewrite Hc, Hf, Hfig. apply P3. congruence.
  - destruct e as [r|msg]; [|discriminate].
    destruct (settle_analysed_publishes _ _ _ _ _ H) as (Hp & Hc & Hf).
    destruct (settle_step_inv _ _ _ _ _ H)
      as (x & g & Hst & Hx & Hs & Hg & Hq & _ & _ & Hsum).
    constructor.
    + rewrite Hs, length_update. exact P1.
    + rewrite Hsum, Hq. unfold processing in *. rewrite Hs.
      pose proof (processing_update b g (store st) x Hx) as Hu.
      assert (Hpx : has_status Processing x = true).
      { apply has_status_true. unfold status_at in Hst. rewrite Hx in Hst.
        now injection Hst. }
      assert (Hgx : has_status Processing (g x) = false).
      { unfold has_status. destruct Hg as [-> | ->]; reflexivity. }
      rewrite Hpx, Hgx in Hu. lia.
    + intros _. rewrite Hp, Hc, Hf, P1, Hsum. auto.
  - destruct (finish_step_inv _ _ _ _ H)
      as (_ & Hq & _ & Hs & Hq' & _ & Ha' & Hc & Hf & _).
    destruct (same_store _ _ Hs) as (_ & _ & S3 & _).
    constructor.
    + now rewrite Hs.
    + rewrite Hc, Hf, Hq', S3. rewrite Hq in P2. exact P2.
    + intros Hn. contradiction.
Qed.

Lemma steps_published total ls : forall st st',
  published total st -> no_exception ls = true -> steps ls st = Some st' ->
  published total st'.
Proof.
  induction ls as [|l ls IH]; intros st st' Hp Hl H; simpl in H.
  - now injection H as <-.
  - destruct (step l st) as [st1|] eqn:E; [|discriminate].
    simpl in Hl. apply andb_true_iff in Hl as [Hl1 Hl2].
    apply (IH st1); auto. apply (step_published total l st); auto.
    simpl. now rewrite Hl1.
Qed.

(** For up to 39 batches the exact rounding is the number that the code
    computes in double precision; for 40 batches it is not. *)
Lemma progress_of_in_doubles k total :
  0 < total <= 39 -> k <= total ->
  Doubles.progress k total = Some (BinInt.Z.of_nat (progress_of k total)).
Proof.
  intros Ht Hk.
  assert (Hall : forallb Doubles.exact_for (seq 1 39) = true)
    by (vm_compute; reflexivity).
  rewrite forallb_forall in Hall.
  assert (Hin : In total (seq 1 39)) by (apply in_seq; lia).
  specialize (Hall total Hin). unfold Doubles.exact_for in Hall.
  rewrite forallb_forall in Hall.
  assert (Hk' : In k (seq 0 (S total))) by (apply in_seq; lia).
  specialize (Hall k Hk').
  destruct (Doubles.progress k total) as [z|]; [|discriminate].
  apply BinInt.Z.eqb_eq in Hall. now subst z.
Qed.

Example progress_of_40_batches :
  Doubles.progress 23 40 = Some (BinInt.Z.of_nat 57) /\ progress_of 23 40 = 58.
Proof. split; vm_compute; reflexivity. Qed.

(** X18. When no exception reaches the [catch] block of [processBatch],
    the published progress follows the batches.  For up to 39 batches, until
    the report is made, [overallProgress] is 0 while no batch has ended and
    afterwards the number that [Math.round((totalProcessed / total) * 100)]
    gives in double precision for the batches that have ended, which is
    their exact share in percent rounded to the nearest integer, halves
    upwards; and it is 100 exactly when all batches have ended. *)
Lemma progress_without_exception batches imagesLength now ls st :
  Forall (fun b => batch_status b <> Processing) batches ->
  length batches <= 39 ->
  no_exception ls = true ->
  steps ls (start batches imagesLength now) = Some st ->
  at_ st <> Finished ->
  completedCount st + failedCount st <= length batches
  /\ (completedCount st + failedCount st = 0 ->
      overallProgress (processingStatus st) = 0)
  /\ (0 < completedCount st + failedCount st ->
      Doubles.progress (completedCount st + failedCount st) (length batches)
      = Some (BinInt.Z.of_nat (overallProgress (processingStatus st)))
      /\ overallProgress (processingStatus st)
         = (200 * (completedCount st + failedCount st) + length batches)
           / (2 * length batches))
  /\ (0 < length batches ->
      (overallProgress (processingStatus st) = 100
       <-> completedCount st + failedCount st = length batches)).
Proof.
  intros Hno Hmax Hl Hrun Hnf.
  assert (H0 : published (length batches) (start batches imagesLength now)).
  { constructor; cbn [start store completedCount failedCount batchQueue at_
                        processingStatus completedBatches failedBatches overallProgress].
    - reflexivity.
    - unfold processing. cbn [start store].
      rewrite (no_processing_filter _ Hno), length_seq. simpl. lia.
    - auto. }
  destruct (steps_published _ _ _ _ H0 Hl Hrun) as [P1 P2 P3].
  destruct (P3 Hnf) as (_ & _ & Hp).
  split; [lia|]. split; [|split].
  - intros H. rewrite Hp, H. reflexivity.
  - intros H. rewrite Hp.
    destruct (Nat.eqb_spec (completedCount st + failedCount st) 0); [lia|].
    split; [|reflexivity]. apply progress_of_in_doubles; lia.
  - intros Ht. rewrite Hp.
    destruct (Nat.eqb_spec (completedCount st + failedCount st) 0); [lia|].
    apply progress_of_100; lia.
Qed.

(** Two batches are started and the second is analysed: one of two batches
    has ended, and the progress is 50. *)
Lemma progress_without_exception_witness :
  steps (MoreSamples.both_started ++ MoreSamples.second_analysed)
    (start Samples.two_pending 2 0) = Some MoreSamples.one_of_two
  /\ completedCount MoreSamples.one_of_two + failedCount MoreSamples.one_of_two = 1
  /\ overallProgress (processingStatus MoreSamples.one_of_two) = 50
  /\ Doubles.progress 1 2 = Some (BinInt.Z.of_nat 50)
  /\ (overallProgress (processingStatus MoreSamples.one_of_two) = 100
      <-> completedCount MoreSamples.one_of_two + failedCount MoreSamples.one_of_two
          = length Samples.two_pending).
Proof.
  assert (Hrun : steps (MoreSamples.both_started ++ MoreSamples.second_analysed)
                   (start Samples.two_pending 2 0) = Some MoreSamples.one_of_two)
    by (vm_compute; reflexivity).
  destruct (progress_without_exception Samples.two_pending 2 0
              (MoreSamples.both_started ++ MoreSamples.second_analysed)
              MoreSamples.one_of_two) as (_ & _ & Hd & H100).
  - repeat constructor; discriminate.
  - simpl. lia.
  - reflexivity.
  - exact Hrun.
  - discriminate.
  - split; [exact Hrun|]. split; [reflexivity|]. split; [reflexivity|].
    split; [|apply H100; simpl; lia].
    assert (Hpos : 0 < completedCount MoreSamples.one_of_two
                       + failedCount MoreSamples.one_of_two)
      by (vm_compute; lia).
    destruct (Hd Hpos) as [Hd1 _]. exact Hd1.
Defined.

Lemma progress_of_full total : 0 < total -> progress_of total total = 100.
Proof.
  intros Ht. unfold progress_of. symmetry.
  apply Nat.div_unique with (r := total); lia.
Qed.

Lemma progress_of_le_100 k total : k <= total -> progress_of k total <= 100.
Proof.
  intros Hk. destruct total as [|t].
  - unfold progress_of. rewrite Nat.mul_0_r. simpl. lia.
  - rewrite <- (progress_of_full (S t)) by lia. now apply progress_of_mono.
Qed.

(** In every run, with or without exceptions, the published progress only
    grows. *)
Lemma step_progress_monotone total l st st' :
  progress_bounded total st -> consistent st -> step l st = Some st' ->
  progress_bounded total st'
  /\ overallProgress (processingStatus st) <= overallProgress (processingStatus st').
Proof.
  intros [B1 B2 B3] Hc H. destruct l as [now| | |b e now|endTime now]; simpl in H.
  - destruct (admit_step_inv _ _ _ H)
      as (b & q & x & Ha & Hq & _ & Hx & Hs & Hq' & _ & Ha' & Hcc & Hf & Hp).
    split; [|lia]. constructor.
    + rewrite Hs, length_update. exact B1.
    + rewrite Hcc, Hf, Hq'. rewrite Hq in B2. cbn [length] in B2.
      unfold processing in *. rewrite Hs.
      pose proof (processing_update b (begin_processing now) (store st) x Hx) as Hu.
      change (has_status Processing (begin_processing now x)) with true in Hu.
      destruct (has_status Processing x); lia.
    + intros _. rewrite Hcc, Hf, Hp. apply B3. congruence.
  - destruct (race_step_inv _ _ H) as (Ha & _ & Hs & Hq & _ & _ & Hcc & Hf & Hp).
    destruct (same_store _ _ Hs) as (_ & _ & S3 & _).
    split; [|lia]. constructor.
    + now rewrite Hs.
    + now rewrite Hcc, Hf, Hq, S3.
    + intros _. rewrite Hcc, Hf, Hp. apply B3. congruence.
  - destruct (check_step_inv _ _ H) as (i & b & Ha & Hb & Hs & Hq & _ & _ & Hcc & Hf & Hp).
    destruct (same_store _ _ Hs) as (_ & _ & S3 & _).
    split; [|lia]. constructor.
    + now rewrite Hs.
    + now rewrite Hcc, Hf, Hq, S3.
    + intros _. rewrite Hcc, Hf, Hp. apply B3. congruence.
  - destruct (settle_step_inv _ _ _ _ _ H)
      as (x & g & Hst & Hx & Hs & Hg & Hq & _ & Ha & Hsum).
    assert (Hnf : at_ st <> Finished).
    { intros Hf. destruct (inv_finished _ Hc Hf) as [_ Hact].
      apply (inv_processing _ Hc) in Hst. rewrite Hact in Hst. contradiction. }
    assert (Hcount : completedCount st' + failedCount st' + processing st'
                     + length (batchQueue st') <= total).
    { rewrite Hsum, Hq. unfold processing in *. rewrite Hs.
      pose proof (processing_update b g (store st) x Hx) as Hu.
      assert (Hpx : has_status Processing x = true).
      { apply has_status_true. unfold status_at in Hst. rewrite Hx in Hst.
        now injection Hst. }
      assert (Hgx : has_status Processing (g x) = false).
      { unfold has_status. destruct Hg as [-> | ->]; reflexivity. }
      rewrite Hpx, Hgx in Hu. lia. }
    assert (Hold : overallProgress (processingStatus st)
                   <= progress_of (S (completedCount st + failedCount st)) total).
    { etransitivity; [apply (B3 Hnf)|].
      destruct (completedCount st + failedCount st =? 0); [lia|].
      apply progress_of_mono. lia. }
    assert (Hlen : length (store st') = total) by (rewrite Hs, length_update; exact B1).
    destruct e as [r|msg].
    + destruct (settle_analysed_publishes _ _ _ _ _ H) as (Hp & _ & _).
      rewrite B1, Hsum in Hp. split; [|lia].
      constructor; auto. intros _. rewrite Hp, Hsum. simpl. lia.
    + destruct (settle_raised_keeps _ _ _ _ _ H) as (Hp & _ & _).
      rewrite Hp. split; [|lia].
      constructor; auto. intros _. rewrite Hp, Hsum. simpl. exact Hold.
  - destruct (finish_step_inv _ _ _ _ H)
      as (Ha & Hq & _ & Hs & Hq' & _ & Ha' & Hcc & Hf & Hp).
    destruct (same_store _ _ Hs) as (_ & _ & S3 & _).
    split.
    + constructor.
      * now rewrite Hs.
      * rewrite Hcc, Hf, Hq', S3. rewrite Hq in B2. exact B2.
      * intros Hn. contradiction.
    + rewrite Hp. etransitivity; [apply B3; congruence|].
      destruct (completedCount st + failedCount st =? 0); [lia|].
      apply progress_of_le_100. lia.
Qed.

(** X19. The published progress never goes down in the course of a run,
    whether batches end with an answer or with an exception. *)
Lemma overallProgress_monotone batches imagesLength now ls1 ls2 st1 st2 :
  Forall (fun b => batch_status b <> Processing) batches ->
  steps ls1 (start batches imagesLength now) = Some st1 ->
  steps ls2 st1 = Some st2 ->
  overallProgress (processingStatus st1) <= overallProgress (processingStatus st2).
Proof.
  intros Hno H1 H2.
  destruct (start_consistent batches imagesLength now Hno) as [Hc0 _].
  destruct (steps_preserve _ _ _ Hc0 H1) as [Hc1 _].
  assert (B1 : progress_bounded (length batches) st1).
  { clear H2. revert H1 Hc0.
    assert (B0 : progress_bounded (length batches) (start batches imagesLength now)).
    { constructor; cbn [start store completedCount failedCount batchQueue at_
                          processingStatus overallProgress].
      - reflexivity.
      - unfold processing. cbn [start store].
        rewrite (no_processing_filter _ Hno), length_seq. simpl. lia.
      - simpl. lia. }
    revert B0. generalize (start batches imagesLength now). clear Hc1.
    induction ls1 as [|l ls IH]; intros st B0 H1 Hc0; simpl in H1.
    - now injection H1 as <-.
    - destruct (step l st) as [st'|] eqn:E; [|discriminate].
      destruct (step_progress_monotone _ _ _ _ B0 Hc0 E) as [B' _].
      destruct (step_preserves _ _ _ Hc0 E) as [Hc' _]. eauto. }
  clear H1. revert st1 B1 Hc1 H2.
  induction ls2 as [|l ls IH]; intros st1 B1 Hc1 H2; simpl in H2.
  - injection H2 as <-. lia.
  - destruct (step l st1) as [st'|] eqn:E; [|discriminate].
    destruct (step_progress_monotone _ _ _ _ B1 Hc1 E) as [B' Hle].
    destruct (step_preserves _ _ _ Hc1 E) as [Hc' _].
    specialize (IH _ B' Hc' H2). lia.
Qed.

(** Before and after the second batch is analysed. *)
Lemma overallProgress_monotone_witness :
  exists st1 st2,
    steps MoreSamples.both_started (start Samples.two_pending 2 0) = Some st1
    /\ steps MoreSamples.second_analysed st1 = Some st2
    /\ overallProgress (processingStatus st1) <= overallProgress (processingStatus st2).
Proof.
  eexists. eexists.
  split; [vm_compute; reflexivity|]. split; [vm_compute; reflexivity|].
  apply (overallProgress_monotone Samples.two_pending 2 0
           MoreSamples.both_started MoreSamples.second_analysed).
  - repeat constructor; discriminate.
  - vm_compute. reflexivity.
  - vm_compute. reflexivity.
Defined.

(** C8, on the code.  Two batches are started and the images of the first
    cannot be prepared: the batch becomes ERROR in the [catch] block of
    [processBatch], which counts the failure but publishes nothing.  After
    this terminal transition one of two batches has ended, the rounded share
    is 50, and [overallProgress] is still 0. *)
Theorem progress_not_published_on_exception :
  exists st,
    steps Samples.preparation_fails (start Samples.two_pending 2 0) = Some st
    /\ status_at st 0 = Some Error
    /\ completedCount st + failedCount st = 1
    /\ progress_of (completedCount st + failedCount st) (length Samples.two_pending) = 50
    /\ overallProgress (processingStatus st) = 0
    /\ failedBatches (processingStatus st) = 0.
Proof. eexists. split; [vm_compute; reflexivity|]. vm_compute. repeat split. Qed.

(** C9. In a run that starts with no batch processing, at no moment are
    more than [maxConcurrent] = 3 batches in the PROCESSING state.  Whenever
    the loop is at its head with a batch waiting and fewer than 3 promises
    outstanding, its only step is to start the batch at the head of the
    queue; the queue is what the admissions so far have left of the
    partition.  No run has more than 8 * (number of batches) + 4 steps, and
    until the report is made some step can always be taken, so a run in
    which the batches in flight settle comes to its end, where every batch
    has been admitted and is in a final state.  And a place that frees is
    taken: whenever a batch waits and one of the promises in flight has
    settled, the loop by itself, through the race and the probes and without
    any other batch ending, comes to the point where it starts the batch at
    the head of the queue. *)
Theorem concurrency_bound (batches : list ImageBatch) (imagesLength : nat) (now : N)
    (ls : list label) (st : run) :
  Forall (fun b => batch_status b <> Processing) batches ->
  steps ls (start batches imagesLength now) = Some st ->
  processing st <= 3
  /\ (forall b q t, at_ st = LoopHead -> batchQueue st = b :: q ->
        length (activeBatches st) < 3 ->
        race_step st = None /\ check_step st = None
        /\ exists st', step (Admit t) st = Some st'
                       /\ status_at st' b = Some Processing
                       /\ batchQueue st' = q
                       /\ In b (activeBatches st'))
  /\ batchQueue st = skipn (admitted ls) (seq 0 (length batches))
  /\ length ls <= 8 * length batches + 4
  /\ (at_ st = Finished \/ exists l st', step l st = Some st')
  /\ (at_ st = Finished ->
      admitted ls = length batches
      /\ forall b, b < length batches -> settled st b = true)
  /\ (forall b q c, batchQueue st = b :: q ->
        In c (activeBatches st) -> settled st c = true ->
        exists ls' st',
          Forall (fun l => l = Race \/ l = Probe) ls'
          /\ steps ls' st = Some st'
          /\ store st' = store st
          /\ forall t, exists st'',
               step (Admit t) st' = Some st''
               /\ status_at st'' b = Some Processing
               /\ batchQueue st'' = q).
Proof.
  intros Hno Hrun.
  destruct (admissions _ _ _ Hrun) as [Hadm Hcnt].
  cbn [start batchQueue] in Hadm, Hcnt. rewrite length_seq in Hcnt.
  destruct (start_consistent batches imagesLength now Hno) as [Hc0 Hv0].
  destruct (steps_preserve _ _ _ Hc0 Hrun) as [Hc Hv].
  pose proof (steps_store_length _ _ _ Hrun) as Hlen. cbn [start store] in Hlen.
  split.
  { etransitivity; [apply processing_le_active, (inv_processing _ Hc)|].
    apply (inv_active _ Hc). }
  split.
  { intros b q t Ea Eq Hlt. now apply free_slot_admits. }
  split; [assumption|].
  split; [lia|]. split.
  { destruct (at_ st) eqn:Ea; [right|right|now left];
      apply step_enabled; auto; congruence. }
  split.
  { intros Hf. destruct (inv_finished _ Hc Hf) as [Eq Eact].
    split; [rewrite Eq in Hcnt; simpl in Hcnt; lia|].
    intros b Hb. rewrite <- Hlen in Hb.
    destruct (inv_accounted _ Hc b Hb) as [Hin|[Hin|Hs]]; [| |assumption].
    - rewrite Eq in Hin. contradiction.
    - rewrite Eact in Hin. contradiction. }
  intros b q c Eq Hin Hset.
  destruct (settled_promise_frees_slot st b q c Hc Eq Hin Hset)
    as (ls' & st' & Hloop & Hrun' & Ha' & Hs' & Hq' & Hfree).
  destruct (steps_preserve _ _ _ Hc Hrun') as [Hc' _].
  exists ls', st'. split; [exact Hloop|]. split; [exact Hrun'|]. split; [exact Hs'|].
  intros t.
  destruct (free_slot_admits st' b q t Hc' Ha' Hq' Hfree)
    as (_ & _ & st'' & Hadmit & Hproc & Hq'' & _).
  eauto.
Qed.

(** Four batches: three are started, the fourth waits.  When the second
    ends while the first and the third are still processing, the loop reaps
    its promise and starts the fourth. *)
Lemma concurrency_bound_witness :
  steps MoreSamples.three_started_second_ended (start MoreSamples.four_pending 4 0)
  = Some MoreSamples.place_freed
  /\ batchQueue MoreSamples.place_freed = [3]
  /\ activeBatches MoreSamples.place_freed = [0; 1; 2]
  /\ processing MoreSamples.place_freed = 2
  /\ processing MoreSamples.place_freed <= 3
  /\ exists ls' st' st'',
       Forall (fun l => l = Race \/ l = Probe) ls'
       /\ steps ls' MoreSamples.place_freed = Some st'
       /\ store st' = store MoreSamples.place_freed
       /\ step (Admit 6) st' = Some st''
       /\ status_at st'' 3 = Some Processing
       /\ batchQueue st'' = [].
Proof.
  assert (Hrun : steps MoreSamples.three_started_second_ended
                   (start MoreSamples.four_pending 4 0)
                 = Some MoreSamples.place_freed) by (vm_compute; reflexivity).
  destruct (concurrency_bound MoreSamples.four_pending 4 0
              MoreSamples.three_started_second_ended MoreSamples.place_freed)
    as (Hmax & _ & _ & _ & _ & _ & Hlive).
  - repeat constructor; discriminate.
  - exact Hrun.
  - split; [exact Hrun|]. split; [reflexivity|]. split; [reflexivity|].
    split; [reflexivity|]. split; [exact Hmax|].
    destruct (Hlive 3 [] 1) as (ls' & st' & Hloop & Hsteps & Hstore & Hadmit).
    + reflexivity.
    + right. left. reflexivity.
    + reflexivity.
    + destruct (Hadmit 6%N) as (st'' & H1 & H2 & H3).
      exists ls', st', st''. repeat split; assumption.
Defined.

End Run.

(* ===================================================================== *)
(** ** Partitioning of arbitrary uploads *)
(* ===================================================================== *)

Section UploadedFiles.
Import ImageProcessor ImageFiles.

Lemma js_eqb_eq a b : JS.eqb a b = true <-> a = b.
Proof. unfold JS.eqb. destruct (list_eq_dec N.eq_dec a b); split; congruence. Qed.

Lemma array_includes_In xs x : array_includes xs x = true <-> In x xs.
Proof.
  unfold array_includes. rewrite existsb_exists. split.
  - intros (y & Hy & E). apply js_eqb_eq in E. now subst.
  - intros H. exists x. split; [assumption|]. now apply js_eqb_eq.
Qed.

Lemma is_valid_true img : is_valid img = true <-> img_status img <> Error.
Proof.
  unfold is_valid. destruct (status_eqb (img_status img) Error) eqn:E; simpl.
  - apply status_eqb_eq in E. split; [discriminate|contradiction].
  - split; [|reflexivity]. intros _ H. apply status_eqb_eq in H. congruence.
Qed.

(** The batches of the loop are not empty, and batch number [k] carries
    the number [k + 1] in its identifier. *)
Lemma createBatches_loop_batches clock v n : 0 < n ->
  forall fuel i acc, length v - i <= fuel -> i = n * length acc ->
  exists bs,
    createBatches_loop fuel clock v n i acc = Some (acc ++ bs)
    /\ Forall (fun b => batch_images b <> []) bs
    /\ forall k b, nth_error bs k = Some b ->
         batch_id b = js "batch-" ++ decimal (length acc + k + 1) ++ js "-"
                        ++ decimalN (clock (length acc + k))
         /\ batch_result b = None /\ batch_error b = None
         /\ batch_startTime b = None /\ batch_endTime b = None.
Proof.
  intros Hn. induction fuel as [|fuel IH]; intros i acc Hfuel Hi; simpl;
    destruct (Nat.ltb_spec i (length v)) as [Hlt|Hge]; try lia.
  - exists []. rewrite app_nil_r. split; [reflexivity|]. split; [constructor|].
    intros [|k] b H; discriminate.
  - destruct (IH (i + n) (acc ++ [new_batch (clock (length acc)) v n i]))
      as (bs & Hrun & Hne & Hid); [lia|rewrite length_app; simpl; lia|].
    exists (new_batch (clock (length acc)) v n i :: bs).
    rewrite Hrun, <- app_assoc. split; [reflexivity|]. split.
    + constructor; [|assumption]. unfold new_batch, slice. cbn [batch_images].
      replace (i + n - i) with n by lia.
      destruct (skipn i v) as [|x rest] eqn:E.
      * apply (f_equal (@length _)) in E. rewrite length_skipn in E. simpl in E. lia.
      * destruct n; [lia|]. discriminate.
    + intros [|k] b H; simpl in H.
      * injection H as <-. unfold new_batch. cbn.
        replace (i / n) with (length acc)
          by (subst i; rewrite Nat.mul_comm, Nat.div_mul; lia).
        rewrite !Nat.add_0_r. repeat split.
      * destruct (Hid k b H) as (E & R). rewrite length_app in E. simpl in E.
        replace (length acc + S k) with (length acc + 1 + k) by lia.
        split; [exact E|]. exact R.
  - exists []. rewrite app_nil_r. split; [reflexivity|]. split; [constructor|].
    intros [|k] b H; discriminate.
Qed.

(** With the configured size 20 the loop of [createBatches] ends for every
    list of uploads, and its batches are fresh. *)
Lemma createBatches_default clock images :
  exists batches,
    createBatches clock images DEFAULT_CONFIG.batchSize = Some batches
    /\ concat (map batch_images batches) = filter is_valid images
    /\ length batches = ceil_div (length (filter is_valid images)) 20
    /\ Forall (fun b =>
         0 < length (batch_images b) <= 20
         /\ batch_status b = Pending /\ batch_result b = None /\ batch_error b = None
         /\ batch_startTime b = None /\ batch_endTime b = None) batches.
Proof.
  unfold createBatches, DEFAULT_CONFIG.batchSize.
  set (v := filter is_valid images).
  destruct (createBatches_loop_spec clock v 20 ltac:(lia) (length v) 0 [])
    as (bs & Hrun & Hcat & Hlen & Hle & _ & Hpend); [lia|].
  destruct (createBatches_loop_batches clock v 20 ltac:(lia) (length v) 0 [])
    as (bs' & Hrun' & Hne & Hid); [lia|reflexivity|].
  rewrite Hrun in Hrun'. injection Hrun' as <-.
  exists bs. simpl in Hrun. rewrite Hrun. rewrite Nat.sub_0_r in Hlen.
  split; [reflexivity|]. split; [exact Hcat|]. split; [exact Hlen|].
  apply Forall_forall. intros b Hb.
  rewrite Forall_forall in Hle, Hne, Hpend.
  split.
  { specialize (Hne b Hb). specialize (Hle b Hb).
    destruct (batch_images b); [contradiction|simpl in *; lia]. }
  split; [now apply Hpend|].
  apply In_nth_error in Hb as (k & Hk). now destruct (Hid k b Hk) as (_ & R).
Qed.

Lemma batched_images_valid images batches b :
  concat (map batch_images batches) = filter is_valid images ->
  In b batches ->
  Forall (fun img => img_status img <> Error) (batch_images b).
Proof.
  intros Hcat Hb. apply Forall_forall. intros img Himg. apply is_valid_true.
  assert (Hin : In img (filter is_valid images)).
  { rewrite <- Hcat. apply in_concat.
    exists (batch_images b). split; [now apply in_map|assumption]. }
  apply filter_In in Hin. tauto.
Qed.

(** X1. Whatever the uploads are, [createBatches] with the configured
    size 20 returns batches whose images, in order, are exactly the uploads
    that are not in error; there are ceil(V/20) of them for V such uploads,
    each holds between 1 and 20 images, none of them in error, and each is
    pending without result, error or times. *)
Theorem createBatches_valid_only (clock : nat -> N) (images : list UploadedImage) :
  exists batches,
    createBatches clock images DEFAULT_CONFIG.batchSize = Some batches
    /\ concat (map batch_images batches) = filter is_valid images
    /\ length batches = ceil_div (length (filter is_valid images)) 20
    /\ Forall (fun b =>
         0 < length (batch_images b) <= 20
         /\ Forall (fun img => img_status img <> Error) (batch_images b)
         /\ batch_status b = Pending /\ batch_result b = None /\ batch_error b = None
         /\ batch_startTime b = None /\ batch_endTime b = None) batches.
Proof.
  destruct (createBatches_default clock images) as (bs & Hrun & Hcat & Hlen & Hall).
  exists bs. repeat (split; [assumption|]).
  rewrite Forall_forall in Hall. apply Forall_forall. intros b Hb.
  destruct (Hall b Hb) as (Hsize & Hfresh).
  split; [exact Hsize|]. split; [|exact Hfresh].
  exact (batched_images_valid images bs b Hcat Hb).
Qed.

(** X2. Every batch that [createBatches] makes passes [validateBatchForAPI]. *)
Theorem created_batches_pass_validation (clock : nat -> N) (images : list UploadedImage) :
  exists batches,
    createBatches clock images DEFAULT_CONFIG.batchSize = Some batches
    /\ Forall (fun b => validateBatchForAPI b
                        = {| valid := true; validation_error := None |}) batches.
Proof.
  destruct (createBatches_default clock images) as (bs & Hrun & Hcat & _ & Hall).
  exists bs. split; [assumption|].
  rewrite Forall_forall in Hall. apply Forall_forall. intros b Hb.
  destruct (Hall b Hb) as ((Hpos & Hle) & _).
  pose proof (batched_images_valid images bs b Hcat Hb) as Hok.
  unfold validateBatchForAPI.
  destruct (Nat.eqb_spec (length (batch_images b)) 0); [lia|].
  unfold DEFAULT_CONFIG.batchSize.
  destruct (Nat.ltb_spec 20 (length (batch_images b))); [lia|].
  assert (Hnone : filter (fun img => status_eqb (img_status img) Error) (batch_images b) = []).
  { clear -Hok. induction Hok as [|img l Himg _ IH]; simpl; [reflexivity|].
    destruct (status_eqb (img_status img) Error) eqn:E; [|assumption].
    apply status_eqb_eq in E. contradiction. }
  rewrite Hnone. reflexivity.
Qed.

(** X4. The estimate of [estimateProcessingTime] for the valid uploads is
    30 seconds for each batch that [createBatches] makes of them. *)
Theorem estimate_is_30s_per_batch (clock : nat -> N) (images : list UploadedImage) :
  exists batches,
    createBatches clock images DEFAULT_CONFIG.batchSize = Some batches
    /\ estimateProcessingTime (length (filter is_valid images)) = 30 * length batches.
Proof.
  destruct (createBatches_default clock images) as (bs & Hrun & _ & Hlen & _).
  exists bs. split; [assumption|].
  unfold estimateProcessingTime, DEFAULT_CONFIG.batchSize. rewrite Hlen. lia.
Qed.

(** *** Identifiers *)

Lemma js_inj s t : js s = js t -> s = t.
Proof.
  unfold js. intros H.
  rewrite <- (string_of_list_ascii_of_string s), <- (string_of_list_ascii_of_string t).
  f_equal. revert H. generalize (list_ascii_of_string s) (list_ascii_of_string t).
  induction l as [|a l IH]; intros [|b l'] H; try discriminate; [reflexivity|].
  simpl in H. injection H as Hab Hl. f_equal; [|now apply IH].
  rewrite <- (ascii_N_embedding a), <- (ascii_N_embedding b). now f_equal.
Qed.

Lemma decimal_inj a b : decimal a = decimal b -> a = b.
Proof.
  unfold decimal. intros H. apply js_inj in H.
  assert (Hparse : forall n,
            option_map Nat.of_uint
              (NilZero.uint_of_string (NilZero.string_of_uint (Nat.to_uint n))) = Some n).
  { intros n. pose proof (DecimalNat.Unsigned.of_to n) as Hn.
    destruct (Nat.to_uint n) eqn:E;
      try (rewrite NilZero.usu by discriminate; simpl; now rewrite Hn).
    rewrite NilZero.usu_nil. simpl in *. now rewrite <- Hn. }
  pose proof (Hparse a) as Ha. rewrite H, Hparse in Ha. now injection Ha.
Qed.

Lemma decimal_digits n : Forall (fun c => is_digit c = true) (decimal n).
Proof.
  unfold decimal. generalize (Nat.to_uint n). intros u.
  assert (Hu : Forall (fun c => is_digit c = true) (js (NilEmpty.string_of_uint u)))
    by (induction u; simpl; repeat constructor; assumption).
  destruct u; [repeat constructor|exact Hu..].
Qed.

Lemma digits_then_dash u v x y :
  Forall (fun c => is_digit c = true) u -> Forall (fun c => is_digit c = true) v ->
  u ++ js "-" ++ x = v ++ js "-" ++ y -> u = v.
Proof.
  intros Hu. revert v. induction Hu as [|c u Hc _ IH]; intros v Hv H.
  - destruct Hv as [|d v Hd _]; [reflexivity|].
    simpl in H. injection H as <- _. discriminate.
  - destruct Hv as [|d v Hd Hv].
    + simpl in H. injection H as -> _. discriminate.
    + simpl in H. injection H as <- H. f_equal. now apply IH.
Qed.

(** X3. The identifiers of the batches that [createBatches] makes are
    pairwise distinct, whatever the clock reads: batch number [k] is named
    ["batch-(k+1)-(time)"]. *)
Theorem batch_ids_distinct (clock : nat -> N) (images : list UploadedImage) :
  exists batches,
    createBatches clock images DEFAULT_CONFIG.batchSize = Some batches
    /\ NoDup (map batch_id batches)
    /\ forall k b, nth_error batches k = Some b ->
         batch_id b = js "batch-" ++ decimal (k + 1) ++ js "-" ++ decimalN (clock k).
Proof.
  unfold createBatches, DEFAULT_CONFIG.batchSize.
  set (v := filter is_valid images).
  destruct (createBatches_loop_batches clock v 20 ltac:(lia) (length v) 0 [])
    as (bs & Hrun & _ & Hid); [lia|reflexivity|].
  exists bs. split; [exact Hrun|].
  assert (Hk : forall k b, nth_error bs k = Some b ->
             batch_id b = js "batch-" ++ decimal (k + 1) ++ js "-" ++ decimalN (clock k)).
  { intros k b H. now destruct (Hid k b H) as (E & _). }
  split; [|exact Hk].
  apply NoDup_nth_error. intros i j Hi Hij.
  rewrite length_map in Hi. rewrite !nth_error_map in Hij.
  destruct (nth_error bs i) as [bi|] eqn:Ei; [|apply nth_error_None in Ei; lia].
  destruct (nth_error bs j) as [bj|] eqn:Ej; [|discriminate].
  simpl in Hij. injection Hij as Hij.
  rewrite (Hk _ _ Ei), (Hk _ _ Ej) in Hij.
  apply app_inv_head in Hij.
  apply digits_then_dash in Hij; try apply decimal_digits.
  apply decimal_inj in Hij. lia.
Qed.

(** *** Validation of uploads *)

Lemma validateImage_valid limit file :
  valid (validateImage limit file) = true <->
  In (file_type file) allowedTypes /\ (0 < file_size file <= maxFileSize)%N.
Proof.
  unfold validateImage.
  destruct (array_includes allowedTypes (file_type file)) eqn:Et; cbn [negb valid].
  - apply array_includes_In in Et.
    destruct (N.ltb_spec maxFileSize (file_size file)); cbn [valid].
    + split; [discriminate|]. intros [_ H']. lia.
    + destruct (N.eqb_spec (file_size file) 0); cbn [valid].
      * split; [discriminate|]. intros [_ H']. lia.
      * split; [|reflexivity]. intros _. split; [assumption|lia].
  - split; [discriminate|]. intros [H' _]. apply array_includes_In in H'. congruence.
Qed.

Lemma validateImage_error limit file :
  valid (validateImage limit file) = false -> validation_error (validateImage limit file) <> None.
Proof.
  unfold validateImage.
  destruct (array_includes allowedTypes (file_type file)); simpl; [|discriminate].
  destruct (maxFileSize <? file_size file)%N; simpl; [discriminate|].
  destruct (file_size file =? 0)%N; simpl; discriminate.
Qed.

(** X5. [processUploadedFiles] answers with one image for each file, in
    the order of the files, with the name, type and size of the file.  The
    image is pending exactly when the type of the file is one of the six
    allowed types, its size is between 1 byte and 50MB, and its preview
    could be made; otherwise it is in error, with an error text. *)
Theorem processUploadedFiles_statuses (limit : jsstring) (preview : File -> option jsstring)
    (entropy : nat -> N * jsstring) (files : list File) :
  Forall2 (fun file img =>
      img_file img = file_handle file /\ img_name img = file_name file
      /\ img_type img = file_type file /\ img_size img = N.to_nat (file_size file)
      /\ (img_status img = Pending \/ img_status img = Error)
      /\ (img_status img = Pending <->
          In (file_type file) allowedTypes
          /\ (0 < file_size file <= maxFileSize)%N
          /\ preview file <> None)
      /\ (img_status img = Error -> img_error img <> None))
    files (processUploadedFiles limit preview entropy files).
Proof.
  unfold processUploadedFiles. generalize 0.
  induction files as [|file files IH]; intros k; simpl; constructor; [|apply IH].
  unfold processFile.
  pose proof (validateImage_valid limit file) as Hv.
  pose proof (validateImage_error limit file) as He.
  destruct (preview file) as [url|];
    cbn [img_file img_name img_type img_size img_status img_error].
  - destruct (valid (validateImage limit file)) eqn:Ev.
    + destruct (proj1 Hv eq_refl) as [H1 H2].
      split; [reflexivity|]. split; [reflexivity|]. split; [reflexivity|].
      split; [reflexivity|]. split; [now left|]. split; [|discriminate].
      split; [|reflexivity]. intros _. repeat split; try apply H2; [assumption|discriminate].
    + split; [reflexivity|]. split; [reflexivity|]. split; [reflexivity|].
      split; [reflexivity|]. split; [now right|]. split; [|intros _; now apply He].
      split; [discriminate|].
      intros (H1 & H2 & _). assert (X : false = true) by (apply Hv; auto).
      discriminate X.
  - split; [reflexivity|]. split; [reflexivity|]. split; [reflexivity|].
    split; [reflexivity|]. split; [now right|]. split; [|discriminate].
    split; [discriminate|]. intros (_ & _ & H). now contradiction H.
Qed.

(** *** Preparation of a batch *)

Lemma prepareImages_spec fileToBase64 images : forall apiImages,
  (forall l, prepareImages fileToBase64 images apiImages = inl l <->
     exists added,
       l = apiImages ++ added
       /\ Forall2 (fun img a => fileToBase64 (img_file img) = Some (api_data a)
                                /\ api_name a = img_name img
                                /\ api_type a = img_type img) images added)
  /\ (forall msg, prepareImages fileToBase64 images apiImages = inr msg <->
        exists pre img post,
          images = pre ++ img :: post
          /\ Forall (fun i => fileToBase64 (img_file i) <> None) pre
          /\ fileToBase64 (img_file img) = None
          /\ msg = js "Failed to prepare image " ++ img_name img ++ js " for analysis").
Proof.
  induction images as [|img images IH]; intros apiImages; simpl.
  - split.
    + intros l. split.
      * intros [= <-]. exists []. rewrite app_nil_r. split; [reflexivity|constructor].
      * intros (added & -> & H). inversion H. now rewrite app_nil_r.
    + intros msg. split; [discriminate|].
      intros ([|? ?] & ? & ? & H & _); discriminate.
  - destruct (fileToBase64 (img_file img)) as [data|] eqn:E.
    + destruct (IH (apiImages ++ [{| api_name := img_name img; api_data := data;
                                     api_type := img_type img |}])) as [IHl IHr].
      split.
      * intros l. rewrite IHl. split.
        -- intros (added & -> & H). eexists (_ :: added). rewrite <- app_assoc.
           split; [reflexivity|]. constructor; [|assumption]. cbn. auto.
        -- intros (added & -> & H). inversion H as [|? a ? added' (Ha & Hn & Ht) H']; subst.
           exists added'. rewrite <- app_assoc. split; [|assumption].
           destruct a as [an ad at_]. cbn in *. rewrite E in Ha. injection Ha as <-.
           now subst.
      * intros msg. rewrite IHr. split.
        -- intros (pre & i & post & -> & Hpre & Hi & ->).
           exists (img :: pre), i, post. repeat split; auto.
           constructor; [congruence|assumption].
        -- intros ([|p pre] & i & post & H & Hpre & Hi & ->); simpl in H;
             injection H as -> ->; [congruence|].
           exists pre, i, post. inversion Hpre; subst. repeat split; auto.
    + split.
      * intros l. split; [discriminate|].
        intros (added & _ & H). inversion H as [|? a ? ? (Ha & _) _]; subst. congruence.
      * intros msg. split.
        -- intros [= <-]. exists [], img, images. repeat split; auto.
        -- intros ([|p pre] & i & post & H & Hpre & Hi & ->); simpl in H;
             injection H as -> ->; [reflexivity|].
           inversion Hpre; subst. congruence.
Qed.

(** X6. [prepareBatchForAPI] is all or nothing.  It returns the array for
    the request exactly when every file of the batch can be read, and then
    the array has one entry for each image, in order, with its name, its
    type and the data that was read.  Otherwise it throws, and the message
    names the first image whose file cannot be read. *)
Theorem prepareBatchForAPI_all_or_nothing (fileToBase64 : nat -> option jsstring)
    (batch : ImageBatch) :
  (forall apiImages, prepareBatchForAPI fileToBase64 batch = inl apiImages <->
     Forall2 (fun img a => fileToBase64 (img_file img) = Some (api_data a)
                           /\ api_name a = img_name img
                           /\ api_type a = img_type img) (batch_images batch) apiImages)
  /\ (forall msg, prepareBatchForAPI fileToBase64 batch = inr msg <->
        exists pre img post,
          batch_images batch = pre ++ img :: post
          /\ Forall (fun i => fileToBase64 (img_file i) <> None) pre
          /\ fileToBase64 (img_file img) = None
          /\ msg = js "Failed to prepare image " ++ img_name img ++ js " for analysis").
Proof.
  unfold prepareBatchForAPI.
  destruct (prepareImages_spec fileToBase64 (batch_images batch) []) as [Hl Hr].
  split; [|exact Hr].
  intros apiImages. rewrite Hl. simpl. split.
  - now intros (added & -> & H).
  - intros H. now exists apiImages.
Qed.

End UploadedFiles.

(* ===================================================================== *)
(** ** Image data and the shape of a request *)
(* ===================================================================== *)

Section Requests.
Import RadiologyAPIClient ImageData.

Lemma padding_then_end_spec s :
  padding_then_end s = true <-> s = [] \/ s = js "=" \/ s = js "==".
Proof.
  change (js "=") with [61%N]. change (js "==") with [61%N; 61%N].
  destruct s as [|a [|b [|c s]]]; cbn [padding_then_end].
  - split; auto.
  - rewrite N.eqb_eq. split.
    + intros ->. right. now left.
    + intros [H|[H|H]]; try discriminate. now injection H.
  - rewrite andb_true_iff, !N.eqb_eq. split.
    + intros [-> ->]. right. now right.
    + intros [H|[H|H]]; try discriminate. injection H as -> ->. auto.
  - split; [discriminate|]. intros [H|[H|H]]; discriminate.
Qed.

Lemma base64Pattern_test_spec s :
  base64Pattern_test s = true <->
  exists body padding,
    s = body ++ padding
    /\ Forall (fun c => is_base64_char c = true) body
    /\ (padding = [] \/ padding = js "=" \/ padding = js "==").
Proof.
  induction s as [|c s IH].
  - simpl. split; [|reflexivity]. intros _. exists [], []. auto.
  - cbn [base64Pattern_test]. destruct (is_base64_char c) eqn:Ec.
    + rewrite IH. split.
      * intros (body & padding & -> & Hb & Hp). exists (c :: body), padding. auto.
      * intros ([|b body] & padding & Hs & Hb & Hp).
        -- simpl in Hs. subst padding.
           destruct Hp as [H|[H|H]]; try discriminate H;
             cbv in H; injection H as Hc _; rewrite Hc in Ec; cbv in Ec;
             discriminate Ec.
        -- simpl in Hs. injection Hs as <- ->. inversion Hb; subst.
           exists body, padding. auto.
    + rewrite padding_then_end_spec. split.
      * intros H. exists [], (c :: s). auto.
      * intros ([|b body] & padding & Hs & Hb & Hp).
        -- simpl in Hs. now subst padding.
        -- simpl in Hs. injection Hs as <- ->. inversion Hb; subst. congruence.
Qed.

Lemma validateImageData_type imageData type :
  validateImageData imageData type = true ->
  ImageFiles.array_includes allowedTypes type = true.
Proof.
  unfold validateImageData.
  destruct (base64Pattern_test (strip_white_space imageData)); cbn [negb];
    [|discriminate].
  destruct (ImageFiles.array_includes allowedTypes type); cbn [negb];
    [reflexivity|discriminate].
Qed.

(** X7. [validateImageData] accepts exactly the data that, once white
    space is removed, is a run of base64 characters followed by at most two
    [=], comes with one of the types jpeg, png, tiff or bmp, and is at most
    4/3 of 50MB long. *)
Theorem validateImageData_accepts (imageData type : jsstring) :
  validateImageData imageData type = true <->
  (exists body padding,
     strip_white_space imageData = body ++ padding
     /\ Forall (fun c => is_base64_char c = true) body
     /\ (padding = [] \/ padding = js "=" \/ padding = js "=="))
  /\ In type [js "image/jpeg"; js "image/png"; js "image/tiff"; js "image/bmp"]
  /\ (N.of_nat (length imageData) * 3 <= 4 * 52428800)%N.
Proof.
  unfold validateImageData. rewrite <- base64Pattern_test_spec.
  destruct (base64Pattern_test (strip_white_space imageData)); cbn [negb];
    [|split; [discriminate|intros (H & _); discriminate]].
  destruct (ImageFiles.array_includes allowedTypes type) eqn:Et; cbn [negb].
  - apply array_includes_In in Et.
    destruct (N.ltb_spec (4 * (50 * 1024 * 1024)) (N.of_nat (length imageData) * 3)).
    + split; [discriminate|]. intros (_ & _ & H'). lia.
    + split; [|reflexivity]. intros _. split; [reflexivity|]. split; [exact Et|lia].
  - split; [discriminate|]. intros (_ & H' & _).
    apply array_includes_In in H'. unfold allowedTypes in Et. congruence.
Qed.

(** X8. The two DICOM types that [validateImage] accepts at upload are
    refused by [validateImageData], whatever the data. *)
Theorem dicom_accepted_then_refused (limit : jsstring) (file : ImageFiles.File)
    (imageData : jsstring) :
  ImageFiles.file_type file = js "application/dicom"
  \/ ImageFiles.file_type file = js "image/dicom" ->
  (0 < ImageFiles.file_size file <= ImageFiles.maxFileSize)%N ->
  ImageFiles.valid (ImageFiles.validateImage limit file) = true
  /\ validateImageData imageData (ImageFiles.file_type file) = false.
Proof.
  intros Ht Hs. split.
  - apply validateImage_valid. split; [|assumption].
    unfold ImageFiles.allowedTypes. destruct Ht as [-> | ->]; simpl; auto 10.
  - destruct (validateImageData imageData (ImageFiles.file_type file)) eqn:E;
      [|reflexivity].
    apply validateImageData_type in E.
    destruct Ht as [Ht|Ht]; rewrite Ht in E; vm_compute in E; discriminate E.
Qed.

(** A DICOM file of 1 KB. *)
Lemma dicom_accepted_then_refused_witness :
  ImageFiles.valid
    (ImageFiles.validateImage (js "50 MB") MoreSamples.dicom_file) = true
  /\ validateImageData (js "AAAA") (ImageFiles.file_type MoreSamples.dicom_file) = false.
Proof.
  apply (dicom_accepted_then_refused (js "50 MB") MoreSamples.dicom_file (js "AAAA")).
  - left. reflexivity.
  - cbv. split; [reflexivity|discriminate].
Defined.

(** *** The requests of one submission *)

Lemma makeAPIRequest_rec_shape server :
  forall fuel retryCount, MAX_RETRIES - retryCount < fuel ->
  exists n,
    retryCount + n <= Nat.max retryCount MAX_RETRIES
    /\ makeAPIRequest_rec fuel server retryCount
       = Some (schedule retryCount n, perform (server (retryCount + n)))
    /\ (forall k, k < n ->
          exists e, perform (server (retryCount + k)) = Threw e
                    /\ isRetryableError e = true)
    /\ (retryCount + n < MAX_RETRIES ->
        forall e, perform (server (retryCount + n)) = Threw e ->
                  isRetryableError e = false).
Proof.
  induction fuel as [|fuel IH]; intros rc Hfuel; [lia|].
  cbn [makeAPIRequest_rec].
  destruct (perform (server rc)) as [b|e] eqn:Ep.
  - exists 0. rewrite Nat.add_0_r, Ep. cbn [schedule].
    split; [lia|]. split; [reflexivity|]. split; [intros k Hk; lia|]. discriminate.
  - destruct (Nat.ltb_spec rc MAX_RETRIES) as [Hlt|Hge]; cbn [andb].
    + destruct (isRetryableError e) eqn:Er.
      * destruct (IH (rc + 1)) as (n & Hn & Hrun & Hbefore & Hlast); [lia|].
        exists (S n). rewrite Hrun.
        replace (rc + S n) with (rc + 1 + n) by lia.
        replace (rc + 1) with (S rc) in * by lia.
        split; [lia|]. split; [reflexivity|]. split; [|exact Hlast].
        intros [|k] Hk.
        -- rewrite Nat.add_0_r. eauto.
        -- replace (rc + S k) with (S rc + k) by lia. apply Hbefore. lia.
      * exists 0. rewrite Nat.add_0_r, Ep. cbn [schedule].
        split; [lia|]. split; [reflexivity|]. split; [intros k Hk; lia|].
        intros _ e' [= <-]. exact Er.
    + exists 0. rewrite Nat.add_0_r, Ep. cbn [schedule].
      split; [lia|]. split; [reflexivity|]. split; [intros k Hk; lia|]. lia.
Qed.

Lemma makeAPIRequest_runs server :
  exists n,
    n <= 3 /\ makeAPIRequest server 0 = Some (schedule 0 n, perform (server n)).
Proof.
  destruct (makeAPIRequest_rec_shape server (S (MAX_RETRIES - 0)) 0)
    as (n & Hn & Hrun & _); [lia|].
  exists n. unfold MAX_RETRIES in *. simpl in Hn. split; [lia|exact Hrun].
Qed.

(** X9. Whatever the service does, [makeAPIRequest] sends the requests
    0 .. n for some n <= 3, with a delay of 2^k seconds after request k,
    and ends as its last request ends.  Every request before the last threw
    a retryable error, and the last one did not, unless it was the fourth. *)
Theorem makeAPIRequest_shape (server : nat -> attempt) :
  exists n,
    n <= 3
    /\ makeAPIRequest server 0 = Some (schedule 0 n, perform (server n))
    /\ (forall k, k < n ->
          exists e, perform (server k) = Threw e /\ isRetryableError e = true)
    /\ (n < 3 -> forall e, perform (server n) = Threw e -> isRetryableError e = false).
Proof.
  destruct (makeAPIRequest_rec_shape server (S (MAX_RETRIES - 0)) 0)
    as (n & Hn & Hrun & Hbefore & Hlast); [lia|].
  exists n. unfold MAX_RETRIES in *. simpl in Hn.
  split; [lia|]. split; [exact Hrun|]. split; [exact Hbefore|exact Hlast].
Qed.

Lemma schedule_effort n : forall retryCount,
  requests (schedule retryCount n) = S n
  /\ waiting (schedule retryCount n)
     = (1000 * (2 ^ N.of_nat (retryCount + n) - 2 ^ N.of_nat retryCount))%N.
Proof.
  induction n as [|n IH]; intros rc.
  - rewrite Nat.add_0_r, N.sub_diag. split; reflexivity.
  - destruct (IH (S rc)) as [IH1 IH2]. unfold requests in *.
    cbn [schedule filter length waiting]. rewrite IH1, IH2. split; [reflexivity|].
    replace (rc + S n) with (S rc + n) by lia.
    assert (Hpow : (2 ^ N.of_nat (S rc) = 2 * 2 ^ N.of_nat rc)%N)
      by (rewrite Nat2N.inj_succ, N.pow_succ_r'; reflexivity).
    assert (Hle : (2 ^ N.of_nat (S rc) <= 2 ^ N.of_nat (S rc + n))%N)
      by (apply N.pow_le_mono_r; lia).
    rewrite Hpow in *.
    remember (2 ^ N.of_nat rc)%N as A. remember (2 ^ N.of_nat (S rc + n))%N as B.
    lia.
Qed.

(** X10. [analyzeImageBatch] always answers.  It never sends more than 4
    requests nor waits more than 7 seconds between them in total, and for a
    batch of no image or of more than 20 images it sends no request at all
    and answers with a failure. *)
Theorem analyzeImageBatch_effort (server : nat -> attempt) (images : nat)
    (requestBatchId : jsstring) (elapsed : N) :
  exists events response,
    analyzeImageBatch server images requestBatchId elapsed = Some (events, response)
    /\ requests events <= 4 /\ (waiting events <= 7000)%N
    /\ (images = 0 \/ 20 < images -> events = [] /\ success response = false).
Proof.
  unfold analyzeImageBatch.
  destruct (Nat.eqb_spec images 0) as [H0|H0].
  { eexists _, _. split; [reflexivity|]. cbn. repeat split; lia. }
  destruct (Nat.ltb_spec 20 images) as [H20|H20].
  { eexists _, _. split; [reflexivity|]. cbn. repeat split; lia. }
  destruct (makeAPIRequest_runs server) as (n & Hn & Hrun).
  destruct (schedule_effort n 0) as [Hreq Hwait].
  assert (Hw : (waiting (schedule 0 n) <= 7000)%N).
  { rewrite Hwait. simpl (0 + n).
    assert (Hp : (2 ^ N.of_nat n <= 2 ^ 3)%N) by (apply N.pow_le_mono_r; lia).
    change (2 ^ 3)%N with 8%N in Hp. change (2 ^ N.of_nat 0)%N with 1%N. lia. }
  rewrite Hrun.
  destruct (perform (server n)) as [[typeError|[text|]]|e];
    try destruct (truthy text);
    eexists _, _; (split; [reflexivity|]);
    rewrite Hreq; repeat split; try lia; try exact Hw.
Qed.

(** X11. The answer of [analyzeImageBatch] is either a success that
    carries the parsed result of a non-empty text, for a batch of 1 to 20
    images, with the identifier and the image count of the request and
    without error, or a failure with the code ANALYSIS_FAILED and no
    result. *)
Theorem analyzeImageBatch_answer (server : nat -> attempt) (images : nat)
    (requestBatchId : jsstring) (elapsed : N) :
  exists events response,
    analyzeImageBatch server images requestBatchId elapsed = Some (events, response)
    /\ ((success response = true
         /\ 0 < images <= 20
         /\ error_ response = None
         /\ exists analysisText,
              analysisText <> []
              /\ result response
                 = Some (parseAnalysisResponse analysisText requestBatchId images elapsed)
              /\ exists n, n <= 3 /\ perform (server n) = Returned (Content (Some analysisText)))
        \/ (success response = false
            /\ result response = None
            /\ exists message,
                 error_ response
                 = Some {| code := js "ANALYSIS_FAILED"; err_message := message |})).
Proof.
  unfold analyzeImageBatch.
  destruct (Nat.eqb_spec images 0) as [H0|H0].
  { eexists _, _. split; [reflexivity|]. right. cbn. eauto. }
  destruct (Nat.ltb_spec 20 images) as [H20|H20].
  { eexists _, _. split; [reflexivity|]. right. cbn. eauto. }
  destruct (makeAPIRequest_runs server) as (n & Hn & Hrun).
  rewrite Hrun.
  destruct (perform (server n)) as [[typeError|[text|]]|e] eqn:Ep;
    try (eexists _, _; split; [reflexivity|]; right; cbn; now eauto).
  destruct text as [|c text]; cbn [truthy].
  - eexists _, _. split; [reflexivity|]. right. cbn. eauto.
  - eexists _, _. split; [reflexivity|]. left. cbn.
    split; [reflexivity|]. split; [lia|]. split; [reflexivity|].
    exists (c :: text). split; [discriminate|]. split; [reflexivity|]. eauto.
Qed.

End Requests.

(* ===================================================================== *)
(** ** The books of a run *)
(* ===================================================================== *)

Section Books.
Import RadiologyAPIClient UseUpload Ledger.

Lemma step_effect l st st' : step l st = Some st' -> effect st st'.
Proof.
  destruct l as [now| | |b e now|endTime now]; simpl; intros H.
  - unfold admit_step in H.
    destruct (at_ st) eqn:Ea; try discriminate.
    destruct (batchQueue st) as [|b q] eqn:Eq; try discriminate.
    destruct (length (activeBatches st) <? maxConcurrent); try discriminate.
    destruct (nth_error (store st) b) as [x|] eqn:Ex; try discriminate.
    injection H as <-. eapply Started; cbn; eauto. discriminate.
  - unfold race_step in H.
    destruct (at_ st) eqn:Ea; try discriminate.
    destruct (negb _ && _); try discriminate.
    injection H as <-. apply Looped; cbn; auto. discriminate.
  - unfold check_step in H.
    destruct (at_ st) as [|[|i]|] eqn:Ea; try discriminate.
    destruct (nth_error (activeBatches st) i) as [b|]; try discriminate.
    injection H as <-. apply Looped; cbn; auto. destruct i; discriminate.
  - unfold settle_step in H.
    destruct (status_at st b) as [[]|] eqn:Es; try discriminate.
    assert (Hx : exists x, nth_error (store st) b = Some x).
    { unfold status_at in Es. destruct (nth_error (store st) b) as [x|]; [eauto|discriminate]. }
    destruct Hx as (x & Hx). destruct e as [r|msg].
    + destruct (result r) as [res|]; [destruct (success r)|]; injection H as <-.
      * eapply (Ended _ _ b x (complete res now)); cbn; auto.
      * eapply (Ended _ _ b x (fail _ now)); cbn; auto.
      * eapply (Ended _ _ b x (fail _ now)); cbn; auto.
    + injection H as <-. eapply (Ended _ _ b x (fail msg now)); cbn; auto.
  - unfold finish_step in H.
    destruct (at_ st) eqn:Ea; try discriminate.
    destruct (batchQueue st) eqn:Eq; try discriminate.
    destruct (activeBatches st) eqn:Eb; try discriminate.
    injection H as <-. eapply (Reported _ _ endTime now); cbn; auto.
Qed.


Lemma deref_same st st' l :
  (forall b, In b l -> nth_error (store st') b = nth_error (store st) b) ->
  deref st' l = deref st l.
Proof.
  unfold deref. induction l as [|b l IH]; intros H; simpl; [reflexivity|].
  rewrite (H b) by now left. f_equal. apply IH. intros c Hc. apply H. now right.
Qed.

Lemma deref_app st l1 l2 : deref st (l1 ++ l2) = deref st l1 ++ deref st l2.
Proof. unfold deref. apply flat_map_app. Qed.

Lemma deref_length st l :
  (forall b, In b l -> b < length (store st)) -> length (deref st l) = length l.
Proof.
  unfold deref. induction l as [|b l IH]; intros H; simpl; [reflexivity|].
  assert (Hb : b < length (store st)) by (apply H; now left).
  apply nth_error_Some in Hb.
  destruct (nth_error (store st) b); [|contradiction].
  simpl. f_equal. apply IH. intros c Hc. apply H. now right.
Qed.

Lemma deref_settled st l :
  (forall b, In b l -> settled st b = true) ->
  Forall (fun x => batch_status x = Completed \/ batch_status x = Error) (deref st l).
Proof.
  unfold deref. induction l as [|b l IH]; intros H; simpl; [constructor|].
  apply Forall_app. split; [|apply IH; intros c Hc; apply H; now right].
  specialize (H b (or_introl eq_refl)). unfold settled, status_at in H.
  destruct (nth_error (store st) b) as [x|]; [|constructor].
  constructor; [|constructor]. simpl in H. destruct (batch_status x); auto; discriminate.
Qed.

Lemma terminal_partition (l : list ImageBatch) :
  Forall (fun x => batch_status x = Completed \/ batch_status x = Error) l ->
  length (filter (has_status Completed) l) + length (filter (has_status Error) l)
  = length l.
Proof.
  induction 1 as [|x l Hx _ IH]; [reflexivity|].
  cbn [filter].
  assert (Hc : has_status Completed x = true /\ has_status Error x = false
               \/ has_status Completed x = false /\ has_status Error x = true).
  { unfold has_status. destruct Hx as [-> | ->]; auto. }
  destruct Hc as [[-> ->]|[-> ->]]; cbn [length]; lia.
Qed.

(** When nothing waits and nothing is processing, every batch has been
    processed, once. *)
Lemma all_processed st :
  ledger st -> batchQueue st = [] ->
  (forall b, status_at st b <> Some Processing) ->
  length (processedBatches st) = length (store st).
Proof.
  intros L Hq Hnp.
  pose proof (led_nodup _ L) as Hnd. rewrite Hq, app_nil_r in Hnd.
  apply Nat.le_antisymm.
  - rewrite <- (length_seq (length (store st)) 0).
    apply NoDup_incl_length; [assumption|].
    intros b Hb. apply in_seq. pose proof (led_range _ L b Hb). lia.
  - rewrite <- (length_seq (length (store st)) 0) at 1.
    apply NoDup_incl_length; [apply seq_NoDup|].
    intros b Hb. apply in_seq in Hb.
    destruct (led_all _ L b) as [H|[H|H]]; [lia| | |assumption].
    + rewrite Hq in H. contradiction.
    + now apply Hnp in H.
Qed.

Lemma step_ledger st st' :
  consistent st -> ledger st -> effect st st' -> ledger st'.
Proof.
  intros C L E. destruct L as [L1 L2 L3 L4 L5 L6 L7 L8].
  destruct E as [b q x now Hq Hq' Hx Hs Hp Hc Hf Ha
                |b x g Hst Hx Hs Hq Hp Hcount Ha Hr Hpub
                |Hs Hq Hp Hc Hf Ha
                |endTime now Ha0 Hq0 Hact0 Hs Hq Hp Hc Hf Ha Hprog Hr Him Hstart].
  - (* a batch is started *)
    assert (Hlen : length (store st') = length (store st))
      by (rewrite Hs; apply length_update).
    rewrite Hq in L1.
    assert (Hnb : ~ In b (processedBatches st)).
    { intros Hin. apply NoDup_remove_2 in L1. apply L1, in_app_iff. now left. }
    assert (Hnq : ~ In b q).
    { intros Hin. apply NoDup_remove_2 in L1. apply L1, in_app_iff. now right. }
    assert (Hderef : deref st' (processedBatches st) = deref st (processedBatches st)).
    { apply deref_same. intros c Hc'. rewrite Hs. apply nth_error_update_ne. congruence. }
    constructor.
    + rewrite Hp, Hq'. now apply NoDup_remove_1 in L1.
    + intros c Hc'. rewrite Hp in Hc'.
      destruct (status_at_update_ne st' st b c _ Hs) as [_ E2]; [congruence|].
      rewrite E2. now apply L2.
    + intros c Hc'. rewrite Hq' in Hc'.
      destruct (status_at_update_ne st' st b c _ Hs) as [E1 _]; [congruence|].
      rewrite E1. apply L3. rewrite Hq. now right.
    + intros c Hc'. rewrite Hlen in Hc'. rewrite Hq', Hp.
      destruct (Nat.eq_dec b c) as [<-|Hne].
      * right; left. now rewrite (status_at_update_eq st' st b _ x Hs Hx).
      * destruct (status_at_update_ne st' st b c _ Hs Hne) as [E1 _]. rewrite E1.
        destruct (L4 c Hc') as [H|[H|H]]; auto.
        rewrite Hq in H. destruct H as [->|H]; [contradiction|auto].
    + intros c Hc'. rewrite Hlen. apply L5. now rewrite <- Hp.
    + unfold count_status. now rewrite Hc, Hp, Hderef.
    + unfold count_status. now rewrite Hf, Hp, Hderef.
    + contradiction.
  - (* a batch ends *)
    assert (Hlen : length (store st') = length (store st))
      by (rewrite Hs; apply length_update).
    assert (Hnb : ~ In b (processedBatches st)).
    { intros Hin. apply L2 in Hin. now apply settled_not_processing in Hin. }
    assert (Hnq : ~ In b (batchQueue st)).
    { intros Hin. now apply L3 in Hin. }
    assert (Hb : settled st' b = true).
    { unfold settled. rewrite (status_at_update_eq st' st b g x Hs Hx).
      destruct Hcount as [(-> & _)|(-> & _)]; reflexivity. }
    assert (Hderef : deref st' (processedBatches st ++ [b])
                     = deref st (processedBatches st) ++ [g x]).
    { rewrite deref_app. f_equal.
      - apply deref_same. intros c Hc'. rewrite Hs. apply nth_error_update_ne. congruence.
      - unfold deref. simpl. now rewrite Hs, nth_error_update_eq, Hx. }
    constructor.
    + rewrite Hp, Hq, <- app_assoc. simpl.
      apply (NoDup_Add (Add_app b (processedBatches st) (batchQueue st))).
      split; [assumption|]. rewrite in_app_iff. tauto.
    + intros c Hc'. rewrite Hp in Hc'. apply in_app_iff in Hc' as [Hc'|[<-|[]]];
        [|assumption].
      destruct (status_at_update_ne st' st b c g Hs) as [_ E2]; [congruence|].
      rewrite E2. now apply L2.
    + intros c Hc'. rewrite Hq in Hc'.
      destruct (status_at_update_ne st' st b c g Hs) as [E1 _]; [congruence|].
      rewrite E1. now apply L3.
    + intros c Hc'. rewrite Hlen in Hc'. rewrite Hq, Hp.
      destruct (Nat.eq_dec b c) as [<-|Hne].
      * right; right. apply in_app_iff. right. now left.
      * destruct (status_at_update_ne st' st b c g Hs Hne) as [E1 _]. rewrite E1.
        destruct (L4 c Hc') as [H|[H|H]]; auto.
        right; right. apply in_app_iff. now left.
    + intros c Hc'. rewrite Hlen. rewrite Hp in Hc'.
      apply in_app_iff in Hc' as [Hc'|[<-|[]]]; [now apply L5|].
      apply nth_error_Some. congruence.
    + unfold count_status in *. rewrite Hp, Hderef, filter_app, length_app, <- L6.
      cbn [filter]. unfold has_status at 1.
      destruct Hcount as [(-> & -> & _)|(-> & -> & _)]; simpl; lia.
    + unfold count_status in *. rewrite Hp, Hderef, filter_app, length_app, <- L7.
      cbn [filter]. unfold has_status at 1.
      destruct Hcount as [(-> & _ & ->)|(-> & _ & ->)]; simpl; lia.
    + intros Hfin. rewrite Ha in Hfin.
      destruct (inv_finished _ C Hfin) as [_ Hact].
      apply (inv_processing _ C) in Hst. rewrite Hact in Hst. contradiction.
  - (* the loop moves on *)
    destruct (same_store _ _ Hs) as (S1 & S2 & _ & _).
    assert (Hderef : deref st' (processedBatches st) = deref st (processedBatches st))
      by (apply deref_same; intros; now rewrite Hs).
    constructor.
    + now rewrite Hp, Hq.
    + intros c. rewrite Hp, S2. apply L2.
    + intros c. rewrite Hq, S1. apply L3.
    + intros c. rewrite Hs, Hq, Hp, S1. apply L4.
    + intros c. rewrite Hp, Hs. apply L5.
    + unfold count_status. now rewrite Hc, Hp, Hderef.
    + unfold count_status. now rewrite Hf, Hp, Hderef.
    + contradiction.
  - (* the report is made *)
    destruct (same_store _ _ Hs) as (S1 & S2 & _ & _).
    assert (Hderef : deref st' (processedBatches st) = deref st (processedBatches st))
      by (apply deref_same; intros; now rewrite Hs).
    assert (Hall : length (processedBatches st) = length (store st)).
    { apply all_processed; [constructor; assumption|assumption|].
      intros c Hc'. apply (inv_processing _ C) in Hc'. rewrite Hact0 in Hc'. contradiction. }
    constructor.
    + now rewrite Hp, Hq.
    + intros c. rewrite Hp, S2. apply L2.
    + intros c. rewrite Hq, S1. apply L3.
    + intros c. rewrite Hs, Hq, Hp, S1. apply L4.
    + intros c. rewrite Hp, Hs. apply L5.
    + unfold count_status. now rewrite Hc, Hp, Hderef.
    + unfold count_status. now rewrite Hf, Hp, Hderef.
    + intros _. split; [assumption|]. eexists. split; [exact Hr|].
      unfold report_agrees, generateConsolidatedReport.
      cbn [report_totalBatches report_totalImages report_completedBatches
             report_failedBatches report_processingStartTime].
      rewrite Hs, Him, Hstart, Hc, Hf, L6, L7. unfold count_status.
      rewrite (deref_length st (processedBatches st) L5), Hall.
      repeat split.
      rewrite terminal_partition by (apply deref_settled; assumption).
      now rewrite (deref_length st (processedBatches st) L5).
Qed.

Lemma start_ledger batches imagesLength now :
  Forall (fun b => batch_status b <> Processing) batches ->
  ledger (start batches imagesLength now).
Proof.
  intros Hno. constructor;
    cbn [start processedBatches batchQueue store completedCount failedCount at_];
    try contradiction; try reflexivity; try discriminate.
  - simpl. apply seq_NoDup.
  - intros b _ Hb. unfold status_at in Hb. cbn [start store] in Hb.
    destruct (nth_error batches b) as [x|] eqn:Ex; [|discriminate].
    apply nth_error_In in Ex. rewrite Forall_forall in Hno.
    injection Hb as Hb. now apply Hno in Ex.
  - intros b Hb. left. apply in_seq. lia.
Qed.

Lemma steps_ledger ls : forall st st',
  consistent st -> ledger st -> steps ls st = Some st' -> ledger st'.
Proof.
  induction ls as [|l ls IH]; intros st st' C L H; simpl in H.
  - now injection H as <-.
  - destruct (step l st) as [st1|] eqn:E; [|discriminate].
    destruct (step_preserves _ _ _ C E) as [C1 _].
    apply (IH st1 st' C1); [|assumption].
    exact (step_ledger st st1 C L (step_effect l st st1 E)).
Qed.

Lemma step_constants l st st' :
  step l st = Some st' ->
  images_length st' = images_length st /\ startTime st' = startTime st.
Proof.
  destruct l as [now| | |b e now|endTime now]; simpl; intros E.
  - unfold admit_step in E. destruct (at_ st), (batchQueue st); try discriminate.
    destruct (_ <? _); try discriminate.
    destruct (nth_error _ _); try discriminate. injection E as <-. split; reflexivity.
  - unfold race_step in E. destruct (at_ st); try discriminate.
    destruct (_ && _); try discriminate. injection E as <-. split; reflexivity.
  - unfold check_step in E. destruct (at_ st) as [|[|i]|]; try discriminate.
    destruct (nth_error _ _); try discriminate. injection E as <-. split; reflexivity.
  - unfold settle_step in E. destruct (status_at st b) as [[]|]; try discriminate.
    destruct e as [r|msg]; [destruct (result r); [destruct (success r)|]|];
      injection E as <-; split; reflexivity.
  - unfold finish_step in E.
    destruct (at_ st), (batchQueue st), (activeBatches st); try discriminate.
    injection E as <-. split; reflexivity.
Qed.

Lemma steps_constants ls : forall st st',
  steps ls st = Some st' ->
  images_length st' = images_length st /\ startTime st' = startTime st.
Proof.
  induction ls as [|l ls IH]; intros st st' H; simpl in H.
  - injection H as <-. split; reflexivity.
  - destruct (step l st) as [st1|] eqn:E; [|discriminate].
    destruct (IH _ _ H) as [-> ->]. now apply step_constants with l.
Qed.

(** X12. The report of a finished run accounts for every batch exactly
    once: its total is the number of batches of the run, its numbers of
    completed and of failed batches are the counters of the run and add up
    to the total, it carries the number of images and the start time of the
    run, and the progress stands at 100. *)
Theorem finished_run_report (batches : list ImageBatch) (imagesLength : nat) (now : N)
    (ls : list label) (st : run) :
  Forall (fun b => batch_status b <> Processing) batches ->
  steps ls (start batches imagesLength now) = Some st ->
  at_ st = Finished ->
  overallProgress (processingStatus st) = 100
  /\ length (processedBatches st) = length batches
  /\ NoDup (processedBatches st)
  /\ exists r,
       report st = Some r
       /\ report_totalBatches r = length batches
       /\ report_totalImages r = imagesLength
       /\ report_completedBatches r = completedCount st
       /\ report_failedBatches r = failedCount st
       /\ report_completedBatches r + report_failedBatches r = length batches
       /\ report_processingStartTime r = now.
Proof.
  intros Hno Hrun Hfin.
  destruct (start_consistent batches imagesLength now Hno) as [C0 _].
  destruct (steps_preserve _ _ _ C0 Hrun) as [C _].
  pose proof (steps_ledger _ _ _ C0 (start_ledger batches imagesLength now Hno) Hrun) as L.
  pose proof (steps_store_length _ _ _ Hrun) as Hlen. cbn [start store] in Hlen.
  destruct (inv_finished _ C Hfin) as [Hq Hact].
  destruct (led_report _ L Hfin) as (Hprog & r & Hr & A1 & A2 & A3 & A4 & A5 & A6).
  split; [assumption|]. split.
  { rewrite <- Hlen. apply all_processed; auto.
    intros c Hc. apply (inv_processing _ C) in Hc. rewrite Hact in Hc. contradiction. }
  split.
  { pose proof (led_nodup _ L) as Hnd. now rewrite Hq, app_nil_r in Hnd. }
  exists r. rewrite Hlen in A1, A5.
  destruct (steps_constants _ _ _ Hrun) as [Him Hst]. cbn [start images_length startTime] in Him, Hst.
  rewrite Him in A2. rewrite Hst in A6.
  repeat split; assumption.
Qed.

(** The report of the full run over two batches. *)
Lemma finished_run_report_witness :
  exists st,
    steps Samples.full_run (start Samples.two_pending 2 0) = Some st
    /\ overallProgress (processingStatus st) = 100
    /\ length (processedBatches st) = length Samples.two_pending
    /\ NoDup (processedBatches st)
    /\ exists r,
         report st = Some r
         /\ report_totalBatches r = length Samples.two_pending
         /\ report_totalImages r = 2
         /\ report_completedBatches r = completedCount st
         /\ report_failedBatches r = failedCount st
         /\ report_completedBatches r + report_failedBatches r = length Samples.two_pending
         /\ report_processingStartTime r = 0%N.
Proof.
  eexists. split; [vm_compute; reflexivity|].
  apply (finished_run_report Samples.two_pending 2 0 Samples.full_run).
  - repeat constructor; discriminate.
  - vm_compute. reflexivity.
  - reflexivity.
Defined.

End Books.

(* ===================================================================== *)
(** ** The state of the hook *)
(* ===================================================================== *)

Section Uploads.
Import ImageProcessor UseUpload Ledger UploadState.

Lemma valid_at_most (images : list UploadedImage) :
  length (filter is_valid images) <= length images.
Proof.
  induction images as [|x l IH]; simpl; [lia|].
  destruct (is_valid x); simpl; lia.
Qed.

Lemma at_most_10_batches n : n <= 200 -> ceil_div n 20 <= 10.
Proof.
  intros H. unfold ceil_div.
  enough ((n + 20 - 1) / 20 < 11) by lia.
  apply Nat.Div0.div_lt_upper_bound. lia.
Qed.

Lemma rebatched_tidy clock imgs prev :
  length imgs <= 200 ->
  exists newBatches,
    createBatches clock imgs DEFAULT_CONFIG.batchSize = Some newBatches
    /\ forall i r e,
         tidy {| images := imgs; batches := newBatches; isProcessing := i;
                 processingStatus :=
                   with_totalBatches (length newBatches) (UploadState.processingStatus prev);
                 report := r; error := e |}.
Proof.
  intros Hlim.
  destruct (createBatches_default clock imgs) as (bs & Hrun & Hcat & Hlen & Hall).
  exists bs. split; [exact Hrun|]. intros i r e.
  constructor; cbn; auto.
Qed.

Lemma setState_tidy a prev :
  tidy prev -> exists st, setState a prev = Some st /\ tidy st.
Proof.
  intros [Hlim Himg Hcount Htotal Hfresh].
  destruct a as [|clock newImages|msg|clock imageId| |]; cbn [setState].
  - eexists. split; [reflexivity|]. constructor; assumption.
  - unfold uploadImages_adds.
    destruct (Nat.ltb_spec 200 (length (images prev) + length newImages)) as [Hgt|Hle].
    + eexists. split; [reflexivity|]. constructor; assumption.
    + destruct (rebatched_tidy clock (images prev ++ newImages) prev)
        as (bs & Hrun & Ht); [rewrite length_app; lia|].
      rewrite Hrun. eexists. split; [reflexivity|]. apply Ht.
  - eexists. split; [reflexivity|]. constructor; assumption.
  - unfold removeImage.
    destruct (rebatched_tidy clock
                (filter (fun img => negb (JS.eqb (img_id img) imageId)) (images prev)) prev)
      as (bs & Hrun & Ht).
    { pose proof (filter_length_le (fun img => negb (JS.eqb (img_id img) imageId))
                    (images prev)). lia. }
    rewrite Hrun. eexists. split; [reflexivity|]. apply Ht.
  - eexists. split; [reflexivity|]. constructor; cbn; auto; lia.
  - eexists. split; [reflexivity|]. constructor; cbn; auto.
    + rewrite map_map. cbn. exact Himg.
    + now rewrite length_map.
    + now rewrite length_map.
    + apply Forall_map. eapply Forall_impl; [|exact Hfresh].
      intros b (Hsize & _). unfold fresh. cbn. repeat split; apply Hsize.
Qed.

Lemma initial_tidy : tidy initial.
Proof. constructor; cbn; auto; lia. Qed.

Lemma setStates_tidy actions : forall prev,
  tidy prev -> exists st, setStates actions prev = Some st /\ tidy st.
Proof.
  induction actions as [|a rest IH]; intros prev T; cbn [setStates].
  - eauto.
  - destruct (setState_tidy a prev T) as (st1 & -> & T1). now apply IH.
Qed.

(** X13. Whatever uploads, removals, clearings and resets are applied to
    the state of the hook, in whatever order, every update is defined and
    the state stays in step: at most 200 images, of which those not in error
    are exactly the images of the batches, in order; at most 10 batches,
    ceil(V/20) for V such images, each pending with 1 to 20 images and
    without result, error or times; and [totalBatches] is their number. *)
Theorem upload_state_in_step (actions : list action) :
  exists st,
    setStates actions initial = Some st
    /\ length (images st) <= 200
    /\ concat (map batch_images (batches st)) = filter is_valid (images st)
    /\ length (batches st) = ceil_div (length (filter is_valid (images st))) 20
    /\ length (batches st) <= 10
    /\ totalBatches (UploadState.processingStatus st) = length (batches st)
    /\ Forall (fun b =>
         0 < length (batch_images b) <= 20
         /\ batch_status b = Pending /\ batch_result b = None /\ batch_error b = None
         /\ batch_startTime b = None /\ batch_endTime b = None) (batches st).
Proof.
  destruct (setStates_tidy actions initial initial_tidy)
    as (st & Hrun & [Hlim Himg Hcount Htotal Hfresh]).
  exists st. repeat (split; [assumption|]). split; [|split; assumption].
  rewrite Hcount. apply at_most_10_batches.
  pose proof (valid_at_most (images st)). lia.
Qed.

(** X14. When [startAnalysis] runs to its end on a state that uploads,
    removals, clearings and resets have made, its report counts every image
    of the state, also those in error that are in no batch, and at most
    200; its number of batches is ceil(V/20) for the V images not in error,
    at most 10, and its completed and failed batches add up to it. *)
Theorem report_after_uploads (actions : list action) (st : UseUploadState)
    (now : N) (ls : list label) (fin : run) :
  setStates actions initial = Some st ->
  steps ls (start (batches st) (length (images st)) now) = Some fin ->
  at_ fin = Finished ->
  exists r,
    UseUpload.report fin = Some r
    /\ report_totalImages r = length (images st)
    /\ report_totalImages r <= 200
    /\ report_totalBatches r = ceil_div (length (filter is_valid (images st))) 20
    /\ report_totalBatches r <= 10
    /\ report_completedBatches r + report_failedBatches r = report_totalBatches r.
Proof.
  intros Hst Hrun Hfin.
  destruct (setStates_tidy actions initial initial_tidy)
    as (st' & Hst' & [Hlim Himg Hcount Htotal Hfresh]).
  rewrite Hst in Hst'. injection Hst' as <-.
  assert (Hno : Forall (fun b => batch_status b <> Processing) (batches st)).
  { eapply Forall_impl; [|exact Hfresh]. intros b (_ & E & _). congruence. }
  destruct (start_consistent (batches st) (length (images st)) now Hno) as [C0 _].
  pose proof (steps_ledger _ _ _ C0
                (start_ledger (batches st) (length (images st)) now Hno) Hrun) as L.
  pose proof (steps_store_length _ _ _ Hrun) as Hlen. cbn [start store] in Hlen.
  destruct (led_report _ L Hfin) as (_ & r & Hr & A1 & A2 & _ & _ & A5 & _).
  destruct (steps_constants _ _ _ Hrun) as [Him _]. cbn [start images_length] in Him.
  rewrite Hlen in A1, A5. rewrite Him in A2.
  exists r. split; [exact Hr|]. split; [exact A2|]. split; [lia|].
  split; [lia|]. split; [|lia].
  rewrite A1, Hcount. apply at_most_10_batches.
  pose proof (valid_at_most (images st)). lia.
Qed.

(** Two images are uploaded and their batch is analysed. *)
Lemma report_after_uploads_witness :
  setStates MoreSamples.two_uploads initial = Some MoreSamples.after_uploads
  /\ steps MoreSamples.one_batch_run
       (start (batches MoreSamples.after_uploads)
          (length (images MoreSamples.after_uploads)) 0)
     = Some MoreSamples.after_run
  /\ at_ MoreSamples.after_run = Finished
  /\ exists r,
       UseUpload.report MoreSamples.after_run = Some r
       /\ report_totalImages r = length (images MoreSamples.after_uploads)
       /\ report_totalImages r <= 200
       /\ report_totalBatches r
          = ceil_div (length (filter is_valid (images MoreSamples.after_uploads))) 20
       /\ report_totalBatches r <= 10
       /\ report_completedBatches r + report_failedBatches r = report_totalBatches r.
Proof.
  assert (H1 : setStates MoreSamples.two_uploads initial = Some MoreSamples.after_uploads)
    by (vm_compute; reflexivity).
  assert (H2 : steps MoreSamples.one_batch_run
                 (start (batches MoreSamples.after_uploads)
                    (length (images MoreSamples.after_uploads)) 0)
               = Some MoreSamples.after_run)
    by (vm_compute; reflexivity).
  assert (H3 : at_ MoreSamples.after_run = Finished) by (vm_compute; reflexivity).
  split; [exact H1|]. split; [exact H2|]. split; [exact H3|].
  exact (report_after_uploads MoreSamples.two_uploads MoreSamples.after_uploads 0
           MoreSamples.one_batch_run MoreSamples.after_run H1 H2 H3).
Defined.

End Uploads.

(* ===================================================================== *)
(** ** What an extracted section looks like *)
(* ===================================================================== *)

Section Headings.
Import RegExp RadiologyAPIClient Framing.

Lemma Matches_frame r s s' :
  Matches r s s' -> plain r = true ->
  exists u, s = u ++ s' /\ forall x, Matches r (u ++ x) x.
Proof.
  induction 1 as [w s s' Hs|c s Hc|r s s' _ IH|r s|r1 r2 s s' _ IH|r1 r2 s s' _ IH
                  |r1 r2 s s1 s2 _ IH1 _ IH2|pre s|r s s' _ _| |r s s' _ IH];
    cbn [plain]; intros Hp; try discriminate.
  - apply strip_ci_spec in Hs as (u & -> & Hu). exists u. split; [reflexivity|].
    intros x. constructor. apply strip_ci_spec. eauto.
  - exists [c]. split; [reflexivity|]. intros x. now constructor.
  - destruct (IH Hp) as (u & -> & Hu). exists u. split; [reflexivity|].
    intros x. now apply M_Opt_some.
  - exists []. split; [reflexivity|]. intros x. apply M_Opt_none.
  - apply andb_prop in Hp as [Hp _]. destruct (IH Hp) as (u & -> & Hu).
    exists u. split; [reflexivity|]. intros x. now apply M_Alt_l.
  - apply andb_prop in Hp as [_ Hp]. destruct (IH Hp) as (u & -> & Hu).
    exists u. split; [reflexivity|]. intros x. now apply M_Alt_r.
  - apply andb_prop in Hp as [Hp1 Hp2].
    destruct (IH1 Hp1) as (u1 & -> & Hu1). destruct (IH2 Hp2) as (u2 & -> & Hu2).
    exists (u1 ++ u2). split; [now rewrite app_assoc|].
    intros x. rewrite <- app_assoc. now apply M_Seq with (u2 ++ x).
  - destruct (IH Hp) as (u & -> & Hu). exists u. split; [reflexivity|].
    intros x. now apply M_Capture.
Qed.

Lemma heading_plain f : plain (heading f) = true.
Proof. destruct f; reflexivity. Qed.

Lemma strip_ci_head w s s' :
  strip_ci w s = Some s' -> forall p w', w = p :: w' ->
  exists c s0, s = c :: s0 /\ upper c = upper p.
Proof.
  intros H p w' ->. simpl in H. destruct s as [|c s]; [discriminate|].
  unfold ci_eqb in H. destruct (N.eqb_spec (upper p) (upper c)) as [E|E];
    [|discriminate].
  eauto.
Qed.

Lemma letter_not_space c p :
  (65 <= upper p <= 90)%N -> upper c = upper p -> is_white_space c = false.
Proof.
  intros Hp Hc. rewrite <- Hc in Hp. clear Hc. unfold upper in Hp.
  assert (Hr : (65 <= c <= 122)%N).
  { destruct (N.leb_spec 97 c), (N.leb_spec c 122); cbn [andb] in Hp; lia. }
  unfold is_white_space.
  rewrite (proj2 (N.leb_gt c 13)) by lia.
  rewrite (proj2 (N.leb_gt 8192 c)) by lia.
  rewrite !(proj2 (N.eqb_neq c _)) by lia.
  now rewrite andb_false_r.
Qed.

(** A heading starts with a letter. *)
Lemma heading_first f s s' :
  Matches (heading f) s s' -> exists c s0, s = c :: s0 /\ is_white_space c = false.
Proof.
  intros H.
  assert (Hs : exists w p w', w = p :: w' /\ (65 <= upper p <= 90)%N
                              /\ exists s1, strip_ci w s = Some s1).
  { destruct f; cbn [heading] in H;
      repeat match goal with
             | H : Matches (Alt _ _) _ _ |- _ => inversion H; subst; clear H
             | H : Matches (Seq _ _) _ _ |- _ => inversion H; subst; clear H
             end;
      match goal with
      | H : Matches (Chars ?w) s ?s1 |- _ =>
          inversion H; subst; exists w; eexists _, _;
          (split; [reflexivity|]); (split; [split; apply N.leb_le; reflexivity|]);
          eauto
      end. }
  destruct Hs as (w & p & w' & Hw & Hp & s1 & Hs).
  destruct (strip_ci_head _ _ _ Hs _ _ Hw) as (c & s0 & -> & Hc).
  exists c, s0. split; [reflexivity|]. exact (letter_not_space c p Hp Hc).
Qed.

Lemma trimStart_app_nonspace x c y :
  is_white_space c = false -> trimStart (x ++ c :: y) = trimStart x ++ c :: y.
Proof.
  intros Hc. induction x as [|a x IH]; cbn [trimStart app].
  - now rewrite Hc.
  - destruct (is_white_space a); [exact IH|reflexivity].
Qed.

Lemma trimEnd_app_nonspace x c y :
  is_white_space c = false -> trimEnd (x ++ c :: y) = x ++ c :: trimEnd y.
Proof.
  intros Hc. unfold trimEnd.
  rewrite rev_app_distr. cbn [rev]. rewrite <- app_assoc. cbn [app].
  rewrite (trimStart_app_nonspace _ _ _ Hc).
  rewrite rev_app_distr. cbn [rev]. rewrite rev_involutive, <- app_assoc.
  reflexivity.
Qed.

(** Every text that the loop of [match] collects is a match of the
    pattern. *)
Lemma match_all_In r : forall fuel s m,
  In m (match_all fuel r s) -> exists rest, Matches r (m ++ rest) rest.
Proof.
  induction fuel as [|fuel IH]; intros s m Hin; cbn [match_all] in Hin;
    [contradiction|].
  destruct (exec r s) as [[m0 rest0]|] eqn:E; [|contradiction].
  destruct Hin as [<-|Hin].
  - destruct (exec_Some _ _ _ _ E) as (pre & _ & Hm). eauto.
  - destruct m0 as [|c m0]; [destruct rest0 as [|c rest0]; [contradiction|]|];
      exact (IH _ _ Hin).
Qed.

(** X15. The [technicalNotes] of a parsed result are undefined, whatever
    the text is: the pattern of this section ends with [$], so its first
    match runs to the end of the text and there is no second one. *)
Theorem technicalNotes_always_undefined (analysisText batchId : jsstring)
    (imageCount : nat) (processingTime : N) :
  technicalNotes (parseAnalysisResponse analysisText batchId imageCount processingTime)
  = None.
Proof.
  unfold parseAnalysisResponse. cbn [technicalNotes].
  unfold extractSections, extractSection, String_match. cbn [match_all].
  destruct (exec (patterns TechnicalNotes) analysisText) as [[m rest]|] eqn:E;
    [|reflexivity].
  destruct (exec_Some _ _ _ _ E) as (pre & _ & Hm).
  assert (Hrest : rest = []).
  { unfold patterns in Hm.
    inversion Hm as [| | | | | |r1 r2 s0 s1 s2 H1 H2| | | |]; subst.
    inversion H2 as [| | | | | |r1 r2 s0 s3 s4 H3 H4| | | |]; subst.
    inversion H4 as [| | | | | |r1 r2 s0 s5 s6 H5 H6| | | |]; subst.
    cbn [stop] in H6. now inversion H6. }
  subst rest. destruct m as [|c m]; [reflexivity|].
  destruct (length analysisText); reflexivity.
Qed.

(** X16. A section that [extractSections] sets always starts with its own
    heading and the colon: it is a whole match of the pattern, trimmed, and
    never the captured body alone. *)
Theorem extracted_section_keeps_heading (text : jsstring) (f : field) (v : jsstring) :
  extractSections text f = Some v ->
  exists h body, v = h ++ colon :: body /\ Matches (heading f) h [].
Proof.
  unfold extractSections, extractSection, String_match.
  destruct (match_all (S (length text)) (patterns f) text) as [|m0 ms] eqn:E;
    [discriminate|].
  destruct (nth_error (m0 :: ms) 1) as [m1|] eqn:E1; [|discriminate].
  destruct (truthy m1); [|discriminate]. intros [= <-].
  apply nth_error_In in E1. rewrite <- E in E1.
  destruct (match_all_In _ _ _ _ E1) as (rest & Hm).
  unfold patterns in Hm.
  inversion Hm as [| | | | | |r1 r2 s0 s1 s2 H1 H2| | | |]; subst.
  inversion H2 as [| | | | | |r1 r2 s0 s3 s4 H3 H4| | | |]; subst.
  apply Matches_colon in H3. subst s1.
  destruct (Matches_suffix _ _ _ H4) as (pre & ->).
  destruct (Matches_frame _ _ _ H1 (heading_plain f)) as (u & Hu & Hframe).
  change (colon :: pre ++ rest) with ((colon :: pre) ++ rest) in Hu.
  rewrite app_assoc in Hu. apply app_inv_tail in Hu. subst m1.
  pose proof (Hframe []) as Hh. rewrite app_nil_r in Hh.
  destruct (heading_first _ _ _ Hh) as (c & u0 & -> & Hc).
  exists (c :: u0), (trimEnd pre). split; [|exact Hh].
  unfold trim. cbn [trimStart app]. rewrite Hc.
  change (c :: u0 ++ colon :: pre) with ((c :: u0) ++ colon :: pre).
  now apply trimEnd_app_nonspace.
Qed.

(** The findings of the text that repeats their heading. *)
Lemma extracted_section_keeps_heading_witness :
  exists h body,
    js "FINDINGS: second" = h ++ colon :: body /\ Matches (heading Findings) h [].
Proof.
  apply (extracted_section_keeps_heading Samples.repeated_text Findings).
  vm_compute. reflexivity.
Defined.

End Headings.
